(** * Comet deployment manager and migration constraints

    A shallow embedding of
      - plugins/deployment_manager/DeploymentManager.ts (class DeploymentManager)
      - scenario/constraints/MigrationConstraint.ts (isEnacted,
        MigrationConstraint.solve, VerifyMigrationConstraint.solve)
      - contracts/CometRewards.sol (contract CometRewards)
    and the properties their specification states about them, followed by
    further properties read off the code.

    Every [async] function of the source becomes a computation of the monad
    [Async]: it reads and updates the object it works on, settles as resolved
    or rejected, and emits the calls it makes to the outside as a trace, so
    that statements such as "enact is not called" or "three attempts are made"
    are statements about the emitted trace. *)

From Stdlib Require Import ZArith List String Permutation Sorted Lia OrdersEx.
From stdpp Require Import base option gmap strings list.

Open Scope Z_scope.

(** ** Promises *)

(** A JavaScript exception; the source throws [Error] objects with a message. *)
Definition exn := string.

(** How a promise settles. *)
Inductive settled (A : Type) : Type :=
| Resolved (a : A)
| Rejected (e : exn).
Arguments Resolved {A} a.
Arguments Rejected {A} e.

(** What running an async function on a state [S] gives: how it settled, the
    state it leaves (also when it rejects: nothing is rolled back), and the
    events [Ev] it emitted, oldest first. *)
Record Run (Ev S A : Type) : Type := MkRun {
  res : settled A;
  final : S;
  emitted : list Ev
}.
Arguments MkRun {Ev S A} res final emitted.
Arguments res {Ev S A} r.
Arguments final {Ev S A} r.
Arguments emitted {Ev S A} r.

Definition Async (Ev S A : Type) : Type := S -> Run Ev S A.

Section AsyncMonad.
Context {Ev S : Type}.

Definition ret {A} (a : A) : Async Ev S A :=
  fun s => MkRun (Resolved a) s [].

Definition throw {A} (e : exn) : Async Ev S A :=
  fun s => MkRun (Rejected e) s [].

(** [await m] followed by the rest of the function body. *)
Definition bind {A B} (m : Async Ev S A) (k : A -> Async Ev S B) : Async Ev S B :=
  fun s =>
    let r := m s in
    match res r with
    | Resolved a =>
        let r' := k a (final r) in
        MkRun (res r') (final r') (emitted r ++ emitted r')
    | Rejected e => MkRun (Rejected e) (final r) (emitted r)
    end.

(** [try { return await m } catch (e) { h e }]. *)
Definition try_catch {A} (m : Async Ev S A) (h : exn -> Async Ev S A) : Async Ev S A :=
  fun s =>
    let r := m s in
    match res r with
    | Resolved _ => r
    | Rejected e =>
        let r' := h e (final r) in
        MkRun (res r') (final r') (emitted r ++ emitted r')
    end.

Definition get : Async Ev S S := fun s => MkRun (Resolved s) s [].
Definition gets {A} (f : S -> A) : Async Ev S A := fun s => MkRun (Resolved (f s)) s [].
Definition modify (f : S -> S) : Async Ev S unit := fun s => MkRun (Resolved tt) (f s) [].
Definition emit (e : Ev) : Async Ev S unit := fun s => MkRun (Resolved tt) s [e].

(** [for (const x of l) { await body(x) }]: a rejection leaves the loop. *)
Fixpoint for_of {A} (l : list A) (body : A -> Async Ev S unit) : Async Ev S unit :=
  match l with
  | [] => ret tt
  | x :: rest => bind (body x) (fun _ => for_of rest body)
  end.
End AsyncMonad.

Notation "'let*' x ':=' m 'in' k" := (bind m (fun x => k))
  (at level 10, x name, m at level 100, k at level 200).
Notation "m ';;' k" := (bind m (fun _ => k))
  (at level 100, k at level 200, right associativity).

(** ** Types of the deployment manager (Types.ts, Aliases.ts, Proxies.ts) *)

(** Both are strings in Types.ts. *)
Abbreviation Alias := string (only parsing).
Abbreviation Address := string (only parsing).

(** An ethers [Contract] handle as the manager uses it: the address it points
    at, and the address whose ABI it speaks (its proxy target when the proxy
    map has one, itself otherwise). *)
Record Contract : Type := MkContract {
  address : Address;
  abiOf : Address
}.

(** A managed signer: [ExtendedNonceManager] keeps a count of pending
    transactions on top of the signer's address. *)
Record Signer : Type := MkSigner {
  signerAddress : Address;
  pendingCount : Z
}.

(** The result of a crawl ([Spider] in Spider.ts): the alias and proxy maps. *)
Record Spider : Type := MkSpider {
  crawl_aliases : gmap string Address;
  crawl_proxies : gmap string Address
}.

(** ** The persistent store (Cache.ts, Aliases.ts, Proxies.ts, Roots.ts, Migration.ts) *)

Section Store.
(** A migration artifact: opaque, migration-defined JSON. *)
Variable Artifact : Type.

(** Modelled from the spec: the class [Cache] (Cache.ts is not among the sources). The
    spec describes it as a key/value store scoped by (network, deployment),
    holding the roots, the aliases, the proxies and the migration artifacts,
    where a write is last-write-wins and a read of a missing key is a typed
    "not found" result. Each namespace is a finite map here. *)
Record Cache : Type := MkCache {
  c_roots : gmap string Address;
  c_aliases : gmap string Address;
  c_proxies : gmap string Address;
  c_artifacts : gmap string Artifact
}.

Definition emptyCache : Cache := MkCache ∅ ∅ ∅ ∅.

(** Modelled from the spec: [getAliases] and [putAlias] of Aliases.ts (not among the
    sources): "putAlias(alias, address)", "getAliases() -> Alias→Address", and
    "getAliases reflects the most recent successful write". *)
Definition Aliases_getAliases (c : Cache) : gmap string Address := c_aliases c.

Definition Aliases_putAlias (c : Cache) (alias : Alias) (addr : Address) : Cache :=
  MkCache (c_roots c) (<[alias := addr]> (c_aliases c)) (c_proxies c) (c_artifacts c).

(** Modelled from the spec: [storeAliases] of Aliases.ts (not among the sources), the
    write of a whole alias map. *)
Definition Aliases_storeAliases (c : Cache) (m : gmap string Address) : Cache :=
  MkCache (c_roots c) m (c_proxies c) (c_artifacts c).

(** Modelled from the spec: [getProxies], [putProxy] and [storeProxies] of
    Proxies.ts (not among the sources), the same registry for the proxy map. *)
Definition Proxies_getProxies (c : Cache) : gmap string Address := c_proxies c.

Definition Proxies_putProxy (c : Cache) (alias : Alias) (addr : Address) : Cache :=
  MkCache (c_roots c) (c_aliases c) (<[alias := addr]> (c_proxies c)) (c_artifacts c).

Definition Proxies_storeProxies (c : Cache) (m : gmap string Address) : Cache :=
  MkCache (c_roots c) (c_aliases c) m (c_artifacts c).

(** Modelled from the spec: [getRoots] and [putRoots] of Roots.ts (not among the
    sources): the root set is a map Alias → Address kept in the store. *)
Definition Roots_getRoots (c : Cache) : gmap string Address := c_roots c.

Definition Roots_putRoots (c : Cache) (m : gmap string Address) : Cache :=
  MkCache m (c_aliases c) (c_proxies c) (c_artifacts c).

(** Modelled from the spec: [getArtifactSpec] of Migration.ts (not among the sources):
    "storeArtifact/readArtifact key by migration name". *)
Definition getArtifactSpec (migrationName : string) : string := migrationName.

(** Modelled from the spec: [Cache.storeCache] and [Cache.readCache] on an
    artifact key (Cache.ts is not among the sources). *)
Definition Cache_storeCache (c : Cache) (key : string) (a : Artifact) : Cache :=
  MkCache (c_roots c) (c_aliases c) (c_proxies c) (<[key := a]> (c_artifacts c)).

Definition Cache_readCache (c : Cache) (key : string) : option Artifact :=
  c_artifacts c !! key.

(** Modelled from the spec: [getContracts] of ContractMap.ts (not among the sources):
    the contract handles are materialised from the registry, one per alias,
    at the alias's current address, and "the proxy mapping is consulted
    whenever a contract handle is materialized". *)
Definition getContracts (c : Cache) : gmap string Contract :=
  (fun addr => MkContract addr (default addr (Proxies_getProxies c !! addr)))
    <$> Aliases_getAliases c.
End Store.

Arguments MkCache {Artifact} _ _ _ _.
Arguments c_roots {Artifact} _.
Arguments c_aliases {Artifact} _.
Arguments c_proxies {Artifact} _.
Arguments c_artifacts {Artifact} _.
Arguments emptyCache {Artifact}.
Arguments Aliases_getAliases {Artifact} _.
Arguments Aliases_putAlias {Artifact} _ _ _.
Arguments Aliases_storeAliases {Artifact} _ _.
Arguments Proxies_getProxies {Artifact} _.
Arguments Proxies_putProxy {Artifact} _ _ _.
Arguments Proxies_storeProxies {Artifact} _ _.
Arguments Roots_getRoots {Artifact} _.
Arguments Roots_putRoots {Artifact} _ _.
Arguments Cache_storeCache {Artifact} _ _ _.
Arguments Cache_readCache {Artifact} _ _.
Arguments getContracts {Artifact} _.

(** ** Migration units (Migration.ts) *)

Section MigrationTypes.
(** [World]: what the actions of a migration work on, the deployment
    manager(s) handed to them and the chain behind. *)
Variables World Artifact : Type.

(** An action of a migration unit, [(dm, govDm, ...) => Promise<A>]: it
    settles, and leaves the world changed. *)
Definition Action (A : Type) : Type := World -> settled A * World.

(** [Actions<T>]: [prepare] and [enact] are called unguarded by the source,
    [enacted] and [verify] are tested for presence before they are called. *)
Record Actions : Type := MkActions {
  prepare : Action Artifact;
  enact : Artifact -> Action unit;
  enacted : option (Action bool);
  verify : option (Action unit)
}.

Record Migration : Type := MkMigration {
  name : string;
  actions : Actions
}.
End MigrationTypes.

Arguments MkActions {World Artifact} _ _ _ _.
Arguments prepare {World Artifact} _.
Arguments enact {World Artifact} _ _.
Arguments enacted {World Artifact} _.
Arguments verify {World Artifact} _.
Arguments MkMigration {World Artifact} _ _.
Arguments name {World Artifact} _.
Arguments actions {World Artifact} _.

(** ** DeploymentManager.ts *)

Section DeploymentManager.
(** [Hre]: the Hardhat runtime environment and the chain behind it.
    [DeployArgs], [DeploySpec]: constructor arguments and the deploy
    script's argument, both opaque to the manager. *)
Variables Hre Artifact DeployArgs DeploySpec : Type.

(** The fields of the class. [config] only carries settings that the methods
    below hand through to their collaborators, and is left out. *)
Record DeploymentManager : Type := MkDM {
  network : string;
  deployment : string;
  hre : Hre;
  counter : Z;
  cache : Cache Artifact;
  contractsCache : option (gmap string Contract);
  _signers : list Signer
}.

Definition set_hre (h : Hre) (dm : DeploymentManager) : DeploymentManager :=
  MkDM (network dm) (deployment dm) h (counter dm) (cache dm) (contractsCache dm) (_signers dm).
Definition set_counter (n : Z) (dm : DeploymentManager) : DeploymentManager :=
  MkDM (network dm) (deployment dm) (hre dm) n (cache dm) (contractsCache dm) (_signers dm).
Definition set_cache (c : Cache Artifact) (dm : DeploymentManager) : DeploymentManager :=
  MkDM (network dm) (deployment dm) (hre dm) (counter dm) c (contractsCache dm) (_signers dm).
Definition set_contractsCache (m : option (gmap string Contract)) (dm : DeploymentManager)
  : DeploymentManager :=
  MkDM (network dm) (deployment dm) (hre dm) (counter dm) (cache dm) m (_signers dm).
Definition set_signers (l : list Signer) (dm : DeploymentManager) : DeploymentManager :=
  MkDM (network dm) (deployment dm) (hre dm) (counter dm) (cache dm) (contractsCache dm) l.

(** What a method is observed to do, besides changing the manager. *)
Inductive Event : Type :=
| EvAttempt                                     (* retry calls fn() *)
| EvConstruct (contractFile : string)           (* Deploy.deploy is called: a construction is asked *)
| EvConstructed (a : Address)                   (* that call resolved: a contract stands at a *)
| EvWarn (retries : nat) (wait : Z) (e : exn)   (* console.warn in retry *)
| EvSleep (ms : Z)                              (* setTimeout(ok, ms), awaited *)
| EvTook (ms : Z)                               (* an awaited call took ms milliseconds *)
| EvDeployFn.                                   (* the deploy script's entry point is called *)

Definition M (A : Type) : Type := Async Event DeploymentManager A.

(** [DeployOpts] without the verification strategy. *)
Record DeployOpts : Type := MkDeployOpts {
  opts_cache : Cache Artifact;
  connect : option Signer
}.

(** What [import(deployScript)] finds as the module's default export. *)
Inductive DefaultExport : Type :=
| NoDefault                                     (* undefined, or another falsy value *)
| NotCallable                                   (* a value without a [call] property *)
| Callable (deployFn : DeploySpec -> M (gmap string Contract)).

(** The collaborators the class imports and calls, which are outside the
    manager: ethers' signers, the contract construction of Deploy.ts, the
    crawler of Spider.ts, the module loader and the path layout of the
    cache. The first three act on the runtime and may reject. *)
Record Externals : Type := MkExternals {
  ethers_getSigners : Hre -> settled (list Address) * Hre;
  Deploy_deploy : string -> DeployArgs -> DeployOpts -> Hre -> settled Contract * Hre;
  Spider_spider : Cache Artifact -> string -> gmap string Address -> Hre -> settled Spider * Hre;
  import_module : string -> settled DefaultExport;
  Cache_getFilePath : Cache Artifact -> string -> string
}.

Variable ext : Externals.

Definition external {A} (f : Hre -> settled A * Hre) : M A :=
  fun dm => MkRun (fst (f (hre dm))) (set_hre (snd (f (hre dm))) dm) [].

(** [getManagedSigner]: a fresh nonce manager around the signer. *)
Definition getManagedSigner (a : Address) : Signer := MkSigner a 0.

Definition getSigners : M (list Signer) :=
  let* dm := get in
  if bool_decide (0 < length (_signers dm))%nat then ret (_signers dm)
  else
    let* signers := external (ethers_getSigners ext) in
    modify (set_signers (map getManagedSigner signers)) ;;
    gets _signers.

(** [getSigner()] with no address given, the only way the methods below call
    it: any signer, [undefined] when there is none. *)
Definition getSigner : M (option Signer) :=
  let* signers := getSigners in ret (head signers).

(** Modelled from the spec: [ExtendedNonceManager._reset] of NonceManager.ts
    (not among the sources): the nonce-tracking wrapper is reset so that no
    stale count of pending transactions is left. *)
Definition NonceManager_reset (s : Signer) : Signer := MkSigner (signerAddress s) 0.

Definition resetSignersPendingCounts : M unit :=
  modify (fun dm => set_signers (map NonceManager_reset (_signers dm)) dm).

Definition deployOpts : M DeployOpts :=
  let* c := gets cache in
  let* s := getSigner in
  ret (MkDeployOpts c s).

Definition invalidateContractsCache : M unit :=
  modify (set_contractsCache None).

(** The time a trace accounts for. *)
Definition ms_of (e : Event) : Z :=
  match e with
  | EvSleep ms | EvTook ms => ms
  | _ => 0
  end.
Definition elapsed (t : list Event) : Z := fold_right (fun e acc => ms_of e + acc) 0 t.

Definition timeoutError : exn := "Async call timeout limit reached"%string.

(** Modelled from the spec: [asyncCallWithTimeout] of Utils.ts (not among the
    sources): "a dedicated timeout wrapper aborts an individual attempt if it
    exceeds a caller-specified time limit". The attempt is rejected when the
    time it took exceeds the limit; without a limit it is left alone. *)
Definition asyncCallWithTimeout {A} (p : M A) (timeLimit : option Z) : M A :=
  fun dm =>
    let r := p dm in
    match timeLimit with
    | Some limit =>
        if limit <? elapsed (emitted r)
        then MkRun (Rejected timeoutError) (final r) (emitted r)
        else r
    | None => r
    end.

Definition sleep (ms : Z) : M unit := emit (EvSleep ms).

(** [retry(fn, retries, timeLimit, wait)]. [retries] is a count: for a
    negative or fractional number [retries === 0] never holds and the source
    only stops on success, which no total function can mirror. *)
Fixpoint retry {A} (fn : M A) (retries : nat) (timeLimit : option Z) (wait : Z) : M A :=
  try_catch (asyncCallWithTimeout (emit EvAttempt ;; fn) timeLimit)
    (fun e =>
       match retries with
       | O => throw e
       | S retries' =>
           emit (EvWarn retries wait e) ;;
           resetSignersPendingCounts ;;
           sleep wait ;;
           retry fn retries' timeLimit (wait * 2)
       end).

(** A call [this.retry(fn, retries?, timeLimit?, wait?)] with the defaults of
    the signature: [retries = 5], [wait = 250]. *)
Definition retry_call {A} (fn : M A) (retries : option nat) (timeLimit : option Z)
    (wait : option Z) : M A :=
  retry fn (default 5%nat retries) timeLimit (default 250 wait).

Definition idempotent {A} (condition : M bool) (action : M A) (retries : option nat)
  : M (option A) :=
  let* c := condition in
  if c then (let* a := retry_call action retries None None in ret (Some a))
  else ret None.

Definition putAlias (alias : Alias) (addr : Address) : M unit :=
  modify (fun dm => set_cache (Aliases_putAlias (cache dm) alias addr) dm) ;;
  invalidateContractsCache.

Definition putProxy (alias : Alias) (addr : Address) : M unit :=
  modify (fun dm => set_cache (Proxies_putProxy (cache dm) alias addr) dm) ;;
  invalidateContractsCache.

Definition getProxies : M (gmap string Address) := gets (fun dm => Proxies_getProxies (cache dm)).
Definition getAliases : M (gmap string Address) := gets (fun dm => Aliases_getAliases (cache dm)).

Definition contracts : M (gmap string Contract) :=
  let* dm := get in
  match contractsCache dm with
  | Some m => ret m
  | None =>
      let* _signer := getSigner in
      let* c := gets cache in
      modify (set_contractsCache (Some (getContracts c))) ;;
      ret (getContracts c)
  end.

Definition contract (alias : string) : M (option Contract) :=
  let* m := contracts in ret (m !! alias).

(** The function that [_deploy] hands to [retry]:
    [async () => deploy(contractFile, deployArgs, this.hre, await this.deployOpts())]. *)
Definition construct (contractFile : string) (deployArgs : DeployArgs) : M Contract :=
  let* opts := deployOpts in
  emit (EvConstruct contractFile) ;;
  let* c := external (Deploy_deploy ext contractFile deployArgs opts) in
  emit (EvConstructed (address c)) ;;
  ret c.

Definition _deploy (contractFile : string) (deployArgs : DeployArgs) (retries : option nat)
  : M Contract :=
  let* c := retry_call (construct contractFile deployArgs) retries None None in
  modify (fun dm => set_counter (counter dm + 1) dm) ;;
  ret c.

Definition deploy (alias : Alias) (contractFile : string) (deployArgs : DeployArgs)
    (force : bool) (retries : option nat) : M Contract :=
  let* maybeExisting := contract alias in
  match maybeExisting with
  | Some existing =>
      if force then
        let* c := _deploy contractFile deployArgs retries in
        putAlias alias (address c) ;;
        ret c
      else ret existing
  | None =>
      let* c := _deploy contractFile deployArgs retries in
      putAlias alias (address c) ;;
      ret c
  end.

Definition spider (deployed : gmap string Contract) : M Spider :=
  let* dm := get in
  let roots := (address <$> deployed) ∪ Roots_getRoots (cache dm) in
  let* crawl := external (Spider_spider ext (cache dm) (network dm) roots) in
  modify (fun dm => set_cache (Roots_putRoots (cache dm) roots) dm) ;;
  modify (fun dm => set_cache (Aliases_storeAliases (cache dm) (crawl_aliases crawl)) dm) ;;
  modify (fun dm => set_cache (Proxies_storeProxies (cache dm) (crawl_proxies crawl)) dm) ;;
  invalidateContractsCache ;;
  ret crawl.

Record DeploymentDelta : Type := MkDelta {
  delta_old : Z * Spider;
  delta_new : Z * Spider
}.

Definition missingDeployFunction (deployScript : string) : exn :=
  ("Missing deploy function in " +:+ deployScript +:+ ".")%string.

Definition runDeployScript (deploySpec : DeploySpec) : M DeploymentDelta :=
  let* oldCount := gets counter in
  let* oldSpider := spider ∅ in
  let* c := gets cache in
  let deployScript := Cache_getFilePath ext c "deploy.ts" in
  let* exported := (fun dm => MkRun (import_module ext deployScript) dm []) in
  match exported with
  | Callable deployFn =>
      let* deployed := (emit EvDeployFn ;; deployFn deploySpec) in
      let* newCount := gets counter in
      let* newSpider := spider deployed in
      ret (MkDelta (oldCount, oldSpider) (newCount, newSpider))
  | _ => throw (missingDeployFunction deployScript)
  end.

Definition storeArtifact {World} (migration : Migration World Artifact) (artifact : Artifact)
  : M string :=
  let artifactSpec := getArtifactSpec (name migration) in
  modify (fun dm => set_cache (Cache_storeCache (cache dm) artifactSpec artifact) dm) ;;
  let* c := gets cache in
  ret (Cache_getFilePath ext c artifactSpec).

Definition readArtifact {World} (migration : Migration World Artifact) : M (option Artifact) :=
  gets (fun dm => Cache_readCache (cache dm) (getArtifactSpec (name migration))).
End DeploymentManager.

Arguments MkDM {Hre Artifact} _ _ _ _ _ _ _.
Arguments network {Hre Artifact} _.
Arguments deployment {Hre Artifact} _.
Arguments hre {Hre Artifact} _.
Arguments counter {Hre Artifact} _.
Arguments cache {Hre Artifact} _.
Arguments contractsCache {Hre Artifact} _.
Arguments _signers {Hre Artifact} _.
Arguments set_hre {Hre Artifact} h dm.
Arguments set_counter {Hre Artifact} n dm.
Arguments set_cache {Hre Artifact} c dm.
Arguments set_contractsCache {Hre Artifact} m dm.
Arguments set_signers {Hre Artifact} l dm.
Arguments MkDeployOpts {Artifact} _ _.
Arguments opts_cache {Artifact} _.
Arguments connect {Artifact} _.
Arguments NoDefault {Hre Artifact DeploySpec}.
Arguments NotCallable {Hre Artifact DeploySpec}.
Arguments Callable {Hre Artifact DeploySpec} deployFn.
Arguments MkExternals {Hre Artifact DeployArgs DeploySpec} _ _ _ _ _.
Arguments ethers_getSigners {Hre Artifact DeployArgs DeploySpec} _.
Arguments Deploy_deploy {Hre Artifact DeployArgs DeploySpec} _.
Arguments Spider_spider {Hre Artifact DeployArgs DeploySpec} _.
Arguments import_module {Hre Artifact DeployArgs DeploySpec} _.
Arguments Cache_getFilePath {Hre Artifact DeployArgs DeploySpec} _.
Arguments external {Hre Artifact A} f.
Arguments getSigners {Hre Artifact DeployArgs DeploySpec} ext.
Arguments getSigner {Hre Artifact DeployArgs DeploySpec} ext.
Arguments resetSignersPendingCounts {Hre Artifact}.
Arguments deployOpts {Hre Artifact DeployArgs DeploySpec} ext.
Arguments invalidateContractsCache {Hre Artifact}.
Arguments asyncCallWithTimeout {Hre Artifact A} p timeLimit.
Arguments sleep {Hre Artifact} ms.
Arguments retry {Hre Artifact A} fn retries timeLimit wait.
Arguments retry_call {Hre Artifact A} fn retries timeLimit wait.
Arguments idempotent {Hre Artifact A} condition action retries.
Arguments putAlias {Hre Artifact} alias addr.
Arguments putProxy {Hre Artifact} alias addr.
Arguments getProxies {Hre Artifact}.
Arguments getAliases {Hre Artifact}.
Arguments contracts {Hre Artifact DeployArgs DeploySpec} ext.
Arguments contract {Hre Artifact DeployArgs DeploySpec} ext alias.
Arguments construct {Hre Artifact DeployArgs DeploySpec} ext contractFile deployArgs.
Arguments _deploy {Hre Artifact DeployArgs DeploySpec} ext contractFile deployArgs retries.
Arguments deploy {Hre Artifact DeployArgs DeploySpec} ext alias contractFile deployArgs force retries.
Arguments spider {Hre Artifact DeployArgs DeploySpec} ext deployed.
Arguments runDeployScript {Hre Artifact DeployArgs DeploySpec} ext deploySpec.
Arguments storeArtifact {Hre Artifact DeployArgs DeploySpec} ext {World} migration artifact.
Arguments readArtifact {Hre Artifact World} migration.

(** ** Arrays and the subsets of a pool (scenario/utils) *)

Section Arrays.
Context {T : Type}.

(** [Array.prototype.sort(compareFn)]: the elements in ascending order of
    [compareFn], elements that compare equal keeping their order (the sort is
    stable). Insertion from the right gives exactly that order for a
    consistent [compareFn]. *)
Fixpoint sort_insert (compareFn : T -> T -> Z) (x : T) (l : list T) : list T :=
  match l with
  | [] => [x]
  | y :: rest =>
      if compareFn x y <=? 0 then x :: y :: rest
      else y :: sort_insert compareFn x rest
  end.

Fixpoint Array_sort (compareFn : T -> T -> Z) (l : list T) : list T :=
  match l with
  | [] => []
  | x :: rest => sort_insert compareFn x (Array_sort compareFn rest)
  end.

(** Modelled from the spec: the generator [subsets] of scenario/utils (not
    among the sources): "enumerates every subset" of the pool, "one per subset
    in the powerset (including the empty subset)", by "recursive
    subset-enumeration"; the units of a subset come out last-discovered first,
    as in the spec's subset {"1000_b","1000_a"} of the pool 1000_a, 1000_b. *)
Fixpoint subsets (array : list T) : list (list T) :=
  match array with
  | [] => [[]]
  | first :: rest => map (fun subset => subset ++ [first]) (subsets rest) ++ subsets rest
  end.
Definition is_empty (s : list T) : bool := (length s =? 0)%nat.
End Arrays.

(** A value of [process.env]: unset, or a string, which is falsy when empty. *)
Definition truthy (v : option string) : bool :=
  match v with
  | Some s => negb (String.eqb s "")
  | None => false
  end.

(** ** MigrationConstraint.ts *)

Section MigrationConstraint.
Variables World Artifact : Type.

(** What a Solution is observed to do with the migration units. *)
Inductive Call : Type :=
| CPrepare (n : string) (r : option Artifact)  (* actions.prepare settled; the artifact if it resolved *)
| CIsEnacted (n : string) (r : option bool)    (* isEnacted(actions, ..) settled; its value if it resolved *)
| CEnact (n : string) (a : Artifact)           (* actions.enact is called on artifact a *)
| CVerify (n : string).                        (* actions.verify is called *)

(** The scenario context [ctx]: the world it runs in, and the migrations a
    Solution recorded on it. *)
Record Context : Type := MkContext {
  world : World;
  migrations : option (list (Migration World Artifact))
}.

Definition set_world (w : World) (ctx : Context) : Context := MkContext w (migrations ctx).
Definition set_migrations (l : list (Migration World Artifact)) (ctx : Context) : Context :=
  MkContext (world ctx) (Some l).

(** A Solution: [async (ctx) => ctx], changing the context in place. *)
Definition Solution : Type := Async Call Context unit.

(** What the Solutions use of their surroundings: the context's whales, the
    impersonation helper of plugins/scenario/utils (called with the fixed
    funding [exp(1, 18)]), the governance manager's array [_signers] inside
    the world, and the string comparison of the JavaScript runtime. *)
Record Harness : Type := MkHarness {
  getCompWhales : Action World (list Address);
  impersonateAddress : option Address -> Action World Signer;
  signers_unshift : Signer -> World -> World;
  signers_shift : World -> World;
  localeCompare : string -> string -> Z
}.

Variable h : Harness.

(** An awaited call on the world, with what is observed of how it settled. *)
Definition on_world {A} (f : Action World A) (observe : settled A -> list Call)
  : Async Call Context A :=
  fun ctx => MkRun (fst (f (world ctx))) (set_world (snd (f (world ctx))) ctx)
                   (observe (fst (f (world ctx)))).

Definition resolved_value {A} (r : settled A) : option A :=
  match r with
  | Resolved a => Some a
  | Rejected _ => None
  end.

Definition isEnacted (actions : Actions World Artifact) : Action World bool :=
  match enacted actions with
  | Some enacted_fn => enacted_fn
  | None => fun w => (Resolved false, w)
  end.

(** The body of the loop of a migration Solution. *)
Definition runMigration (migration : Migration World Artifact) : Async Call Context unit :=
  let* artifact := on_world (prepare (actions migration))
                     (fun r => [CPrepare (name migration) (resolved_value r)]) in
  let* is_enacted := on_world (isEnacted (actions migration))
                       (fun r => [CIsEnacted (name migration) (resolved_value r)]) in
  if is_enacted then ret tt
  else on_world (enact (actions migration) artifact)
         (fun _ => [CEnact (name migration) artifact]).

Definition compareNames (a b : Migration World Artifact) : Z :=
  localeCompare h (name a) (name b).

(** The Solution that [MigrationConstraint.solve] pushes for [migrationList]. *)
Definition migrationSolution (migrationList : list (Migration World Artifact)) : Solution :=
  let* compWhales := on_world (getCompWhales h) (fun _ => []) in
  let compWhale := head compWhales in
  let* proposer := on_world (impersonateAddress h compWhale) (fun _ => []) in
  modify (fun ctx => set_world (signers_unshift h proposer (world ctx)) ctx) ;;
  let migrationList := Array_sort compareNames migrationList in
  modify (set_migrations migrationList) ;;
  for_of migrationList runMigration ;;
  modify (fun ctx => set_world (signers_shift h (world ctx)) ctx) ;;
  ret tt.

(** The subsets for which [solve] pushes a Solution: the empty one is skipped
    when it is not the only one and WITHOUT_MIGRATIONS is not set. *)
Definition solutionPaths (WITHOUT_MIGRATIONS : option string)
    (migrationPaths : list (list (Migration World Artifact)))
  : list (list (Migration World Artifact)) :=
  List.filter
    (fun migrationList =>
       negb ((length migrationList =? 0)%nat && (1 <? length migrationPaths)%nat
             && negb (truthy WITHOUT_MIGRATIONS)))
    migrationPaths.

(** [MigrationConstraint.solve], on the pool that [getMigrations(world)]
    resolved to and the value of [process.env['WITHOUT_MIGRATIONS']]. *)
Definition solve (WITHOUT_MIGRATIONS : option string) (pool : list (Migration World Artifact))
  : list Solution :=
  map migrationSolution (solutionPaths WITHOUT_MIGRATIONS (subsets pool)).

(** The body of the loop of the verification Solution. *)
Definition verifyMigration (migration : Migration World Artifact) : Async Call Context unit :=
  match verify (actions migration) with
  | Some verify_fn =>
      let* is_enacted := on_world (isEnacted (actions migration))
                           (fun r => [CIsEnacted (name migration) (resolved_value r)]) in
      if is_enacted then ret tt
      else on_world verify_fn (fun _ => [CVerify (name migration)])
  | None => ret tt
  end.

(** The one Solution of [VerifyMigrationConstraint.solve]. *)
Definition verifySolution : Solution :=
  let* ctx := get in
  match migrations ctx with
  | Some recorded => for_of recorded verifyMigration
  | None => ret tt
  end.

Definition solveVerify : list Solution := [verifySolution].
End MigrationConstraint.

Arguments CPrepare {Artifact} n r.
Arguments CIsEnacted {Artifact} n r.
Arguments CEnact {Artifact} n a.
Arguments CVerify {Artifact} n.
Arguments MkContext {World Artifact} _ _.
Arguments world {World Artifact} _.
Arguments migrations {World Artifact} _.
Arguments MkHarness {World} _ _ _ _ _.
Arguments getCompWhales {World} _.
Arguments impersonateAddress {World} _.
Arguments signers_unshift {World} _.
Arguments signers_shift {World} _.
Arguments localeCompare {World} _.
Arguments isEnacted {World Artifact} actions.
Arguments runMigration {World Artifact} migration.
Arguments verifyMigration {World Artifact} migration.
Arguments migrationSolution {World Artifact} h migrationList.
Arguments verifySolution {World Artifact}.
Arguments solutionPaths {World Artifact} WITHOUT_MIGRATIONS migrationPaths.
Arguments solve {World Artifact} h WITHOUT_MIGRATIONS pool.
Arguments compareNames {World Artifact} h a b.
Arguments set_world {World Artifact} w ctx.
Arguments set_migrations {World Artifact} l ctx.
Arguments on_world {World Artifact A} f observe.
Arguments resolved_value {A} r.

(** ** Reading traces *)

Section Traces.
Context {Artifact : Type}.

Definition is_enact (n : string) (c : Call Artifact) : bool :=
  match c with
  | CEnact n' _ => String.eqb n n'
  | _ => false
  end.

Definition is_verify (n : string) (c : Call Artifact) : bool :=
  match c with
  | CVerify n' => String.eqb n n'
  | _ => false
  end.

(** How many times [enact] (resp. [verify]) of the unit named [n] is called. *)
Definition count_enact (n : string) (t : list (Call Artifact)) : nat :=
  length (List.filter (is_enact n) t).

Definition count_verify (n : string) (t : list (Call Artifact)) : nat :=
  length (List.filter (is_verify n) t).

(** The traces a walk over migration units can leave: unit after unit,
    [prepare], then the check, then [enact] only after a check that said "not
    enacted"; a rejection ends the trace. *)
Inductive pass_trace : list (Call Artifact) -> Prop :=
| pass_done : pass_trace []
| pass_prepare_rejected n : pass_trace [CPrepare n None]
| pass_check_rejected n a : pass_trace [CPrepare n (Some a); CIsEnacted n None]
| pass_skip n a t :
    pass_trace t -> pass_trace (CPrepare n (Some a) :: CIsEnacted n (Some true) :: t)
| pass_enact n a t :
    pass_trace t ->
    pass_trace (CPrepare n (Some a) :: CIsEnacted n (Some false) :: CEnact n a :: t).

(** The traces a verification walk can leave. *)
Inductive verify_trace : list (Call Artifact) -> Prop :=
| verify_done : verify_trace []
| verify_check_rejected n : verify_trace [CIsEnacted n None]
| verify_skip n t : verify_trace t -> verify_trace (CIsEnacted n (Some true) :: t)
| verify_call n t :
    verify_trace t -> verify_trace (CIsEnacted n (Some false) :: CVerify n :: t).
(** Every check on the unit named [n] says "not enacted". *)
Definition never_enacted (n : string) (t : list (Call Artifact)) : Prop :=
  Forall (fun c => forall r0, c = CIsEnacted n r0 -> r0 = Some false) t.
End Traces.

(** ** Reading the Solutions *)

Section MigrationReading.
Context {World Artifact : Type} (h : Harness World).

(** Where the walk of a migration Solution starts: the context once the
    proposer is the default signer and the sorted list is recorded, or the
    rejection of the setup. *)
Definition walk_start (l : list (Migration World Artifact)) (ctx : @Context World Artifact)
  : (exn * @Context World Artifact) + @Context World Artifact :=
  let g := getCompWhales h (world ctx) in
  match fst g with
  | Rejected e => inl (e, set_world (snd g) ctx)
  | Resolved whales =>
      let i := impersonateAddress h (head whales) (snd g) in
      match fst i with
      | Rejected e => inl (e, set_world (snd i) (set_world (snd g) ctx))
      | Resolved proposer =>
          inr (MkContext (signers_unshift h proposer (snd i))
                         (Some (Array_sort (compareNames h) l)))
      end
  end.

(** [enacted()] resolves to true on the world [w]. *)
Definition enacted_true (p : Action World bool) (w : World) : Prop :=
  fst (p w) = Resolved true.

(** An action keeps a property of the world. *)
Definition preserves {A} (I : World -> Prop) (f : Action World A) : Prop :=
  forall w, I w -> I (snd (f w)).

(** Once true, [I] stays true under everything a migration Solution over the
    units [l] does to the world. *)
Definition stable (I : World -> Prop) (l : list (Migration World Artifact)) : Prop :=
  preserves I (getCompWhales h) /\
  (forall a, preserves I (impersonateAddress h a)) /\
  (forall s w, I w -> I (signers_unshift h s w)) /\
  (forall w, I w -> I (signers_shift h w)) /\
  (forall u, In u l ->
     preserves I (prepare (actions u)) /\
     (forall a, preserves I (enact (actions u) a)) /\
     preserves I (isEnacted (actions u))).
End MigrationReading.

Arguments enacted_true {World} p w.
Arguments preserves {World A} I f.

(** ** A ledger world, for worked examples *)

(** The smallest world with what the Solutions touch: the governance manager's
    signers, and the names of the migrations applied on chain. *)
Record Ledger : Type := MkLedger {
  gov_signers : list Signer;
  applied : list string
}.

Definition is_applied (n : string) (w : Ledger) : bool :=
  existsb (String.eqb n) (applied w).

(** ** The lexical order of unit names

    [String.prototype.localeCompare] belongs to the JavaScript runtime, not to
    the sources. Migration units are named after their files, such as
    1644385406_my_new_migration: digits, lower-case letters and underscores.
    On such names the collation the runtime uses by default compares
    character by character from the left, an underscore before every digit
    and a digit before every letter, and puts a name after its proper
    prefixes: 1_a comes before 10_a, which the order of the character codes
    would put first. *)

(** The place of a character in the collation. Characters that unit names do
    not use are placed after the others, in the order of their codes: that
    keeps the comparison an order on all strings and says nothing of how the
    runtime places them. *)
Definition collationRank (a : Ascii.ascii) : N :=
  let n := Ascii.N_of_ascii a in
  if (n =? 95)%N then 0%N
  else if ((48 <=? n) && (n <=? 57))%N then (n - 47)%N
  else if ((97 <=? n) && (n <=? 122))%N then (n - 86)%N
  else (n + 37)%N.



(** [a.localeCompare(b)] on unit names: negative, zero or positive. *)
Fixpoint String_localeCompare (a b : string) : Z :=
  match a, b with
  | EmptyString, EmptyString => 0
  | EmptyString, String _ _ => -1
  | String _ _, EmptyString => 1
  | String x a', String y b' =>
      match (collationRank x ?= collationRank y)%N with
      | Lt => -1
      | Gt => 1
      | Eq => String_localeCompare a' b'
      end
  end.


Definition ledgerHarness : Harness Ledger :=
  MkHarness
    (fun w => (Resolved ["0xwhale"%string], w))
    (fun whale w => (Resolved (MkSigner (default ""%string whale) 0), w))
    (fun s w => MkLedger (s :: gov_signers w) (applied w))
    (fun w => MkLedger (tail (gov_signers w)) (applied w))
    String_localeCompare.

(** A unit whose [enact] applies it on the ledger and whose [enacted] reads
    the ledger, as the spec asks ("enacted() must return true immediately
    after a successful enact"); [verify] is defined and passes. *)
Definition tracked (n : string) (artifact : Z) : Migration Ledger Z :=
  MkMigration n
    (MkActions
       (fun w => (Resolved artifact, w))
       (fun _ w => (Resolved tt, MkLedger (gov_signers w) (n :: applied w)))
       (Some (fun w => (Resolved (is_applied n w), w)))
       (Some (fun w => (Resolved tt, w)))).

(** The same unit without an [enacted] predicate. *)
Definition untracked (n : string) (artifact : Z) : Migration Ledger Z :=
  MkMigration n
    (MkActions
       (fun w => (Resolved artifact, w))
       (fun _ w => (Resolved tt, MkLedger (gov_signers w) (n :: applied w)))
       None
       (Some (fun w => (Resolved tt, w)))).

Definition freshLedger : @Context Ledger Z := MkContext (MkLedger [] []) None.

(** ** Comparators *)


(** [a] is not after [b] for the comparator of a sort. *)
Definition before {T} (compareFn : T -> T -> Z) (a b : T) : Prop := compareFn a b <= 0.


(** The names of the units prepared in a trace, in order. *)
Definition prepared {Artifact} (t : list (Call Artifact)) : list string :=
  omap (fun c => match c with CPrepare n _ => Some n | _ => None end) t.

(** ** Reading the traces of the deployment manager *)

Definition is_attempt (e : Event) : bool :=
  match e with EvAttempt => true | _ => false end.

Definition is_construct (e : Event) : bool :=
  match e with EvConstruct _ => true | _ => false end.

(** The number of times [retry] called [fn]. *)
Definition attempts (t : list Event) : nat := length (List.filter is_attempt t).

(** The number of constructions asked of the runtime. *)
Definition constructions (t : list Event) : nat := length (List.filter is_construct t).

Definition is_constructed (e : Event) : bool :=
  match e with EvConstructed _ => true | _ => false end.

(** The number of constructions that resolved: the contracts constructed. *)
Definition constructed (t : list Event) : nat := length (List.filter is_constructed t).

(** The waits between tries, in order. *)
Definition sleeps (t : list Event) : list Z :=
  omap (fun e => match e with EvSleep ms => Some ms | _ => None end) t.

(** [wait], [2 wait], [4 wait], ...: [k] waits, each twice the one before. *)
Definition doubling (wait : Z) (k : nat) : list Z :=
  map (fun i => wait * 2 ^ Z.of_nat i) (seq 0 k).

(** An event of [retry]'s own bookkeeping. *)
Definition is_retry_event (e : Event) : bool :=
  match e with
  | EvAttempt | EvWarn _ _ _ | EvSleep _ => true
  | _ => false
  end.

Section RetryReading.
Context {Hre Artifact A : Type}.

(** [fn] does not itself retry or sleep. *)
Definition quiet (fn : M Hre Artifact A) : Prop :=
  forall dm, forallb (fun e => negb (is_retry_event e)) (emitted (fn dm)) = true.

(** One try of [retry]: [asyncCallWithTimeout(fn(), timeLimit)]. *)
Definition attempt (fn : M Hre Artifact A) (timeLimit : option Z) : M Hre Artifact A :=
  asyncCallWithTimeout (emit EvAttempt ;; fn) timeLimit.

(** The manager on which the next try runs, after a try that rejected. *)
Definition after_failure (fn : M Hre Artifact A) (timeLimit : option Z)
    (dm : DeploymentManager Hre Artifact) : DeploymentManager Hre Artifact :=
  final (resetSignersPendingCounts (final (attempt fn timeLimit dm))).
End RetryReading.

Section ManagerReading.
Context {Hre Artifact : Type}.

(** [dm'] has the registry, the counter and the handles of [dm]: only the
    runtime and the signers may differ. *)
Definition same_registry (dm dm' : DeploymentManager Hre Artifact) : Prop :=
  cache dm' = cache dm /\ counter dm' = counter dm /\
  contractsCache dm' = contractsCache dm.
End ManagerReading.

(** ** A deployment manager on a small runtime, for worked examples *)

(** The runtime counts the constructions asked of it, and fails the first two
    (a transient error). It lists one signer, crawls to exactly the roots it
    is given, and lays files out by their relative path. *)
Definition flakyDeploy (contractFile : string) (args : unit) (opts : @DeployOpts Z)
    (asked : nat) : settled Contract * nat :=
  (if (asked <? 2)%nat then Rejected "transient"%string
   else Resolved (MkContract ("0x" +:+ contractFile) ("0x" +:+ contractFile)),
   S asked).

Definition flakyRuntime (exported : @DefaultExport nat Z unit) : Externals nat Z unit unit :=
  MkExternals
    (fun asked => (Resolved ["0xsigner"%string], asked))
    flakyDeploy
    (fun _ _ roots asked => (Resolved (MkSpider roots ∅), asked))
    (fun _ => Resolved exported)
    (fun _ rel => rel).

(** No deploy script. *)
Definition bareRuntime : Externals nat Z unit unit := flakyRuntime NoDefault.



Definition freshManager : DeploymentManager nat Z :=
  MkDM "mainnet" "usdc" 0%nat 0 emptyCache None [].

(** The same manager once the runtime no longer fails. *)
Definition steadyManager : DeploymentManager nat Z :=
  MkDM "mainnet" "usdc" 2%nat 0 emptyCache None [].

(** An awaited call that takes 1000 ms the first time and 10 ms afterwards. *)
Definition slowOnce : M nat Z Z :=
  fun dm => MkRun (Resolved 1) (set_hre (S (hre dm)) dm)
                  [EvTook (if (hre dm =? 0)%nat then 1000 else 10)].

(** The migration constraint over a world that is a deployment manager: the
    proposer is put in front of the manager's signers. *)
Definition managerHarness : Harness (DeploymentManager nat Z) :=
  MkHarness
    (fun w => (Resolved ["0xwhale"%string], w))
    (fun whale w => (Resolved (MkSigner (default ""%string whale) 0), w))
    (fun s w => set_signers (s :: _signers w) w)
    (fun w => set_signers (tail (_signers w)) w)
    String_localeCompare.

(** A unit whose [enact] stores an alias in the manager's registry. *)
Definition aliasing (n : string) (artifact : Z) : Migration (DeploymentManager nat Z) Z :=
  MkMigration n
    (MkActions
       (fun w => (Resolved artifact, w))
       (fun _ w => (Resolved tt, final (putAlias n "0xnew" w)))
       None
       None).


(** ** DeploymentManager.ts: signers by address, imports, clones *)

Section DeploymentManagerImports.
(** [BuildFile]: the description of a contract that an import returns, opaque
    to the manager. *)
Variables Hre Artifact DeployArgs DeploySpec BuildFile : Type.

(** The import settings of [DeploymentManagerConfig]; the manager keeps them
    in [this.config] and never changes them. *)
Record ImportConfig : Type := MkImportConfig {
  cfg_importRetries : option Z;
  cfg_importRetryDelay : option Z
}.

(** The further collaborators these methods call: the runtime's
    [String.prototype.toLowerCase], ethers' signer for an address (given here
    by the address it reports), the fetch of Import.ts and the construction
    from a build file of Deploy.ts. The last three act on the runtime and may
    reject. *)
Record Imports : Type := MkImports {
  String_toLowerCase : string -> string;
  ethers_getSigner : Address -> Hre -> settled Address * Hre;
  Import_fetchAndCacheContract :
    Cache Artifact -> string -> Address -> Z -> Z -> Hre -> settled BuildFile * Hre;
  Deploy_deployBuild :
    BuildFile -> DeployArgs -> @DeployOpts Artifact -> Hre -> settled Contract * Hre
}.

Variable ext : Externals Hre Artifact DeployArgs DeploySpec.
Variable imp : Imports.
Variable config : ImportConfig.

(** [s.address.toLowerCase() === address.toLowerCase()]. *)
Definition same_address (addr : Address) (s : Signer) : bool :=
  String.eqb (String_toLowerCase imp (signerAddress s)) (String_toLowerCase imp addr).

(** [getSigner(address?)], the whole method: [!address] holds for a missing
    address and for the empty string. *)
Definition getSignerAt (addr : option Address) : M Hre Artifact (option Signer) :=
  match addr with
  | None | Some ""%string => getSigner ext
  | Some a =>
      let* dm := get in
      match find (same_address a) (_signers dm) with
      | Some signer => ret (Some signer)
      | None =>
          let* raw := external (ethers_getSigner imp a) in
          let newSigner := getManagedSigner raw in
          modify (fun dm => set_signers (_signers dm ++ [newSigner]) dm) ;;
          ret (Some newSigner)
      end
  end.

(** [importRetries()] and [importRetryDelay()]: [??] keeps every number that
    is set, zero included. *)
Definition importRetries : Z := default 4 (cfg_importRetries config).
Definition importRetryDelay : Z := default 5000 (cfg_importRetryDelay config).

(** [import(address, network?)]. *)
Definition import (addr : Address) (network' : option string) : M Hre Artifact BuildFile :=
  let* dm := get in
  external (Import_fetchAndCacheContract imp (cache dm) (default (network dm) network')
              addr importRetries importRetryDelay).

(** The function that [_deployBuild] hands to [retry]. *)
Definition constructBuild (buildFile : BuildFile) (deployArgs : DeployArgs)
  : M Hre Artifact Contract :=
  let* opts := deployOpts ext in
  emit (EvConstruct "") ;;
  let* c := external (Deploy_deployBuild imp buildFile deployArgs opts) in
  emit (EvConstructed (address c)) ;;
  ret c.

Definition _deployBuild (buildFile : BuildFile) (deployArgs : DeployArgs)
    (retries : option nat) : M Hre Artifact Contract :=
  let* c := retry_call (constructBuild buildFile deployArgs) retries None None in
  modify (fun dm => set_counter (counter dm + 1) dm) ;;
  ret c.

Definition clone (alias : Alias) (addr : Address) (deployArgs : DeployArgs)
    (fromNetwork : option string) (force : bool) (retries : option nat)
  : M Hre Artifact Contract :=
  let* maybeExisting := contract ext alias in
  match maybeExisting with
  | Some existing =>
      if force then
        let* buildFile := import addr fromNetwork in
        let* c := _deployBuild buildFile deployArgs retries in
        putAlias alias (address c) ;;
        ret c
      else ret existing
  | None =>
      let* buildFile := import addr fromNetwork in
      let* c := _deployBuild buildFile deployArgs retries in
      putAlias alias (address c) ;;
      ret c
  end.
(** [existing(alias, address)]. The handle of [getEthersContract] is at
    [addr], with the ABI of the build file imported from [addr]. *)
Definition existing (alias : Alias) (addr : Address) : M Hre Artifact Contract :=
  let* maybeExisting := contract ext alias in
  match maybeExisting with
  | Some found => ret found
  | None =>
      let* _buildFile := import addr None in
      putAlias alias addr ;;
      ret (MkContract addr addr)
  end.
End DeploymentManagerImports.

Arguments MkImports {Hre Artifact DeployArgs BuildFile} _ _ _ _.
Arguments String_toLowerCase {Hre Artifact DeployArgs BuildFile} _.
Arguments ethers_getSigner {Hre Artifact DeployArgs BuildFile} _.
Arguments Import_fetchAndCacheContract {Hre Artifact DeployArgs BuildFile} _.
Arguments Deploy_deployBuild {Hre Artifact DeployArgs BuildFile} _.
Arguments same_address {Hre Artifact DeployArgs BuildFile} imp addr s.
Arguments getSignerAt {Hre Artifact DeployArgs DeploySpec BuildFile} ext imp addr.
Arguments import {Hre Artifact DeployArgs BuildFile} imp config addr network'.
Arguments constructBuild {Hre Artifact DeployArgs DeploySpec BuildFile} ext imp buildFile deployArgs.
Arguments _deployBuild {Hre Artifact DeployArgs DeploySpec BuildFile} ext imp buildFile deployArgs retries.
Arguments clone {Hre Artifact DeployArgs DeploySpec BuildFile} ext imp config alias addr deployArgs fromNetwork force retries.
Arguments existing {Hre Artifact DeployArgs DeploySpec BuildFile} ext imp config alias addr.


(** ** Further readings of the manager's traces *)

(** The retries left, as each warning of [retry] reports them, in order. *)
Definition warnings (t : list Event) : list nat :=
  omap (fun e => match e with EvWarn n _ _ => Some n | _ => None end) t.

(** [retries], [retries - 1], ...: the [k] first counts down from [retries]. *)
Definition countdown (retries k : nat) : list nat :=
  map (fun i => (retries - i)%nat) (seq 0 k).

(** The time spent in a list of waits. *)
Definition total (l : list Z) : Z := fold_right Z.add 0 l.

(** ** A runtime with imports, for worked examples *)

(** ASCII lower case, as [String.prototype.toLowerCase] on hexadecimal
    addresses. *)
Definition lowerAscii (a : Ascii.ascii) : Ascii.ascii :=
  let n := Ascii.nat_of_ascii a in
  if ((65 <=? n) && (n <=? 90))%nat then Ascii.ascii_of_nat (n + 32) else a.

Fixpoint lowerCase (s : string) : string :=
  match s with
  | EmptyString => EmptyString
  | String a rest => String (lowerAscii a) (lowerCase rest)
  end.

(** The runtime reports a signer at the address asked for, in lower case.
    Etherscan knows every address but 0xunknown; a clone is constructed at
    the 0xclone address (the first construction fails, as a transient
    error). *)
Definition demoImports : Imports nat Z unit string :=
  MkImports
    lowerCase
    (fun a asked => (Resolved (lowerCase a), asked))
    (fun _ network' a _ _ asked =>
       (if String.eqb a "0xunknown" then Rejected "not verified"%string
        else Resolved (network' +:+ ":" +:+ a)%string, asked))
    (fun buildFile _ _ asked =>
       (if (asked <? 1)%nat then Rejected "transient"%string
        else Resolved (MkContract "0xclone" buildFile), S asked)).

Definition demoConfig : ImportConfig := MkImportConfig None None.

(** The migration constraint over a manager whose impersonation helper asks
    the manager itself for the signer of the whale, as [getSigner(address)]
    gives it: the manager keeps that signer among its own. *)
Definition impersonatingHarness : Harness (DeploymentManager nat Z) :=
  MkHarness
    (fun w => (Resolved ["0xwhale"%string], w))
    (fun whale w =>
       let r := getSignerAt bareRuntime demoImports whale w in
       (match res r with
        | Resolved (Some s) => Resolved s
        | Resolved None => Rejected "no signer"%string
        | Rejected e => Rejected e
        end,
        final r))
    (fun s w => set_signers (s :: _signers w) w)
    (fun w => set_signers (tail (_signers w)) w)
    String_localeCompare.

(** A runtime whose crawl always fails. *)
Definition brokenCrawl : Externals nat Z unit unit :=
  MkExternals
    (fun asked => (Resolved ["0xsigner"%string], asked))
    flakyDeploy
    (fun _ _ _ asked => (Rejected "crawl failed"%string, S asked))
    (fun _ => Resolved NoDefault)
    (fun _ rel => rel).

(** ** Further readings of the migration Solutions *)

Section CallReading.
Context {Artifact : Type}.

(** The names of the units checked by [isEnacted] in a trace, in order. *)
Definition checked (t : list (Call Artifact)) : list string :=
  omap (fun c => match c with CIsEnacted n _ => Some n | _ => None end) t.

(** The names of the units whose check said "not enacted", in order. *)
Definition unenacted (t : list (Call Artifact)) : list string :=
  omap (fun c => match c with CIsEnacted n (Some false) => Some n | _ => None end) t.

(** The names of the units whose [enact] is called, in order. *)
Definition enacts (t : list (Call Artifact)) : list string :=
  omap (fun c => match c with CEnact n _ => Some n | _ => None end) t.

(** The names of the units whose [verify] is called, in order. *)
Definition verified (t : list (Call Artifact)) : list string :=
  omap (fun c => match c with CVerify n => Some n | _ => None end) t.
End CallReading.

Section SignersReading.
Context {World Artifact : Type} (h : Harness World).

(** The unit defines [verify]. *)
Definition has_verify (u : Migration World Artifact) : bool :=
  match verify (actions u) with
  | Some _ => true
  | None => false
  end.

(** An action leaves a reading of the world as it was. *)
Definition keeps {A B} (view : World -> B) (f : Action World A) : Prop :=
  forall w, view (snd (f w)) = view w.

(** [sig] reads the governance manager's [_signers] in the world: [unshift]
    puts a signer in front, [shift] drops the first, and the actions of the
    units [l] leave them as they are. Nothing is asked of [getCompWhales] and
    [impersonateAddress], which are handed the manager and may add signers to
    it. *)
Definition reads_signers (sig : World -> list Signer)
    (l : list (Migration World Artifact)) : Prop :=
  (forall s w, sig (signers_unshift h s w) = s :: sig w) /\
  (forall w, sig (signers_shift h w) = tail (sig w)) /\
  (forall u, In u l ->
     keeps sig (prepare (actions u)) /\
     (forall a, keeps sig (enact (actions u) a)) /\
     keeps sig (isEnacted (actions u))).

(** The world as the impersonation of the proposer leaves it, before the
    proposer is put in front of the signers. *)
Definition after_setup (ctx : @Context World Artifact) : World :=
  let g := getCompWhales h (world ctx) in
  snd (impersonateAddress h (head (default [] (resolved_value (fst g)))) (snd g)).
End SignersReading.

Arguments has_verify {World Artifact} u.
Arguments after_setup {World Artifact} h ctx.
Arguments keeps {World A B} view f.

(** A unit of the ledger world whose [enact] rejects. *)
Definition failing (n : string) (artifact : Z) : Migration Ledger Z :=
  MkMigration n
    (MkActions
       (fun w => (Resolved artifact, w))
       (fun _ w => (Rejected "proposal failed"%string, w))
       (Some (fun w => (Resolved (is_applied n w), w)))
       (Some (fun w => (Resolved tt, w)))).

(** A unit of the ledger world that defines neither [enacted] nor [verify]. *)
Definition unverified (n : string) (artifact : Z) : Migration Ledger Z :=
  MkMigration n
    (MkActions
       (fun w => (Resolved artifact, w))
       (fun _ w => (Resolved tt, MkLedger (gov_signers w) (n :: applied w)))
       None
       None).

(** * CometRewards.sol

    The contract's functions are computations on the state of the chain: the
    contract's own storage, the state of the other contracts, and the events
    logged. A call either returns, with a new state, or reverts, and then
    nothing of what it did remains. An [address] is the number it stands for
    ([address(0)] is [0]). Arithmetic is the checked arithmetic of Solidity
    0.8: on [uint256], an overflow is [Panic(0x11)] and a division by zero
    [Panic(0x12)]. *)

Definition UINT256_MAX : Z := 2 ^ 256 - 1.
Definition UINT64_MAX : Z := 2 ^ 64 - 1.
Definition FACTOR_SCALE : Z := 10 ^ 18.

Record RewardConfig : Type := MkRewardConfig {
  token : Z;
  rescaleFactor : Z;
  shouldUpscale : bool
}.

Record RewardOwed : Type := MkRewardOwed {
  owed_token : Z;
  owed : Z
}.

Inductive Log : Type :=
| GovernorTransferred (oldGovernor newGovernor : Z)
| RewardClaimed (src recipient tok amount : Z).

(** What a revert carries: one of the contract's custom errors, a panic of the
    checked arithmetic, or the failure of a call to another contract (it
    reverted, or what it returned does not decode at the declared type). *)
Inductive Failure : Type :=
| AlreadyConfigured (comet : Z)
| InvalidUInt64 (n : Z)
| NotPermitted (sender : Z)
| NotSupported (comet : Z)
| TransferOutFailed (to amount : Z)
| Panic (code : Z)
| CallFailed.

(** The contract's storage. A mapping holds the zero value at every key that
    was never written. *)
Record Storage : Type := MkStorage {
  governor : Z;
  rewardConfig : gmap Z RewardConfig;
  rewardsClaimed : gmap (Z * Z) Z
}.

Definition zeroConfig : RewardConfig := MkRewardConfig 0 0 false.

Definition rewardConfigOf (s : Storage) (comet : Z) : RewardConfig :=
  default zeroConfig (rewardConfig s !! comet).

Definition rewardsClaimedOf (s : Storage) (comet account : Z) : Z :=
  default 0 (rewardsClaimed s !! (comet, account)).

Definition set_governor (g : Z) (s : Storage) : Storage :=
  MkStorage g (rewardConfig s) (rewardsClaimed s).

Definition set_rewardConfig (comet : Z) (config : RewardConfig) (s : Storage) : Storage :=
  MkStorage (governor s) (<[comet := config]> (rewardConfig s)) (rewardsClaimed s).

Definition set_rewardsClaimed (comet account amount : Z) (s : Storage) : Storage :=
  MkStorage (governor s) (rewardConfig s) (<[(comet, account) := amount]> (rewardsClaimed s)).

(** [constructor(governor_)]. *)
Definition constructor (governor_ : Z) : Storage := MkStorage governor_ ∅ ∅.

Section CometRewards.
(** The state of the other contracts: the Comet instances and the tokens. *)
Variable Ext : Type.

Record EVM : Type := MkEVM {
  storage : Storage;
  others : Ext;
  logs : list Log
}.

Inductive Outcome (A : Type) : Type :=
| Reverted (f : Failure)
| Returned (a : A) (w : EVM).
Arguments Reverted {A} f.
Arguments Returned {A} a w.

Definition Tx (A : Type) : Type := EVM -> Outcome A.

Definition tx_ret {A} (a : A) : Tx A := fun w => Returned a w.
Definition revert {A} (f : Failure) : Tx A := fun _ => Reverted f.
Definition tx_bind {A B} (m : Tx A) (k : A -> Tx B) : Tx B :=
  fun w =>
    match m w with
    | Returned a w' => k a w'
    | Reverted f => Reverted f
    end.

Notation "'let!' x ':=' m 'in' k" := (tx_bind m (fun x => k))
  (at level 10, x name, m at level 100, k at level 200).

Definition sload : Tx Storage := fun w => Returned (storage w) w.
Definition sstore (f : Storage -> Storage) : Tx unit :=
  fun w => Returned tt (MkEVM (f (storage w)) (others w) (logs w)).
Definition emit_log (l : Log) : Tx unit :=
  fun w => Returned tt (MkEVM (storage w) (others w) (logs w ++ [l])).

(** The other contracts, as CometInterface.sol and ERC20.sol declare the
    functions called here. A call is a function of the whole state: the
    callee may do anything, calling back into this contract included.
    [baseTrackingAccrued] is called from a [view] function, so it only
    reads. [None] is a call that reverts. *)
Record Contracts : Type := MkContracts {
  Comet_baseAccrualScale : Z -> EVM -> option (Z * EVM);
  Comet_accrueAccount : Z -> Z -> EVM -> option (unit * EVM);
  Comet_baseTrackingAccrued : Z -> Z -> EVM -> option Z;
  Comet_hasPermission : Z -> Z -> Z -> EVM -> option (bool * EVM);
  ERC20_decimals : Z -> EVM -> option (Z * EVM);
  ERC20_transfer : Z -> Z -> Z -> EVM -> option (bool * EVM)
}.

Variable c : Contracts.

Definition call {A} (f : EVM -> option (A * EVM)) : Tx A :=
  fun w =>
    match f w with
    | Some (a, w') => Returned a w'
    | None => Reverted CallFailed
    end.

Definition staticcall {A} (f : EVM -> option A) : Tx A :=
  fun w =>
    match f w with
    | Some a => Returned a w
    | None => Reverted CallFailed
    end.

(** The returned word decodes as a [uint] of the given width: the width of
    the variable the source assigns the result to ([uint64 accrualScale],
    [uint8 tokenDecimals], [uint accrued]). *)
Definition abi_uint (bits : Z) (v : Z) : Tx Z :=
  if (0 <=? v) && (v <? 2 ^ bits) then tx_ret v else revert CallFailed.

Definition checked_mul (a b : Z) : Tx Z :=
  if a * b <=? UINT256_MAX then tx_ret (a * b) else revert (Panic 0x11).

Definition checked_div (a b : Z) : Tx Z :=
  if b =? 0 then revert (Panic 0x12) else tx_ret (a / b).

Definition checked_sub (a b : Z) : Tx Z :=
  if b <=? a then tx_ret (a - b) else revert (Panic 0x11).

Definition checked_pow (a b : Z) : Tx Z :=
  if a ^ b <=? UINT256_MAX then tx_ret (a ^ b) else revert (Panic 0x11).

Definition safe64 (n : Z) : Tx Z :=
  if UINT64_MAX <? n then revert (InvalidUInt64 n) else tx_ret n.

Definition doTransferOut (tok to amount : Z) : Tx unit :=
  let! success := call (ERC20_transfer c tok to amount) in
  if negb success then revert (TransferOutFailed to amount) else tx_ret tt.

Definition getRewardAccrued (comet account : Z) (config : RewardConfig) : Tx Z :=
  let! returned := staticcall (Comet_baseTrackingAccrued c comet account) in
  let! accrued := abi_uint 256 returned in
  if shouldUpscale config then checked_mul accrued (rescaleFactor config)
  else checked_div accrued (rescaleFactor config).

(** [sender] is [msg.sender]. *)
Definition setRewardConfigWithMultiplier (sender comet tok multiplier : Z) : Tx unit :=
  let! s := sload in
  if negb (sender =? governor s) then revert (NotPermitted sender) else
  if negb (token (rewardConfigOf s comet) =? 0) then revert (AlreadyConfigured comet) else
  let! returned := call (Comet_baseAccrualScale c comet) in
  let! accrualScale := abi_uint 64 returned in
  let! returned := call (ERC20_decimals c tok) in
  let! tokenDecimals := abi_uint 8 returned in
  let! power := checked_pow 10 tokenDecimals in
  let! tokenScale := safe64 power in
  if tokenScale <? accrualScale then
    let! rescaleFactor := checked_div accrualScale tokenScale in
    let! scaled := checked_mul rescaleFactor FACTOR_SCALE in
    if scaled <? multiplier then
      let! quotient := checked_div multiplier rescaleFactor in
      let! quotient := checked_div quotient FACTOR_SCALE in
      let! rescaleFactor := safe64 quotient in
      sstore (set_rewardConfig comet (MkRewardConfig tok rescaleFactor true))
    else
      let! product := checked_mul rescaleFactor FACTOR_SCALE in
      let! quotient := checked_div product multiplier in
      let! rescaleFactor := safe64 quotient in
      sstore (set_rewardConfig comet (MkRewardConfig tok rescaleFactor false))
  else
    let! rescaleFactor := checked_div tokenScale accrualScale in
    let! inverse := checked_div FACTOR_SCALE multiplier in
    if rescaleFactor <? inverse then
      let! quotient := checked_div FACTOR_SCALE multiplier in
      let! quotient := checked_div quotient rescaleFactor in
      let! rescaleFactor := safe64 quotient in
      sstore (set_rewardConfig comet (MkRewardConfig tok rescaleFactor false))
    else
      let! product := checked_mul rescaleFactor multiplier in
      let! quotient := checked_div product FACTOR_SCALE in
      let! rescaleFactor := safe64 quotient in
      sstore (set_rewardConfig comet (MkRewardConfig tok rescaleFactor true)).

Definition setRewardConfig (sender comet tok : Z) : Tx unit :=
  setRewardConfigWithMultiplier sender comet tok FACTOR_SCALE.

Definition withdrawToken (sender tok to amount : Z) : Tx unit :=
  let! s := sload in
  if negb (sender =? governor s) then revert (NotPermitted sender) else
  doTransferOut tok to amount.

Definition transferGovernor (sender newGovernor : Z) : Tx unit :=
  let! s := sload in
  if negb (sender =? governor s) then revert (NotPermitted sender) else
  let oldGovernor := governor s in
  let! _ := sstore (set_governor newGovernor) in
  emit_log (GovernorTransferred oldGovernor newGovernor).

Definition getRewardOwed (comet account : Z) : Tx RewardOwed :=
  let! s := sload in
  let config := rewardConfigOf s comet in
  if token config =? 0 then revert (NotSupported comet) else
  let! _ := call (Comet_accrueAccount c comet account) in
  let! s := sload in
  let claimed := rewardsClaimedOf s comet account in
  let! accrued := getRewardAccrued comet account config in
  let! owed := (if claimed <? accrued then checked_sub accrued claimed else tx_ret 0) in
  tx_ret (MkRewardOwed (token config) owed).

Definition claimInternal (comet src to : Z) (shouldAccrue : bool) : Tx unit :=
  let! s := sload in
  let config := rewardConfigOf s comet in
  if token config =? 0 then revert (NotSupported comet) else
  let! _ := (if shouldAccrue then call (Comet_accrueAccount c comet src) else tx_ret tt) in
  let! s := sload in
  let claimed := rewardsClaimedOf s comet src in
  let! accrued := getRewardAccrued comet src config in
  if claimed <? accrued then
    let! owed := checked_sub accrued claimed in
    let! _ := sstore (set_rewardsClaimed comet src accrued) in
    let! _ := doTransferOut (token config) to owed in
    emit_log (RewardClaimed src to (token config) owed)
  else tx_ret tt.

Definition claim (comet src : Z) (shouldAccrue : bool) : Tx unit :=
  claimInternal comet src src shouldAccrue.

Definition claimTo (sender comet src to : Z) (shouldAccrue : bool) : Tx unit :=
  let! permitted := call (Comet_hasPermission c comet src sender) in
  if negb permitted then revert (NotPermitted sender) else
  claimInternal comet src to shouldAccrue.
End CometRewards.

Arguments MkEVM {Ext} _ _ _.
Arguments storage {Ext} _.
Arguments others {Ext} _.
Arguments logs {Ext} _.
Arguments Reverted {Ext A} f.
Arguments Returned {Ext A} a w.
Arguments MkContracts {Ext} _ _ _ _ _ _.
Arguments Comet_baseAccrualScale {Ext} _.
Arguments Comet_accrueAccount {Ext} _.
Arguments Comet_baseTrackingAccrued {Ext} _.
Arguments Comet_hasPermission {Ext} _.
Arguments ERC20_decimals {Ext} _.
Arguments ERC20_transfer {Ext} _.
Arguments tx_ret {Ext A} a.
Arguments revert {Ext A} f.
Arguments tx_bind {Ext A B} m k.
Arguments sload {Ext}.
Arguments sstore {Ext} f.
Arguments emit_log {Ext} l.
Arguments call {Ext A} f.
Arguments staticcall {Ext A} f.
Arguments abi_uint {Ext} bits v.
Arguments checked_mul {Ext} a b.
Arguments checked_div {Ext} a b.
Arguments checked_sub {Ext} a b.
Arguments checked_pow {Ext} a b.
Arguments safe64 {Ext} n.
Arguments doTransferOut {Ext} c tok to amount.
Arguments getRewardAccrued {Ext} c comet account config.
Arguments setRewardConfigWithMultiplier {Ext} c sender comet tok multiplier.
Arguments setRewardConfig {Ext} c sender comet tok.
Arguments withdrawToken {Ext} c sender tok to amount.
Arguments transferGovernor {Ext} sender newGovernor.
Arguments getRewardOwed {Ext} c comet account.
Arguments claimInternal {Ext} c comet src to shouldAccrue.
Arguments claim {Ext} c comet src shouldAccrue.
Arguments claimTo {Ext} c sender comet src to shouldAccrue.

(** ** A small chain, for worked examples *)

(** One Comet instance with the accrual scale [1e6] whose accounts have all
    accrued [tracked] units, and tokens that pay out whatever is asked: token
    6 has 6 decimals, token 30 has 30, any other 18. The chain keeps the
    transfers made. *)
Record Ledger20 : Type := MkLedger20 {
  accrued_units : Z;
  transfers : list (Z * Z * Z)
}.

Definition demoChain : Contracts Ledger20 :=
  MkContracts
    (fun _ w => Some (10 ^ 6, w))
    (fun _ _ w => Some (tt, w))
    (fun _ _ w => Some (accrued_units (others w)))
    (fun _ src sender w => Some (src =? sender, w))
    (fun tok w => Some (if tok =? 6 then 6 else if tok =? 30 then 30 else 18, w))
    (fun tok to amount w =>
       Some (true, MkEVM (storage w)
                         (MkLedger20 (accrued_units (others w))
                                     ((tok, to, amount) :: transfers (others w)))
                         (logs w))).

(** The chain once the contract is constructed with the governor 1. *)
Definition genesis : EVM Ledger20 := MkEVM (constructor 1) (MkLedger20 5 []) [].

Section RewardsReading.
Context {Ext : Type} (c : Contracts Ext).

(** The Comet instances and the tokens do not call back into the rewards
    contract: [accrueAccount] and [transfer] leave its storage and its events
    as they were. *)
Definition no_callback : Prop :=
  (forall comet account w w',
     Comet_accrueAccount c comet account w = Some (tt, w') ->
     storage w' = storage w /\ logs w' = logs w) /\
  (forall tok to amount w b w',
     ERC20_transfer c tok to amount w = Some (b, w') ->
     storage w' = storage w /\ logs w' = logs w).

(** The state in which a claim reads what the account accrued: after the
    accrual when it is asked for and returns. *)
Definition accrued_in (comet src : Z) (shouldAccrue : bool) (w : EVM Ext) : EVM Ext :=
  if shouldAccrue then
    match Comet_accrueAccount c comet src w with
    | Some (_, w1) => w1
    | None => w
    end
  else w.

(** The reward accrued under a configuration for [raw] units of tracking. *)
Definition rescaled (config : RewardConfig) (raw : Z) : Z :=
  if shouldUpscale config then raw * rescaleFactor config
  else raw / rescaleFactor config.

(** The state in which [claimInternal] asks the token for the transfer. *)
Definition recorded (comet src accrued : Z) (w : EVM Ext) : EVM Ext :=
  MkEVM (set_rewardsClaimed comet src accrued (storage w)) (others w) (logs w).

(** The state once the transfer returned and the claim is logged. *)
Definition logged (l : Log) (w : EVM Ext) : EVM Ext :=
  MkEVM (storage w) (others w) (logs w ++ [l]).
End RewardsReading.

(** The chain once the governor has set token 18 as the reward of the Comet
    instance 100: the scale of the token is [1e18], so the tracking accrued is
    multiplied by [1e12]. *)
Definition configured : EVM Ledger20 :=
  MkEVM (set_rewardConfig 100 (MkRewardConfig 18 (10 ^ 12) true) (constructor 1))
        (MkLedger20 5 []) [].

(** The chain once the account 7 has claimed its rewards. *)
Definition claimed7 : EVM Ledger20 :=
  MkEVM (set_rewardsClaimed 100 7 (5 * 10 ^ 12) (storage configured))
        (MkLedger20 5 [(18, 7, 5 * 10 ^ 12)])
        [RewardClaimed 7 7 18 (5 * 10 ^ 12)].
(** * Properties of the migration constraints *)

Section MigrationFacts.
Context {World Artifact : Type} (h : Harness World).

Abbreviation Unit := (Migration World Artifact).
Abbreviation Ctx := (@Context World Artifact).

(** One unit of the walk, case by case on how its actions settle. *)
Lemma runMigration_cases (m : Unit) (ctx : Ctx) :
  let w0 := world ctx in
  let p := prepare (actions m) w0 in
  match fst p with
  | Rejected e =>
      runMigration m ctx = MkRun (Rejected e) (set_world (snd p) ctx) [CPrepare (name m) None]
  | Resolved a =>
      let c := isEnacted (actions m) (snd p) in
      match fst c with
      | Rejected e =>
          runMigration m ctx =
          MkRun (Rejected e) (set_world (snd c) (set_world (snd p) ctx))
                [CPrepare (name m) (Some a); CIsEnacted (name m) None]
      | Resolved true =>
          runMigration m ctx =
          MkRun (Resolved tt) (set_world (snd c) (set_world (snd p) ctx))
                [CPrepare (name m) (Some a); CIsEnacted (name m) (Some true)]
      | Resolved false =>
          let e := enact (actions m) a (snd c) in
          runMigration m ctx =
          MkRun (fst e) (set_world (snd e) (set_world (snd c) (set_world (snd p) ctx)))
                [CPrepare (name m) (Some a); CIsEnacted (name m) (Some false);
                 CEnact (name m) a]
      end
  end.
Proof.
  unfold runMigration, bind, on_world, ret; simpl.
  destruct (prepare (actions m) (world ctx)) as [[a|e] w1]; simpl; [|reflexivity].
  destruct (isEnacted (actions m) w1) as [[[|]|e] w2]; simpl; try reflexivity.
Qed.

Lemma for_of_cons {Ev S A} (x : A) (l : list A) (body : A -> Async Ev S unit) (s : S) :
  for_of (x :: l) body s =
  match res (body x s) with
  | Resolved _ =>
      MkRun (res (for_of l body (final (body x s))))
            (final (for_of l body (final (body x s))))
            (emitted (body x s) ++ emitted (for_of l body (final (body x s))))
  | Rejected e => MkRun (Rejected e) (final (body x s)) (emitted (body x s))
  end.
Proof. reflexivity. Qed.

Lemma walk_pass_trace (l : list Unit) (ctx : Ctx) :
  pass_trace (emitted (for_of l runMigration ctx)).
Proof.
  revert ctx; induction l as [|m l IH]; intros ctx; [constructor|].
  rewrite for_of_cons.
  pose proof (runMigration_cases m ctx) as Hc; simpl in Hc.
  destruct (prepare (actions m) (world ctx)) as [[a|e] w1]; simpl in Hc.
  2:{ rewrite Hc; simpl. constructor. }
  destruct (isEnacted (actions m) w1) as [[[|]|e] w2]; simpl in Hc.
  - rewrite Hc; simpl. constructor. apply IH.
  - destruct (enact (actions m) a w2) as [[[]|e] w3]; rewrite Hc; simpl.
    + constructor. apply IH.
    + apply (pass_enact _ _ []). constructor.
  - rewrite Hc; simpl. constructor.
Qed.

Lemma migrationSolution_unfold (l : list Unit) (ctx : Ctx) :
  migrationSolution h l ctx =
  match walk_start h l ctx with
  | inl (e, ctx') => MkRun (Rejected e) ctx' []
  | inr ctx0 =>
      let r := for_of (Array_sort (compareNames h) l) runMigration ctx0 in
      match res r with
      | Resolved _ =>
          MkRun (Resolved tt) (set_world (signers_shift h (world (final r))) (final r))
                (emitted r)
      | Rejected e => MkRun (Rejected e) (final r) (emitted r)
      end
  end.
Proof.
  unfold migrationSolution, walk_start, bind, on_world, modify, ret; simpl.
  destruct (getCompWhales h (world ctx)) as [[whales|e] w1]; simpl; [|reflexivity].
  destruct (impersonateAddress h (head whales) w1) as [[proposer|e] w2]; simpl; [|reflexivity].
  unfold set_migrations, set_world; simpl.
  destruct (for_of _ runMigration _) as [[[]|e] c t]; simpl; rewrite ?app_nil_r; reflexivity.
Qed.

Lemma migrationSolution_pass_trace (l : list Unit) (ctx : Ctx) :
  pass_trace (emitted (migrationSolution h l ctx)).
Proof.
  rewrite migrationSolution_unfold.
  destruct (walk_start h l ctx) as [[e c]|c0]; simpl; [constructor|].
  pose proof (walk_pass_trace (Array_sort (compareNames h) l) c0) as Hp.
  destruct (for_of _ runMigration c0) as [[[]|e] c t]; exact Hp.
Qed.
End MigrationFacts.

Section TraceFacts.
Context {Artifact : Type}.
Implicit Types t : list (Call Artifact).

Lemma pass_trace_head t :
  pass_trace t -> t = [] \/ exists n r t', t = CPrepare n r :: t'.
Proof. destruct 1; eauto. Qed.

(** In a walk, [enact] is only ever called right after the unit was prepared
    and the check said "not enacted", on the artifact just prepared. *)
Lemma pass_trace_enact_guarded t :
  pass_trace t ->
  forall t1 n a t2, t = t1 ++ CEnact n a :: t2 ->
  exists t0, t1 = t0 ++ [CPrepare n (Some a); CIsEnacted n (Some false)].
Proof.
  induction 1 as [|n0|n0 a0|n0 a0 t Ht IH|n0 a0 t Ht IH]; intros t1 n a t2 E.
  - destruct t1; discriminate.
  - destruct t1 as [|? [|? ?]]; discriminate.
  - destruct t1 as [|? [|? [|? ?]]]; discriminate.
  - destruct t1 as [|c1 [|c2 t1]]; try discriminate.
    simplify_eq/=. destruct (IH _ _ _ _ eq_refl) as [t0 ->].
    exists (CPrepare n0 (Some a0) :: CIsEnacted n0 (Some true) :: t0). reflexivity.
  - destruct t1 as [|c1 [|c2 [|c3 t1]]]; try discriminate; simplify_eq/=.
    + exists []. reflexivity.
    + destruct (IH _ _ _ _ eq_refl) as [t0 ->].
      exists (CPrepare n0 (Some a0) :: CIsEnacted n0 (Some false) :: CEnact n0 a0 :: t0).
      reflexivity.
Qed.

(** After a check that said "enacted", the walk goes on to the next unit (or
    ends): no [enact] follows. *)
Lemma pass_trace_skip_next t :
  pass_trace t ->
  forall t1 n t2, t = t1 ++ CIsEnacted n (Some true) :: t2 ->
  t2 = [] \/ exists n' r t3, t2 = CPrepare n' r :: t3.
Proof.
  induction 1 as [|n0|n0 a0|n0 a0 t Ht IH|n0 a0 t Ht IH]; intros t1 n t2 E.
  - destruct t1; discriminate.
  - destruct t1 as [|? [|? ?]]; discriminate.
  - destruct t1 as [|? [|? [|? ?]]]; discriminate.
  - destruct t1 as [|c1 [|c2 t1]]; try discriminate; simplify_eq/=.
    + apply pass_trace_head, Ht.
    + eapply IH; reflexivity.
  - destruct t1 as [|c1 [|c2 [|c3 t1]]]; try discriminate; simplify_eq/=.
    eapply IH; reflexivity.
Qed.

(** After a check that said "not enacted", [enact] is the next call. *)
Lemma pass_trace_enact_next t :
  pass_trace t ->
  forall t1 n t2, t = t1 ++ CIsEnacted n (Some false) :: t2 ->
  exists a t3, t2 = CEnact n a :: t3.
Proof.
  induction 1 as [|n0|n0 a0|n0 a0 t Ht IH|n0 a0 t Ht IH]; intros t1 n t2 E.
  - destruct t1; discriminate.
  - destruct t1 as [|? [|? ?]]; discriminate.
  - destruct t1 as [|? [|? [|? ?]]]; discriminate.
  - destruct t1 as [|c1 [|c2 t1]]; try discriminate; simplify_eq/=.
    eapply IH; reflexivity.
  - destruct t1 as [|c1 [|c2 [|c3 t1]]]; try discriminate; simplify_eq/=.
    + eauto.
    + eapply IH; reflexivity.
Qed.
End TraceFacts.

Section SortFacts.
Context {T : Type} (compareFn : T -> T -> Z).

Lemma sort_insert_perm (x : T) (l : list T) :
  Permutation (sort_insert compareFn x l) (x :: l).
Proof.
  induction l as [|y l IH]; simpl; [reflexivity|].
  destruct (compareFn x y <=? 0); [reflexivity|].
  rewrite IH. apply perm_swap.
Qed.

Lemma Array_sort_perm (l : list T) : Permutation (Array_sort compareFn l) l.
Proof.
  induction l as [|x l IH]; simpl; [reflexivity|].
  rewrite sort_insert_perm, IH. reflexivity.
Qed.

Lemma Array_sort_In (l : list T) (x : T) : In x (Array_sort compareFn l) <-> In x l.
Proof.
  split; apply Permutation_in; [|symmetry]; apply Array_sort_perm.
Qed.
End SortFacts.

Section AtMostOnce.
Context {World Artifact : Type} (h : Harness World).

Abbreviation Unit := (Migration World Artifact).
Abbreviation Ctx := (@Context World Artifact).

Lemma count_enact_app (n : string) (t1 t2 : list (Call Artifact)) :
  count_enact n (t1 ++ t2) = (count_enact n t1 + count_enact n t2)%nat.
Proof. unfold count_enact. rewrite List.filter_app, length_app. reflexivity. Qed.

Lemma count_verify_app (n : string) (t1 t2 : list (Call Artifact)) :
  count_verify n (t1 ++ t2) = (count_verify n t1 + count_verify n t2)%nat.
Proof. unfold count_verify. rewrite List.filter_app, length_app. reflexivity. Qed.

Variables (l : list Unit) (m : Unit) (p : Action World bool).
Hypothesis m_enacted : enacted (actions m) = Some p.
Hypothesis names_identify : forall u, In u l -> name u = name m -> u = m.
Hypothesis enact_sets_enacted :
  forall a w, fst (enact (actions m) a w) = Resolved tt ->
              enacted_true p (snd (enact (actions m) a w)).
Hypothesis enacted_stays : stable h (enacted_true p) l.

Lemma isEnacted_m (w : World) : isEnacted (actions m) w = p w.
Proof. unfold isEnacted. rewrite m_enacted. reflexivity. Qed.

Lemma walk_at_most_once (ls : list Unit) :
  (forall u, In u ls -> In u l) ->
  forall ctx : Ctx,
  let r := for_of ls runMigration ctx in
  (enacted_true p (world ctx) ->
   count_enact (name m) (emitted r) = 0%nat /\ enacted_true p (world (final r))) /\
  (count_enact (name m) (emitted r) <= 1)%nat /\
  (res r = Resolved tt -> In m ls -> enacted_true p (world (final r))).
Proof.
  destruct enacted_stays as (_ & _ & _ & _ & Hunits).
  induction ls as [|u ls IH]; intros Hin ctx; simpl.
  { split; [auto|]. split; [auto|]. intros _ []. }
  assert (Hls : forall u0, In u0 ls -> In u0 l) by (intros; apply Hin; right; assumption).
  specialize (IH Hls).
  destruct (Hunits u (Hin u (or_introl eq_refl))) as (Hprep & Henact & Hcheck).
  pose proof (runMigration_cases u ctx) as Hc; simpl in Hc.
  fold (for_of ls (@runMigration World Artifact)).
  change (bind (runMigration u) (fun _ => for_of ls runMigration) ctx)
    with (for_of (u :: ls) runMigration ctx).
  rewrite for_of_cons.
  pose proof (Hprep (world ctx)) as Hp1.
  destruct (prepare (actions u) (world ctx)) as [[a|e] w1]; simpl in Hc, Hp1.
  2:{ rewrite Hc; simpl. split; [intros Hi; split; [reflexivity|auto]|].
      split; [unfold count_enact; simpl; lia|discriminate]. }
  pose proof (Hcheck w1) as Hp2.
  destruct (isEnacted (actions u) w1) as [[[|]|e] w2] eqn:Echeck; simpl in Hc, Hp2.
  - (* the check says enacted: the unit is skipped *)
    rewrite Hc; simpl.
    destruct (IH (MkContext w2 (migrations ctx))) as (IH1 & IH2 & IH3).
    unfold set_world in *; simpl in *.
    split; [intros Hi; apply IH1; auto|]. split; [exact IH2|].
    intros Hres [->|Hm]; [|auto].
    apply IH1, Hp2. unfold enacted_true. rewrite <- isEnacted_m, Echeck. reflexivity.
  - (* the check says not enacted: enact is called *)
    pose proof (Henact a w2) as Hp3.
    pose proof (enact_sets_enacted a w2) as Hset.
    destruct (String.eqb_spec (name m) (name u)) as [En|En].
    + (* this unit is m *)
      assert (u = m) by (apply names_identify; [apply Hin; left; reflexivity|congruence]).
      subst u.
      assert (Hnot : ~ enacted_true p w1).
      { unfold enacted_true. rewrite <- isEnacted_m, Echeck. simpl. discriminate. }
      destruct (enact (actions m) a w2) as [[[]|e] w3]; rewrite Hc; simpl in *.
      * destruct (IH (MkContext w3 (migrations ctx))) as (IH1 & IH2 & IH3).
        unfold set_world in *; simpl in *.
        destruct (IH1 (Hset eq_refl)) as [Hz Hfin].
        split; [intros Hi; exfalso; auto|].
        change (?a :: ?b :: ?c :: ?t) with ([a; b; c] ++ t).
        rewrite count_enact_app, Hz. unfold count_enact at 1; simpl.
        rewrite String.eqb_refl; simpl. split; [lia|auto].
      * split; [intros Hi; exfalso; auto|].
        unfold count_enact; simpl. rewrite String.eqb_refl; simpl.
        split; [lia|discriminate].
    + (* another unit *)
      assert (Hne : is_enact (name m) (CEnact (name u) a) = false).
      { simpl. apply String.eqb_neq. exact En. }
      destruct (enact (actions u) a w2) as [[[]|e] w3]; rewrite Hc; simpl in *.
      * destruct (IH (MkContext w3 (migrations ctx))) as (IH1 & IH2 & IH3).
        unfold set_world in *; simpl in *.
        change (?a :: ?b :: ?c :: ?t) with ([a; b; c] ++ t).
        rewrite count_enact_app. unfold count_enact at 1 3; simpl. 
        apply String.eqb_neq in En. rewrite En; simpl.
        fold (count_enact (name m)
                (emitted (for_of ls runMigration (MkContext w3 (migrations ctx))))).
        split; [intros Hi; apply IH1; auto|]. split; [exact IH2|].
        intros Hres [Hu|Hm]; [|auto]. subst u. apply String.eqb_neq in En. congruence.
      * unfold count_enact; simpl. apply String.eqb_neq in En. rewrite En; simpl.
        split; [intros Hi; split; [reflexivity|auto]|]. split; [lia|discriminate].
  - rewrite Hc; simpl. unfold set_world; simpl.
    split; [intros Hi; split; [reflexivity|auto]|].
    split; [unfold count_enact; simpl; lia|discriminate].
Qed.

(** C2. A migration Solution checks [enacted()] before [enact]: every [enact]
    call comes right after the unit's [prepare] and a check that said "not
    enacted", and a check that said "enacted" is followed by the next unit's
    [prepare] or by nothing. For a unit [m] of the list whose [enacted()] is
    true after a successful [enact] and stays true: a pass that resolves calls
    [enact] of [m] at most once, and a second pass over the state it leaves
    calls it zero times. *)
Theorem enact_at_most_once (ctx : Ctx) :
  In m l ->
  let first := migrationSolution h l ctx in
  let second := migrationSolution h l (final first) in
  (forall t1 n a t2, emitted first = t1 ++ CEnact n a :: t2 ->
     exists t0, t1 = t0 ++ [CPrepare n (Some a); CIsEnacted n (Some false)]) /\
  (forall t1 n t2, emitted first = t1 ++ CIsEnacted n (Some true) :: t2 ->
     t2 = [] \/ exists n' r t3, t2 = CPrepare n' r :: t3) /\
  (res first = Resolved tt ->
     (count_enact (name m) (emitted first) <= 1)%nat /\
     enacted_true p (world (final first)) /\
     count_enact (name m) (emitted second) = 0%nat).
Proof.
  intros Hm first second.
  pose proof (migrationSolution_pass_trace h l ctx) as Hpt.
  split; [apply pass_trace_enact_guarded, Hpt|].
  split; [apply pass_trace_skip_next, Hpt|].
  intros Hres.
  assert (Hsorted : forall u, In u (Array_sort (compareNames h) l) -> In u l)
    by (intros u; apply Array_sort_In).
  destruct enacted_stays as (Hg & Hi & Hun & Hsh & _).
  (* the first pass *)
  assert (H1 : (count_enact (name m) (emitted first) <= 1)%nat /\
               enacted_true p (world (final first))).
  { subst first. revert Hres. rewrite migrationSolution_unfold.
    destruct (walk_start h l ctx) as [[e c]|c0]; simpl; [discriminate|].
    destruct (walk_at_most_once _ Hsorted c0) as (_ & Hle & Hfin).
    destruct (for_of _ runMigration c0) as [[[]|e] c t]; simpl in *; [|discriminate].
    intros _. split; [exact Hle|]. apply Hsh, Hfin; [reflexivity|].
    apply Array_sort_In, Hm. }
  destruct H1 as [Hle Hfin]. split; [exact Hle|]. split; [exact Hfin|].
  (* the second pass starts where enacted() is true *)
  subst second. rewrite migrationSolution_unfold.
  unfold walk_start.
  pose proof (Hg (world (final first)) Hfin) as Hg1.
  destruct (getCompWhales h (world (final first))) as [[whales|e] w1]; simpl in *;
    [|reflexivity].
  pose proof (Hi (head whales) w1 Hg1) as Hi1.
  destruct (impersonateAddress h (head whales) w1) as [[proposer|e] w2]; simpl in *;
    [|reflexivity].
  pose proof (Hun proposer w2 Hi1) as Hu1.
  destruct (walk_at_most_once _ Hsorted
              (MkContext (signers_unshift h proposer w2)
                         (Some (Array_sort (compareNames h) l)))) as (Hz & _ & _).
  destruct (Hz Hu1) as [Hz0 _].
  destruct (for_of _ runMigration _) as [[[]|e] c t]; simpl in *; exact Hz0.
Qed.
End AtMostOnce.

Section VerifyFacts.
Context {World Artifact : Type} (h : Harness World).

Abbreviation Unit := (Migration World Artifact).
Abbreviation Ctx := (@Context World Artifact).

(** One unit of the verification walk, case by case. *)
Lemma verifyMigration_cases (m : Unit) (ctx : Ctx) :
  match verify (actions m) with
  | None => verifyMigration m ctx = MkRun (Resolved tt) ctx []
  | Some verify_fn =>
      let c := isEnacted (actions m) (world ctx) in
      match fst c with
      | Rejected e =>
          verifyMigration m ctx =
          MkRun (Rejected e) (set_world (snd c) ctx) [CIsEnacted (name m) None]
      | Resolved true =>
          verifyMigration m ctx =
          MkRun (Resolved tt) (set_world (snd c) ctx) [CIsEnacted (name m) (Some true)]
      | Resolved false =>
          let v := verify_fn (snd c) in
          verifyMigration m ctx =
          MkRun (fst v) (set_world (snd v) (set_world (snd c) ctx))
                [CIsEnacted (name m) (Some false); CVerify (name m)]
      end
  end.
Proof.
  unfold verifyMigration, bind, on_world, ret.
  destruct (verify (actions m)) as [v|]; [|reflexivity]; simpl.
  destruct (isEnacted (actions m) (world ctx)) as [[[|]|e] w1]; simpl; reflexivity.
Qed.

Lemma walk_verify_trace (l : list Unit) (ctx : Ctx) :
  verify_trace (emitted (for_of l verifyMigration ctx)).
Proof.
  revert ctx; induction l as [|m l IH]; intros ctx; [constructor|].
  rewrite for_of_cons.
  pose proof (verifyMigration_cases m ctx) as Hc.
  destruct (verify (actions m)) as [v|]; [|rewrite Hc; simpl; apply IH].
  simpl in Hc.
  destruct (isEnacted (actions m) (world ctx)) as [[[|]|e] w1]; simpl in Hc.
  - rewrite Hc; simpl. constructor. apply IH.
  - destruct (v w1) as [[[]|e] w2]; rewrite Hc; simpl.
    + constructor. apply IH.
    + apply (verify_call _ []). constructor.
  - rewrite Hc; simpl. constructor.
Qed.

Lemma verifySolution_trace (ctx : Ctx) : verify_trace (emitted (verifySolution ctx)).
Proof.
  unfold verifySolution, bind, get; simpl.
  destruct (migrations ctx) as [recorded|]; simpl; [|constructor].
  pose proof (walk_verify_trace recorded ctx) as Hv.
  destruct (for_of recorded verifyMigration ctx) as [r c t]; exact Hv.
Qed.

Lemma verify_trace_head (t : list (Call Artifact)) :
  verify_trace t -> t = [] \/ exists n r t', t = CIsEnacted n r :: t'.
Proof. destruct 1; eauto. Qed.

Lemma verify_trace_guarded (t : list (Call Artifact)) :
  verify_trace t ->
  forall t1 n t2, t = t1 ++ CVerify n :: t2 ->
  exists t0, t1 = t0 ++ [CIsEnacted n (Some false)].
Proof.
  induction 1 as [|n0|n0 t Ht IH|n0 t Ht IH]; intros t1 n t2 E.
  - destruct t1; discriminate.
  - destruct t1 as [|? [|? ?]]; discriminate.
  - destruct t1 as [|c1 t1]; try discriminate; simplify_eq/=.
    destruct (IH _ _ _ eq_refl) as [t0 ->].
    exists (CIsEnacted n0 (Some true) :: t0). reflexivity.
  - destruct t1 as [|c1 [|c2 t1]]; try discriminate; simplify_eq/=.
    + exists []. reflexivity.
    + destruct (IH _ _ _ eq_refl) as [t0 ->].
      exists (CIsEnacted n0 (Some false) :: CVerify n0 :: t0). reflexivity.
Qed.

Lemma verify_trace_next (t : list (Call Artifact)) :
  verify_trace t ->
  forall t1 n t2, t = t1 ++ CIsEnacted n (Some false) :: t2 ->
  exists t3, t2 = CVerify n :: t3.
Proof.
  induction 1 as [|n0|n0 t Ht IH|n0 t Ht IH]; intros t1 n t2 E.
  - destruct t1; discriminate.
  - destruct t1 as [|? [|? ?]]; discriminate.
  - destruct t1 as [|c1 t1]; try discriminate; simplify_eq/=.
    eapply IH; reflexivity.
  - destruct t1 as [|c1 [|c2 t1]]; try discriminate; simplify_eq/=.
    + eauto.
    + eapply IH; reflexivity.
Qed.

Lemma verify_trace_skip (t : list (Call Artifact)) :
  verify_trace t ->
  forall t1 n t2, t = t1 ++ CIsEnacted n (Some true) :: t2 ->
  t2 = [] \/ exists n' r t3, t2 = CIsEnacted n' r :: t3.
Proof.
  induction 1 as [|n0|n0 t Ht IH|n0 t Ht IH]; intros t1 n t2 E.
  - destruct t1; discriminate.
  - destruct t1 as [|? [|? ?]]; discriminate.
  - destruct t1 as [|c1 t1]; try discriminate; simplify_eq/=.
    + apply verify_trace_head, Ht.
    + eapply IH; reflexivity.
  - destruct t1 as [|c1 [|c2 t1]]; try discriminate; simplify_eq/=.
    eapply IH; reflexivity.
Qed.

(** The walk of a migration Solution leaves the recorded list alone. *)
Lemma walk_keeps_migrations (l : list Unit) (ctx : Ctx) :
  migrations (final (for_of l runMigration ctx)) = migrations ctx.
Proof.
  revert ctx; induction l as [|m l IH]; intros ctx; [reflexivity|].
  rewrite for_of_cons.
  pose proof (runMigration_cases m ctx) as Hc; simpl in Hc.
  destruct (prepare (actions m) (world ctx)) as [[a|e] w1]; simpl in Hc.
  2:{ rewrite Hc; reflexivity. }
  destruct (isEnacted (actions m) w1) as [[[|]|e] w2]; simpl in Hc.
  - rewrite Hc; simpl. rewrite IH. reflexivity.
  - destruct (enact (actions m) a w2) as [[[]|e] w3]; rewrite Hc; simpl.
    + rewrite IH. reflexivity.
    + reflexivity.
  - rewrite Hc; reflexivity.
Qed.

Lemma migrationSolution_records (l : list Unit) (ctx : Ctx) :
  res (migrationSolution h l ctx) = Resolved tt ->
  migrations (final (migrationSolution h l ctx)) = Some (Array_sort (compareNames h) l).
Proof.
  rewrite migrationSolution_unfold.
  destruct (walk_start h l ctx) as [[e c]|c0] eqn:Ews; simpl; [discriminate|].
  pose proof (walk_keeps_migrations (Array_sort (compareNames h) l) c0) as Hk.
  destruct (for_of _ runMigration c0) as [[[]|e] c t]; simpl in *; [|discriminate].
  intros _. rewrite Hk. revert Ews. unfold walk_start.
  destruct (fst (getCompWhales h (world ctx))); [|discriminate].
  destruct (fst (impersonateAddress h _ _)); [|discriminate].
  intros [= <-]. reflexivity.
Qed.

(** The verification Solution as the code has it. It walks the list recorded
    on the context and calls [verify] exactly on the units that define
    [verify] and for which [isEnacted] says "not enacted" at the time of the
    check, which comes after the migration Solution has run: every
    [verify] call comes right after such a check, every such check is followed
    by the [verify] call, and a check that says "enacted" is followed by the
    next unit's check or by nothing. The list it walks is the sorted list that
    the migration Solution recorded. *)
Theorem verify_only_when_not_enacted_at_check (ctx : Ctx) (m : Unit)
    (l : list Unit) :
  let r := verifySolution ctx in
  let first := migrationSolution h l ctx in
  (forall t1 n t2, emitted r = t1 ++ CVerify n :: t2 ->
     exists t0, t1 = t0 ++ [CIsEnacted n (Some false)]) /\
  (forall t1 n t2, emitted r = t1 ++ CIsEnacted n (Some false) :: t2 ->
     exists t3, t2 = CVerify n :: t3) /\
  (forall t1 n t2, emitted r = t1 ++ CIsEnacted n (Some true) :: t2 ->
     t2 = [] \/ exists n' r' t3, t2 = CIsEnacted n' r' :: t3) /\
  (In (CVerify (name m)) (emitted (verifyMigration m ctx)) <->
     is_Some (verify (actions m)) /\
     fst (isEnacted (actions m) (world ctx)) = Resolved false) /\
  (res first = Resolved tt ->
     migrations (final first) = Some (Array_sort (compareNames h) l) /\
     verifySolution (final first) =
     for_of (Array_sort (compareNames h) l) verifyMigration (final first)).
Proof.
  intros r first.
  pose proof (verifySolution_trace ctx) as Hv.
  split; [apply verify_trace_guarded, Hv|].
  split; [apply verify_trace_next, Hv|].
  split; [apply verify_trace_skip, Hv|].
  split.
  - pose proof (verifyMigration_cases m ctx) as Hc.
    destruct (verify (actions m)) as [v|].
    + simpl in Hc.
      destruct (isEnacted (actions m) (world ctx)) as [[[|]|e] w1]; simpl in *;
        rewrite Hc; simpl; split.
      * intros [|[]]; discriminate.
      * intros [_ ?]; discriminate.
      * intros _. split; [eexists; reflexivity|reflexivity].
      * intros _. right; left; reflexivity.
      * intros [|[]]; discriminate.
      * intros [_ ?]; discriminate.
    + rewrite Hc; simpl. split; [intros []|intros [[? ?] _]; discriminate].
  - intros Hres. pose proof (migrationSolution_records l ctx Hres) as Hrec.
    fold first in Hrec. split; [exact Hrec|].
    clearbody first. unfold verifySolution, bind, get; cbn [res final emitted].
    rewrite Hrec; cbn [app].
    destruct (for_of _ verifyMigration (final first)) as [r0 c t]; reflexivity.
Qed.
End VerifyFacts.

Section NoEnactedPredicate.
Context {World Artifact : Type} (h : Harness World).

Abbreviation Unit := (Migration World Artifact).
Abbreviation Ctx := (@Context World Artifact).

Variables (l : list Unit) (m : Unit).
Hypothesis m_no_predicate : enacted (actions m) = None.
Hypothesis names_identify : forall u, In u l -> name u = name m -> u = m.

Lemma isEnacted_none (w : World) : isEnacted (actions m) w = (Resolved false, w).
Proof. unfold isEnacted. rewrite m_no_predicate. reflexivity. Qed.

Lemma never_enacted_other (c : Call Artifact) :
  (forall r0, c <> CIsEnacted (name m) r0) ->
  forall r0, c = CIsEnacted (name m) r0 -> r0 = Some false.
Proof. intros Hne r0 E. destruct (Hne r0 E). Qed.

Lemma walk_unguarded (ls : list Unit) :
  (forall u, In u ls -> In u l) ->
  forall ctx : Ctx,
  let r := for_of ls runMigration ctx in
  never_enacted (name m) (emitted r) /\
  (res r = Resolved tt -> In m ls -> (1 <= count_enact (name m) (emitted r))%nat).
Proof.
  induction ls as [|u ls IH]; intros Hin ctx.
  { split; [constructor|intros _ []]. }
  assert (Hls : forall u0, In u0 ls -> In u0 l) by (intros; apply Hin; right; assumption).
  specialize (IH Hls). cbv zeta. rewrite for_of_cons.
  pose proof (runMigration_cases u ctx) as Hc; simpl in Hc.
  assert (Hu : forall b w w', isEnacted (actions u) w = (Resolved b, w') ->
               name u = name m -> b = false).
  { intros b w w' E En.
    rewrite (names_identify u (Hin u (or_introl eq_refl)) En), isEnacted_none in E.
    congruence. }
  destruct (prepare (actions u) (world ctx)) as [[a|e] w1]; simpl in Hc.
  2:{ rewrite Hc; simpl. split; [|discriminate].
      repeat constructor. intros; discriminate. }
  destruct (isEnacted (actions u) w1) as [[b|e] w2] eqn:Echeck; simpl in Hc.
  2:{ rewrite Hc; simpl. split; [|discriminate].
      repeat constructor; try (intros; discriminate).
      intros r0 [= En _]. exfalso.
      rewrite (names_identify u (Hin u (or_introl eq_refl)) En), isEnacted_none in Echeck.
      discriminate. }
  assert (Hchk : forall r0, @CIsEnacted Artifact (name u) (Some b) = CIsEnacted (name m) r0 ->
                 r0 = Some false).
  { intros r0 [= En <-]. rewrite (Hu _ _ _ Echeck En). reflexivity. }
  destruct b.
  - rewrite Hc; simpl.
    destruct (IH (set_world w2 (set_world w1 ctx))) as [IH1 IH2].
    split.
    + constructor; [intros; discriminate|]. constructor; [exact Hchk|exact IH1].
    + intros Hres [->|Hm]; [|].
      * specialize (Hu _ _ _ Echeck eq_refl). discriminate.
      * change (?a :: ?b :: ?t) with ([a; b] ++ t).
        rewrite count_enact_app. specialize (IH2 Hres Hm). simpl in *. lia.
  - destruct (enact (actions u) a w2) as [[[]|e] w3]; rewrite Hc; simpl.
    + destruct (IH (set_world w3 (set_world w2 (set_world w1 ctx)))) as [IH1 IH2].
      split.
      * constructor; [intros; discriminate|]. constructor; [exact Hchk|].
        constructor; [intros; discriminate|exact IH1].
      * intros Hres [->|Hm].
        -- unfold count_enact; simpl. rewrite String.eqb_refl; simpl. lia.
        -- change (?a :: ?b :: ?c :: ?t) with ([a; b; c] ++ t).
           rewrite count_enact_app. specialize (IH2 Hres Hm). simpl in *. lia.
    + split; [|discriminate].
      constructor; [intros; discriminate|]. constructor; [exact Hchk|].
      constructor; [intros; discriminate|constructor].
Qed.

Lemma walk_verify_unguarded (ls : list Unit) :
  (forall u, In u ls -> In u l) ->
  forall ctx : Ctx,
  let r := for_of ls verifyMigration ctx in
  never_enacted (name m) (emitted r) /\
  (is_Some (verify (actions m)) -> res r = Resolved tt -> In m ls ->
   (1 <= count_verify (name m) (emitted r))%nat).
Proof.
  induction ls as [|u ls IH]; intros Hin ctx.
  { split; [constructor|intros _ _ []]. }
  assert (Hls : forall u0, In u0 ls -> In u0 l) by (intros; apply Hin; right; assumption).
  specialize (IH Hls). cbv zeta. rewrite for_of_cons.
  pose proof (verifyMigration_cases u ctx) as Hc.
  destruct (verify (actions u)) as [v|] eqn:Ev.
  2:{ rewrite Hc; simpl. destruct (IH ctx) as [IH1 IH2]. split; [exact IH1|].
      intros [v Hv] Hres [->|Hm]; [congruence|]. apply IH2; eauto. }
  simpl in Hc.
  destruct (isEnacted (actions u) (world ctx)) as [[b|e] w1] eqn:Echeck; simpl in Hc.
  2:{ rewrite Hc; simpl. split; [|discriminate].
      repeat constructor. intros r0 [= En _]. exfalso.
      rewrite (names_identify u (Hin u (or_introl eq_refl)) En), isEnacted_none in Echeck.
      discriminate. }
  assert (Hchk : forall r0, @CIsEnacted Artifact (name u) (Some b) = CIsEnacted (name m) r0 ->
                 r0 = Some false).
  { intros r0 [= En <-].
    rewrite (names_identify u (Hin u (or_introl eq_refl)) En), isEnacted_none in Echeck.
    congruence. }
  destruct b.
  - rewrite Hc; simpl. destruct (IH (set_world w1 ctx)) as [IH1 IH2]. split.
    + constructor; [exact Hchk|exact IH1].
    + intros Hv Hres [->|Hm].
      * rewrite isEnacted_none in Echeck. discriminate.
      * change (?a :: ?t) with ([a] ++ t).
        rewrite count_verify_app. specialize (IH2 Hv Hres Hm). simpl in *. lia.
  - destruct (v w1) as [[[]|e] w2]; rewrite Hc; simpl.
    + destruct (IH (set_world w2 (set_world w1 ctx))) as [IH1 IH2]. split.
      * constructor; [exact Hchk|]. constructor; [intros; discriminate|exact IH1].
      * intros Hv Hres [->|Hm].
        -- unfold count_verify; simpl. rewrite String.eqb_refl; simpl. lia.
        -- change (?a :: ?b :: ?t) with ([a; b] ++ t).
           rewrite count_verify_app. specialize (IH2 Hv Hres Hm). simpl in *. lia.
    + split; [|discriminate].
      constructor; [exact Hchk|]. constructor; [intros; discriminate|constructor].
Qed.

Lemma migrationSolution_unguarded (ctx : Ctx) :
  In m l ->
  let r := migrationSolution h l ctx in
  never_enacted (name m) (emitted r) /\
  (res r = Resolved tt -> (1 <= count_enact (name m) (emitted r))%nat).
Proof.
  intros Hm. cbv zeta. rewrite migrationSolution_unfold.
  destruct (walk_start h l ctx) as [[e c]|c0]; simpl; [split; [constructor|discriminate]|].
  assert (Hsorted : forall u, In u (Array_sort (compareNames h) l) -> In u l)
    by (intros u; apply Array_sort_In).
  destruct (walk_unguarded _ Hsorted c0) as [H1 H2].
  destruct (for_of _ runMigration c0) as [[[]|e] c t]; simpl in *.
  - split; [exact H1|]. intros _. apply H2; [reflexivity|]. apply Array_sort_In, Hm.
  - split; [exact H1|discriminate].
Qed.

(** C10. A unit [m] that defines no [enacted] predicate is never taken for
    enacted: in a migration Solution every check on it says "not enacted" and
    is followed by the [enact] call on the artifact just prepared; a pass that
    resolves calls its [enact], and so does a second pass over the state the
    first one left (no at-most-once guarantee); and the verification Solution
    run after the pass calls its [verify] when it defines one. *)
Theorem unit_without_enacted_is_always_enacted (ctx : Ctx) :
  In m l ->
  let first := migrationSolution h l ctx in
  let second := migrationSolution h l (final first) in
  let check := verifySolution (final first) in
  (forall t1 r0 t2, emitted first = t1 ++ CIsEnacted (name m) r0 :: t2 ->
     r0 = Some false /\
     exists a t0 t3, t1 = t0 ++ [CPrepare (name m) (Some a)] /\
                     t2 = CEnact (name m) a :: t3) /\
  (res first = Resolved tt -> (1 <= count_enact (name m) (emitted first))%nat) /\
  (res first = Resolved tt -> res second = Resolved tt ->
     (2 <= count_enact (name m) (emitted first ++ emitted second))%nat) /\
  (is_Some (verify (actions m)) -> res first = Resolved tt -> res check = Resolved tt ->
     (1 <= count_verify (name m) (emitted check))%nat).
Proof.
  intros Hm first second check.
  destruct (migrationSolution_unguarded ctx Hm) as [Hnever Hone].
  fold first in Hnever, Hone.
  split.
  { intros t1 r0 t2 E.
    assert (Hr : r0 = Some false).
    { unfold never_enacted in Hnever. rewrite List.Forall_forall in Hnever.
      apply (Hnever (CIsEnacted (name m) r0)); [|reflexivity].
      rewrite E. apply in_elt. }
    split; [exact Hr|]. subst r0.
    pose proof (migrationSolution_pass_trace h l ctx) as Hpt. fold first in Hpt.
    destruct (pass_trace_enact_next _ Hpt _ _ _ E) as (a & t3 & ->).
    replace (t1 ++ CIsEnacted (name m) (Some false) :: CEnact (name m) a :: t3)
      with ((t1 ++ [CIsEnacted (name m) (Some false)]) ++ CEnact (name m) a :: t3) in E
      by (rewrite <- app_assoc; reflexivity).
    destruct (pass_trace_enact_guarded _ Hpt _ _ _ _ E) as [t0 E0].
    exists a, t0, t3. split; [|reflexivity].
    change [CPrepare (name m) (Some a); CIsEnacted (name m) (Some false)]
      with ([CPrepare (name m) (Some a)] ++ [CIsEnacted (name m) (Some false)]) in E0.
    rewrite app_assoc in E0. apply app_inj_tail in E0. apply E0. }
  split; [exact Hone|].
  split.
  { intros H1 H2. rewrite count_enact_app.
    destruct (migrationSolution_unguarded (final first) Hm) as [_ Htwo].
    specialize (Hone H1). specialize (Htwo H2). fold second in Htwo. lia. }
  intros Hv H1 H2.
  pose proof (migrationSolution_records h l ctx H1) as Hrec. fold first in Hrec.
  subst check. revert H2. unfold verifySolution, bind, get; cbn [res final emitted].
  clearbody first. rewrite Hrec; cbn [app].
  assert (Hsorted : forall u, In u (Array_sort (compareNames h) l) -> In u l)
    by (intros u; apply Array_sort_In).
  destruct (walk_verify_unguarded _ Hsorted (final first)) as [_ Hver].
  destruct (for_of _ verifyMigration (final first)) as [r0 c t]; simpl in *.
  intros Hres. apply Hver; [exact Hv|exact Hres|]. apply Array_sort_In, Hm.
Qed.
End NoEnactedPredicate.

Section SortedFacts.
Context {T : Type} (compareFn : T -> T -> Z).

Abbreviation before := (before compareFn).

Hypothesis total : forall a b, before a b \/ before b a.
Hypothesis trans : forall a b c, before a b -> before b c -> before a c.



End SortedFacts.

Section NameOrder.
Context {World Artifact : Type} (h : Harness World).

Abbreviation Unit := (Migration World Artifact).
Abbreviation Ctx := (@Context World Artifact).

Lemma prepared_app (t1 t2 : list (Call Artifact)) :
  prepared (t1 ++ t2) = prepared t1 ++ prepared t2.
Proof. unfold prepared. apply omap_app. Qed.

(** The walk prepares the units in the order of the list, up to where it stops. *)
Lemma walk_prepared (ls : list Unit) (ctx : Ctx) :
  let r := for_of ls runMigration ctx in
  (exists rest, map name ls = prepared (emitted r) ++ rest) /\
  (res r = Resolved tt -> prepared (emitted r) = map name ls).
Proof.
  revert ctx; induction ls as [|u ls IH]; intros ctx.
  { split; [exists []; reflexivity|reflexivity]. }
  cbv zeta. rewrite for_of_cons.
  pose proof (runMigration_cases u ctx) as Hc; simpl in Hc.
  destruct (prepare (actions u) (world ctx)) as [[a|e] w1]; simpl in Hc.
  2:{ rewrite Hc; simpl. split; [exists (map name ls); reflexivity|discriminate]. }
  destruct (isEnacted (actions u) w1) as [[[|]|e] w2]; simpl in Hc.
  - rewrite Hc; simpl.
    destruct (IH (set_world w2 (set_world w1 ctx))) as [[rest Hr] IH2].
    split; [exists rest; rewrite Hr; reflexivity|].
    intros Hres. rewrite (IH2 Hres). reflexivity.
  - destruct (enact (actions u) a w2) as [[[]|e] w3]; rewrite Hc; simpl.
    + destruct (IH (set_world w3 (set_world w2 (set_world w1 ctx)))) as [[rest Hr] IH2].
      split; [exists rest; rewrite Hr; reflexivity|].
      intros Hres. rewrite (IH2 Hres). reflexivity.
    + split; [exists (map name ls); reflexivity|discriminate].
  - rewrite Hc; simpl. split; [exists (map name ls); reflexivity|discriminate].
Qed.


End NameOrder.

Section CollationOrder.




End CollationOrder.

Section SortExtensionality.
Context {T : Type}.



End SortExtensionality.

Section LexicalReplay.
Context {World Artifact : Type} (h : Harness World).

Abbreviation Unit := (Migration World Artifact).
Abbreviation Ctx := (@Context World Artifact).

End LexicalReplay.

Section SubsetFacts.
Context {T : Type}.

Lemma subsets_length (pool : list T) : length (subsets pool) = (2 ^ length pool)%nat.
Proof.
  induction pool as [|x pool IH]; [reflexivity|].
  cbn [subsets]. rewrite length_app, length_map, IH. cbn [length Nat.pow]. lia.
Qed.

(** The subsets are the sublists of the pool, each with its units in reverse. *)
Lemma subsets_sublist (pool s : list T) : In s (subsets pool) <-> sublist (rev s) pool.
Proof.
  split.
  - revert s; induction pool as [|x pool IH]; intros s; cbn [subsets].
    + intros [<-|[]]. constructor.
    + rewrite in_app_iff, in_map_iff. intros [(s' & <- & Hs')|Hs].
      * rewrite rev_app_distr. simpl. apply sublist_skip, IH, Hs'.
      * apply sublist_cons, IH, Hs.
  - intros Hsub. rewrite <- (rev_involutive s). remember (rev s) as s' eqn:E. clear E s.
    induction Hsub as [|x s' pool Hsub IH|x s' pool Hsub IH]; cbn [subsets].
    + left; reflexivity.
    + apply in_or_app; left. simpl. apply in_map_iff. exists (rev s'). split; [reflexivity|exact IH].
    + apply in_or_app; right. exact IH.
Qed.

(** No subset is listed twice when the pool has no unit twice. *)
Lemma subsets_NoDup (pool : list T) : NoDup pool -> NoDup (subsets pool).
Proof.
  induction pool as [|x pool IH]; intros Hnd; cbn [subsets].
  - repeat constructor. intros H; inversion H.
  - apply NoDup_cons in Hnd as [Hx Hnd]. apply NoDup_app. split; [|split].
    + apply NoDup_fmap_2; [|apply IH, Hnd]. intros a b E. apply app_inj_tail in E. apply E.
    + intros s Hs Hs'. apply list_elem_of_In in Hs, Hs'.
      apply in_map_iff in Hs as (s' & <- & _).
      apply subsets_sublist in Hs'. rewrite rev_app_distr in Hs'. simpl in Hs'.
      apply Hx. eapply elem_of_sublist; [|exact Hs']. left.
    + apply IH, Hnd.
Qed.

Lemma subsets_one_empty (pool : list T) :
  length (List.filter is_empty (subsets pool)) = 1%nat.
Proof.
  induction pool as [|x pool IH]; [reflexivity|].
  cbn [subsets]. rewrite List.filter_app, length_app, IH.
  assert (E : List.filter is_empty (map (fun subset => subset ++ [x]) (subsets pool)) = []).
  { clear IH. induction (subsets pool) as [|s ss IHs]; [reflexivity|]. simpl.
    unfold is_empty at 1. rewrite length_app. simpl.
    replace (length s + 1 =? 0)%nat with false by (symmetry; apply Nat.eqb_neq; lia).
    exact IHs. }
  rewrite E. reflexivity.
Qed.

Lemma filter_all (f : list T -> bool) (l : list (list T)) :
  (forall s, f s = true) -> List.filter f l = l.
Proof.
  intros Hf. induction l as [|s l IH]; [reflexivity|]. simpl. rewrite Hf, IH. reflexivity.
Qed.

Lemma filter_complement_length (f : list T -> bool) (l : list (list T)) :
  (length (List.filter (fun s => negb (f s)) l) + length (List.filter f l))%nat = length l.
Proof.
  induction l as [|s l IH]; [reflexivity|]. simpl.
  destruct (f s); simpl; lia.
Qed.
End SubsetFacts.

Section SolveFacts.
Context {World Artifact : Type} (h : Harness World).

(** C3 (as amended). [solve] pushes one Solution per kept subset of the pool,
    in the order of the enumeration. The enumeration lists the 2^N subsets of
    the pool (every sublist, and none twice when no unit is discovered twice).
    All of them are kept when WITHOUT_MIGRATIONS is set or the pool is empty:
    2^N Solutions. Otherwise the empty subset, and only it, is dropped: 2^N - 1
    Solutions. *)
Theorem one_solution_per_subset (WITHOUT_MIGRATIONS : option string)
    (pool : list (Migration World Artifact)) :
  let n := length pool in
  let all := truthy WITHOUT_MIGRATIONS || (n =? 0)%nat in
  length (subsets pool) = (2 ^ n)%nat /\
  (forall s, In s (subsets pool) <-> sublist (rev s) pool) /\
  (NoDup pool -> NoDup (subsets pool)) /\
  solutionPaths WITHOUT_MIGRATIONS (subsets pool) =
    (if all then subsets pool
     else List.filter (fun s => negb (is_empty s)) (subsets pool)) /\
  solve h WITHOUT_MIGRATIONS pool =
    map (migrationSolution h) (solutionPaths WITHOUT_MIGRATIONS (subsets pool)) /\
  length (solve h WITHOUT_MIGRATIONS pool) = (if all then 2 ^ n else 2 ^ n - 1)%nat.
Proof.
  intros n all.
  split; [apply subsets_length|].
  split; [apply subsets_sublist|].
  split; [apply subsets_NoDup|].
  assert (Hpaths : solutionPaths WITHOUT_MIGRATIONS (subsets pool) =
                   (if all then subsets pool
                    else List.filter (fun s => negb (is_empty s)) (subsets pool))).
  { unfold solutionPaths, all. rewrite subsets_length. fold n.
    destruct (truthy WITHOUT_MIGRATIONS); simpl.
    - apply filter_all. intros s. rewrite andb_false_r. reflexivity.
    - destruct n as [|n'] eqn:En; simpl.
      + apply filter_all. intros s. rewrite andb_false_r. reflexivity.
      + assert (H1 : (1 <? 2 ^ n' + (2 ^ n' + 0))%nat = true).
        { apply Nat.ltb_lt. pose proof (Nat.pow_nonzero 2 n'). lia. }
        rewrite H1. apply List.filter_ext. intros s. rewrite !andb_true_r. reflexivity. }
  split; [exact Hpaths|]. split; [reflexivity|].
  unfold solve. rewrite length_map, Hpaths.
  destruct all; [apply subsets_length|].
  pose proof (filter_complement_length is_empty (subsets pool)) as Hc.
  rewrite subsets_one_empty, subsets_length in Hc. fold n in Hc. lia.
Qed.
End SolveFacts.

Section ArtifactFacts.
Context {World Artifact : Type} (h : Harness World).

Abbreviation Unit := (Migration World Artifact).
Abbreviation Ctx := (@Context World Artifact).

(** A property of the world that everything the walk calls preserves is
    preserved by the walk: the walk does nothing to the world by itself. *)
Lemma walk_stable (I : World -> Prop) (l ls : list Unit) :
  stable h I l -> (forall u, In u ls -> In u l) ->
  forall ctx : Ctx, I (world ctx) -> I (world (final (for_of ls runMigration ctx))).
Proof.
  intros (_ & _ & _ & _ & Hunits).
  induction ls as [|u ls IH]; intros Hin ctx Hi; [exact Hi|].
  assert (Hls : forall u0, In u0 ls -> In u0 l) by (intros; apply Hin; right; assumption).
  specialize (IH Hls).
  destruct (Hunits u (Hin u (or_introl eq_refl))) as (Hprep & Henact & Hcheck).
  rewrite for_of_cons.
  pose proof (runMigration_cases u ctx) as Hc; simpl in Hc.
  pose proof (Hprep (world ctx) Hi) as H1.
  destruct (prepare (actions u) (world ctx)) as [[a|e] w1]; simpl in Hc, H1.
  2:{ rewrite Hc; exact H1. }
  pose proof (Hcheck w1 H1) as H2.
  destruct (isEnacted (actions u) w1) as [[[|]|e] w2]; simpl in Hc, H2.
  - rewrite Hc; simpl. apply IH. exact H2.
  - pose proof (Henact a w2 H2) as H3.
    destruct (enact (actions u) a w2) as [[[]|e] w3]; rewrite Hc; simpl in *.
    + apply IH. exact H3.
    + exact H3.
  - rewrite Hc; exact H2.
Qed.

Lemma migrationSolution_stable (I : World -> Prop) (l : list Unit) (ctx : Ctx) :
  stable h I l -> I (world ctx) -> I (world (final (migrationSolution h l ctx))).
Proof.
  intros Hst Hi. rewrite migrationSolution_unfold.
  assert (Hsorted : forall u, In u (Array_sort (compareNames h) l) -> In u l)
    by (intros u; apply Array_sort_In).
  pose proof (walk_stable I l _ Hst Hsorted) as Hwalk.
  destruct Hst as (Hg & Himp & Hun & Hsh & _).
  unfold walk_start.
  pose proof (Hg (world ctx) Hi) as H1.
  destruct (getCompWhales h (world ctx)) as [[whales|e] w1]; simpl in *; [|exact H1].
  pose proof (Himp (head whales) w1 H1) as H2.
  destruct (impersonateAddress h (head whales) w1) as [[proposer|e] w2]; simpl in *;
    [|exact H2].
  specialize (Hwalk (MkContext (signers_unshift h proposer w2)
                               (Some (Array_sort (compareNames h) l)))
                    (Hun proposer w2 H2)).
  destruct (for_of _ runMigration _) as [[[]|e] c t]; simpl in *; auto.
Qed.
End ArtifactFacts.

Section ArtifactStore.
Context {World Artifact Hre DeployArgs DeploySpec : Type}.
Variables (h : Harness World) (ext : Externals Hre Artifact DeployArgs DeploySpec).

(** C8 (as amended). A migration Solution hands the artifact that [prepare]
    resolved to straight to [enact] (when the unit is not enacted yet), and
    stores nothing itself: whatever the units' own actions and the signer
    bookkeeping leave untouched in the world, a store of artifacts included,
    is untouched after the Solution. Storing is [storeArtifact] of the
    deployment manager, for a caller to invoke: what it stores under the
    migration's name, [readArtifact] reads back. *)
Theorem artifact_handed_to_enact_not_stored (I : World -> Prop)
    (l : list (Migration World Artifact)) (ctx : @Context World Artifact) :
  stable h I l ->
  I (world ctx) ->
  let r := migrationSolution h l ctx in
  I (world (final r)) /\
  (forall t1 n a t2, emitted r = t1 ++ CEnact n a :: t2 ->
     exists t0, t1 = t0 ++ [CPrepare n (Some a); CIsEnacted n (Some false)]) /\
  (forall (m : Migration World Artifact) (a : Artifact)
          (dm : DeploymentManager Hre Artifact),
     res ((storeArtifact ext m a ;; readArtifact m) dm) = Resolved (Some a)).
Proof.
  intros Hst Hi r.
  split; [apply migrationSolution_stable; assumption|].
  split; [apply pass_trace_enact_guarded, migrationSolution_pass_trace|].
  intros m a dm. unfold storeArtifact, readArtifact, bind, modify, gets, ret; simpl.
  unfold Cache_readCache; simpl. rewrite lookup_insert_eq. reflexivity.
Qed.
End ArtifactStore.

(** * Properties of the deployment manager *)

Section RegistryFacts.
Context {Hre Artifact DeployArgs DeploySpec : Type}.
Variable ext : Externals Hre Artifact DeployArgs DeploySpec.

Abbreviation DM := (@DeploymentManager Hre Artifact).

(** [getSigners] and [getSigner] only touch the runtime and the signers. *)
Lemma getSigners_frame (dm : DM) :
  let r := getSigners ext dm in
  cache (final r) = cache dm /\ counter (final r) = counter dm /\
  contractsCache (final r) = contractsCache dm /\ emitted r = [].
Proof.
  unfold getSigners, bind, get, external, modify, gets; simpl.
  destruct (bool_decide _); simpl; [auto|].
  destruct (ethers_getSigners ext (hre dm)) as [[signers|e] h']; simpl; auto.
Qed.

Lemma getSigner_frame (dm : DM) :
  let r := getSigner ext dm in
  cache (final r) = cache dm /\ counter (final r) = counter dm /\
  contractsCache (final r) = contractsCache dm /\ emitted r = [].
Proof.
  pose proof (getSigners_frame dm) as Hf. cbv zeta in *.
  unfold getSigner, bind, ret.
  destruct (getSigners ext dm) as [[signers|e] dm' t]; simpl in *;
    rewrite ?app_nil_r; exact Hf.
Qed.

(** [contracts()] on a manager whose cache of handles is empty: the handles
    are rebuilt from the registry as it is now, and kept. *)
Lemma contracts_rebuilds (dm : DM) (m : gmap string Contract) :
  contractsCache dm = None ->
  res (contracts ext dm) = Resolved m ->
  m = getContracts (cache dm) /\
  contractsCache (final (contracts ext dm)) = Some m /\
  cache (final (contracts ext dm)) = cache dm /\
  counter (final (contracts ext dm)) = counter dm /\
  emitted (contracts ext dm) = [].
Proof.
  intros Hnone. unfold contracts, bind, get; simpl. rewrite Hnone.
  destruct (getSigner_frame dm) as (Hc & Hn & _ & Ht).
  destruct (getSigner ext dm) as [[s|e] dm' t]; simpl in *; [|discriminate].
  subst t. rewrite Hc. intros [= <-]. auto.
Qed.

(** [contracts()] on a manager that holds handles: they are returned as is. *)
Lemma contracts_cached (dm : DM) (m : gmap string Contract) :
  contractsCache dm = Some m ->
  contracts ext dm = MkRun (Resolved m) dm [].
Proof. intros Hsome. unfold contracts, bind, get, ret; simpl. rewrite Hsome. reflexivity. Qed.

(** C7. [putAlias(A, addr)] resolves; [getAliases()] after it maps [A] to
    [addr]; and [putAlias] and [putProxy] both leave the cache of contract
    handles empty, so that the next [contracts()] rebuilds the handles from
    the registry as written (the handle of [A] is at [addr]) and keeps them. *)
Theorem putAlias_visible_and_invalidates (dm : DM) (alias : Alias) (addr : Address) :
  let afterAlias := final (putAlias alias addr dm) in
  let afterProxy := final (putProxy alias addr dm) in
  res (putAlias alias addr dm) = Resolved tt /\
  (exists m, res ((putAlias alias addr ;; getAliases) dm) = Resolved m /\
             m !! alias = Some addr) /\
  (exists m, res ((putProxy alias addr ;; getProxies) dm) = Resolved m /\
             m !! alias = Some addr) /\
  contractsCache afterAlias = None /\
  contractsCache afterProxy = None /\
  (forall m, res (contracts ext afterAlias) = Resolved m ->
     m = getContracts (cache afterAlias) /\
     address <$> (m !! alias) = Some addr /\
     contractsCache (final (contracts ext afterAlias)) = Some m) /\
  (forall m, res (contracts ext afterProxy) = Resolved m ->
     m = getContracts (cache afterProxy) /\
     contractsCache (final (contracts ext afterProxy)) = Some m).
Proof.
  intros afterAlias afterProxy.
  split; [reflexivity|].
  split; [eexists; split; [reflexivity|]; simpl; apply lookup_insert_eq|].
  split; [eexists; split; [reflexivity|]; simpl; apply lookup_insert_eq|].
  split; [reflexivity|]. split; [reflexivity|].
  split.
  - intros m Hm.
    destruct (contracts_rebuilds afterAlias m eq_refl Hm) as (-> & Hkept & _).
    split; [reflexivity|]. split; [|exact Hkept].
    unfold getContracts. rewrite lookup_fmap. simpl.
    unfold Aliases_getAliases; simpl. rewrite lookup_insert_eq. reflexivity.
  - intros m Hm.
    destruct (contracts_rebuilds afterProxy m eq_refl Hm) as (-> & Hkept & _).
    split; [reflexivity|exact Hkept].
Qed.
End RegistryFacts.

Section RetryFacts.
Context {Hre Artifact A : Type}.
Variables (fn : M Hre Artifact A) (timeLimit : option Z).

Abbreviation DM := (@DeploymentManager Hre Artifact).

Lemma attempts_app (t1 t2 : list Event) :
  attempts (t1 ++ t2) = (attempts t1 + attempts t2)%nat.
Proof. unfold attempts. rewrite List.filter_app, length_app. reflexivity. Qed.

Lemma sleeps_app (t1 t2 : list Event) : sleeps (t1 ++ t2) = sleeps t1 ++ sleeps t2.
Proof. apply omap_app. Qed.

Lemma elapsed_app (t1 t2 : list Event) : elapsed (t1 ++ t2) = elapsed t1 + elapsed t2.
Proof. induction t1 as [|e t1 IH]; simpl; [reflexivity|]. rewrite IH. lia. Qed.

Lemma doubling_succ (wait : Z) (k : nat) :
  doubling wait (S k) = wait :: doubling (wait * 2) k.
Proof.
  unfold doubling. simpl. rewrite Z.mul_1_r. f_equal.
  rewrite <- seq_shift, map_map. apply map_ext. intros i.
  rewrite Nat2Z.inj_succ, Z.pow_succ_r by lia. lia.
Qed.

(** [retry], one step: the try resolves, or it rejects and either the budget
    is spent (the error is rethrown) or the manager warns, resets the signers,
    waits and tries again with one retry less and twice the wait. *)
Lemma retry_step (retries : nat) (wait : Z) (dm : DM) :
  let a := attempt fn timeLimit dm in
  retry fn retries timeLimit wait dm =
  match res a with
  | Resolved v => a
  | Rejected e =>
      match retries with
      | O => MkRun (Rejected e) (final a) (emitted a)
      | S retries' =>
          let r := retry fn retries' timeLimit (wait * 2) (after_failure fn timeLimit dm) in
          MkRun (res r) (final r)
                (emitted a ++ [EvWarn retries wait e; EvSleep wait] ++ emitted r)
      end
  end.
Proof.
  unfold after_failure, attempt.
  destruct retries as [|retries']; cbn [retry]; unfold try_catch; cbv zeta;
    destruct (res (asyncCallWithTimeout _ timeLimit dm)) eqn:E; try reflexivity.
  unfold throw; simpl. rewrite app_nil_r. reflexivity.
Qed.

Hypothesis fn_quiet : quiet fn.

Lemma attempt_counts (dm : DM) :
  attempts (emitted (attempt fn timeLimit dm)) = 1%nat /\
  sleeps (emitted (attempt fn timeLimit dm)) = [].
Proof.
  assert (Hq : forall t, forallb (fun e => negb (is_retry_event e)) t = true ->
                         attempts t = 0%nat /\ sleeps t = []).
  { induction t as [|e t IH]; [auto|]. simpl. intros H.
    apply andb_true_iff in H as [He Ht]. destruct (IH Ht) as [IH1 IH2].
    unfold attempts in *. destruct e; simpl in *; try discriminate; auto. }
  assert (He : emitted (attempt fn timeLimit dm) = EvAttempt :: emitted (fn dm)).
  { unfold attempt, asyncCallWithTimeout, bind, emit; simpl.
    destruct timeLimit as [limit|]; [destruct (_ <? _)|]; destruct (fn dm) as [[v|e] d t];
      reflexivity. }
  rewrite He. destruct (Hq _ (fn_quiet dm)) as [H1 H2].
  unfold attempts in *; simpl. rewrite H1, H2. auto.
Qed.

(** The shape of every run of [retry]: [k] failed tries, each followed by a
    wait twice the one before, then one last try; a rejection means the budget
    is spent, and the error is the one of the last try. *)
Lemma retry_shape (retries : nat) :
  forall (wait : Z) (dm : DM),
  let r := retry fn retries timeLimit wait dm in
  exists k, (k <= retries)%nat /\
    sleeps (emitted r) = doubling wait k /\
    attempts (emitted r) = S k /\
    (forall e, res r = Rejected e ->
       k = retries /\
       res (attempt fn timeLimit (Nat.iter retries (after_failure fn timeLimit) dm))
       = Rejected e).
Proof.
  induction retries as [|retries' IH]; intros wait dm; cbv zeta; rewrite retry_step;
    cbv zeta; destruct (attempt_counts dm) as [Ha Hs];
    destruct (res (attempt fn timeLimit dm)) as [v|e] eqn:E.
  - exists 0%nat. rewrite Ha, Hs. split; [lia|]. split; [reflexivity|].
    split; [reflexivity|]. intros e He. congruence.
  - exists 0%nat. cbn [res emitted]. rewrite Ha, Hs. split; [lia|]. split; [reflexivity|].
    split; [reflexivity|]. intros e' [= <-]. split; [reflexivity|exact E].
  - exists 0%nat. rewrite Ha, Hs. split; [lia|]. split; [reflexivity|].
    split; [reflexivity|]. intros e He. congruence.
  - destruct (IH (wait * 2) (after_failure fn timeLimit dm)) as (k & Hk & Hsl & Hat & Hrej).
    exists (S k). cbn [res emitted].
    rewrite !sleeps_app, !attempts_app, Hs, Ha, Hsl, Hat, doubling_succ.
    split; [lia|]. split; [reflexivity|]. split; [reflexivity|].
    intros e' He'. destruct (Hrej e' He') as [-> Hlast]. split; [reflexivity|].
    rewrite Nat.iter_succ_r. exact Hlast.
Qed.

(** C6. [retry] waits twice as long after each failed try: the waits of any
    run are [wait, 2 wait, 4 wait, ...], one per failed try that was retried,
    with one try more than waits; a run that rejects has spent its budget and
    rethrows the error of its last try. A call without [retries] and [wait]
    runs with 5 retries and 250 ms; then an action that fails twice and
    succeeds on the third try is tried exactly 3 times, with waits of 250 and
    500 ms before the success, so that at least 750 ms have passed. A try that
    exceeds the time limit rejects, and is retried like any failed try. *)
Theorem retry_backoff_and_rethrow (dm : DM) :
  let try := attempt fn timeLimit in
  let next := after_failure fn timeLimit in
  retry_call fn None timeLimit None dm = retry fn 5 timeLimit 250 dm /\
  (forall retries wait,
     let r := retry fn retries timeLimit wait dm in
     exists k, (k <= retries)%nat /\
       sleeps (emitted r) = doubling wait k /\
       attempts (emitted r) = S k /\
       (forall e, res r = Rejected e ->
          k = retries /\ res (try (Nat.iter retries next dm)) = Rejected e)) /\
  (forall e1 e2 v,
     res (try dm) = Rejected e1 ->
     res (try (next dm)) = Rejected e2 ->
     res (try (next (next dm))) = Resolved v ->
     let r := retry_call fn None timeLimit None dm in
     res r = Resolved v /\
     attempts (emitted r) = 3%nat /\
     sleeps (emitted r) = [250; 500] /\
     emitted r = emitted (try dm) ++ [EvWarn 5 250 e1; EvSleep 250] ++
                 emitted (try (next dm)) ++ [EvWarn 4 500 e2; EvSleep 500] ++
                 emitted (try (next (next dm))) /\
     (0 <= elapsed (emitted (try dm)) ->
      0 <= elapsed (emitted (try (next dm))) ->
      0 <= elapsed (emitted (try (next (next dm)))) ->
      250 + 500 <= elapsed (emitted r))) /\
  (forall limit retries wait,
     timeLimit = Some limit ->
     limit < elapsed (emitted (fn dm)) ->
     let r := retry fn (S retries) timeLimit wait dm in
     let rest := retry fn retries timeLimit (wait * 2) (next dm) in
     res (try dm) = Rejected timeoutError /\
     res r = res rest /\
     attempts (emitted r) = S (attempts (emitted rest)) /\
     sleeps (emitted r) = wait :: sleeps (emitted rest)).
Proof.
  intros try next.
  split; [reflexivity|].
  split; [intros retries wait; apply retry_shape|].
  split.
  - intros e1 e2 v H1 H2 H3 r. subst r.
    change (retry_call fn None timeLimit None dm) with (retry fn 5 timeLimit 250 dm).
    rewrite retry_step; cbv zeta. fold try. rewrite H1.
    fold next. rewrite retry_step; cbv zeta. fold try. rewrite H2.
    fold next. rewrite retry_step; cbv zeta. fold try. rewrite H3.
    cbn [res emitted]. split; [exact H3|].
    destruct (attempt_counts dm) as [Ha0 Hs0].
    destruct (attempt_counts (next dm)) as [Ha1 Hs1].
    destruct (attempt_counts (next (next dm))) as [Ha2 Hs2].
    fold try in Ha0, Hs0, Ha1, Hs1, Ha2, Hs2.
    rewrite !attempts_app, !sleeps_app, !elapsed_app, Ha0, Ha1, Ha2, Hs0, Hs1, Hs2.
    split; [reflexivity|]. split; [reflexivity|]. split; [reflexivity|].
    simpl. lia.
  - intros limit retries wait Hlim Hover r rest.
    assert (Hto : res (try dm) = Rejected timeoutError).
    { unfold try, attempt, asyncCallWithTimeout. rewrite Hlim.
      assert (He : elapsed (emitted ((emit EvAttempt ;; fn) dm)) = elapsed (emitted (fn dm))).
      { unfold bind, emit; simpl. destruct (fn dm) as [[v|e] d t]; reflexivity. }
      rewrite He. destruct (Z.ltb_spec limit (elapsed (emitted (fn dm)))); [reflexivity|lia]. }
    split; [exact Hto|].
    subst r. rewrite retry_step; cbv zeta. fold try. rewrite Hto. fold next. fold rest.
    cbn [res emitted]. split; [reflexivity|].
    destruct (attempt_counts dm) as [Ha0 Hs0]. fold try in Ha0, Hs0.
    rewrite !attempts_app, !sleeps_app, Ha0, Hs0. split; reflexivity.
Qed.
End RetryFacts.

Section DeployFacts.
Context {Hre Artifact DeployArgs DeploySpec : Type}.
Variable ext : Externals Hre Artifact DeployArgs DeploySpec.

Abbreviation DM := (@DeploymentManager Hre Artifact).

Lemma same_registry_refl (dm : DM) : same_registry dm dm.
Proof. repeat split. Qed.

Lemma same_registry_trans (a b c : DM) :
  same_registry a b -> same_registry b c -> same_registry a c.
Proof. unfold same_registry. intros (-> & -> & ->) (-> & -> & ->). auto. Qed.

Lemma constructions_app (t1 t2 : list Event) :
  constructions (t1 ++ t2) = (constructions t1 + constructions t2)%nat.
Proof. unfold constructions. rewrite List.filter_app, length_app. reflexivity. Qed.

Section Retrying.
Context {A : Type}.
Variables (fn : M Hre Artifact A) (timeLimit : option Z).
Hypothesis fn_frame : forall dm, same_registry dm (final (fn dm)).

Lemma attempt_frame (dm : DM) : same_registry dm (final (attempt fn timeLimit dm)).
Proof.
  pose proof (fn_frame dm) as Hf.
  unfold attempt, asyncCallWithTimeout, bind, emit; simpl.
  destruct timeLimit as [limit|]; [destruct (_ <? _)|]; destruct (fn dm) as [[v|e] d t];
    exact Hf.
Qed.

Lemma retry_frame (retries : nat) :
  forall (wait : Z) (dm : DM),
  same_registry dm (final (retry fn retries timeLimit wait dm)).
Proof.
  induction retries as [|retries' IH]; intros wait dm; rewrite retry_step; cbv zeta;
    pose proof (attempt_frame dm) as Ha;
    destruct (res (attempt fn timeLimit dm)) as [v|e]; try exact Ha.
  cbn [final]. eapply same_registry_trans; [|apply IH].
  unfold after_failure, resetSignersPendingCounts, modify; simpl. exact Ha.
Qed.

(** A run of [retry] that resolves ends with a try that resolved. *)
Lemma retry_resolved (retries : nat) :
  forall (wait : Z) (dm : DM) (v : A),
  res (retry fn retries timeLimit wait dm) = Resolved v ->
  exists d t0, res (attempt fn timeLimit d) = Resolved v /\
               emitted (retry fn retries timeLimit wait dm)
               = t0 ++ emitted (attempt fn timeLimit d).
Proof.
  induction retries as [|retries' IH]; intros wait dm v; rewrite retry_step; cbv zeta;
    destruct (res (attempt fn timeLimit dm)) as [v0|e] eqn:E.
  - intros Hr. exists dm, []. split; [congruence|reflexivity].
  - discriminate.
  - intros Hr. exists dm, []. split; [congruence|reflexivity].
  - cbn [res emitted]. intros Hr. destruct (IH _ _ _ Hr) as (d & t0 & Hd & Ht).
    exists d, (emitted (attempt fn timeLimit dm) ++ [EvWarn (S retries') wait e; EvSleep wait] ++ t0).
    split; [exact Hd|]. rewrite Ht, <- !app_assoc. reflexivity.
Qed.
End Retrying.

Lemma constructed_app (t1 t2 : list Event) :
  constructed (t1 ++ t2) = (constructed t1 + constructed t2)%nat.
Proof. unfold constructed. rewrite List.filter_app, length_app. reflexivity. Qed.

Section Constructing.
Context {A : Type}.
Variable fn : M Hre Artifact A.
Hypothesis fn_quiet : quiet fn.
Hypothesis fn_constructs : forall dm,
  (constructions (emitted (fn dm)) <= 1)%nat /\
  constructed (emitted (fn dm)) =
  match res (fn dm) with Resolved _ => 1%nat | Rejected _ => 0%nat end.

Lemma attempt_unlimited (dm : DM) :
  attempt fn None dm = MkRun (res (fn dm)) (final (fn dm)) (EvAttempt :: emitted (fn dm)).
Proof.
  unfold attempt, asyncCallWithTimeout, bind, emit; simpl.
  destruct (fn dm) as [[v|e] d t]; reflexivity.
Qed.

(** A run of [retry] without a time limit asks for at most one construction
    per try, and constructs once when it resolves and not at all when it
    rejects: every try but the last rejected. *)
Lemma retry_constructs (retries : nat) :
  forall (wait : Z) (dm : DM),
  let r := retry fn retries None wait dm in
  (constructions (emitted r) <= attempts (emitted r))%nat /\
  constructed (emitted r) = match res r with Resolved _ => 1%nat | Rejected _ => 0%nat end.
Proof.
  induction retries as [|retries' IH]; intros wait dm; cbv zeta; rewrite retry_step;
    cbv zeta; destruct (attempt_counts fn None fn_quiet dm) as [Hat _];
    revert Hat; rewrite attempt_unlimited; cbn [res final emitted]; intros Hat;
    destruct (fn_constructs dm) as [Hle Hcd];
    assert (Hle' : (constructions (EvAttempt :: emitted (fn dm)) <= 1)%nat) by exact Hle;
    assert (Hcd' : constructed (EvAttempt :: emitted (fn dm)) = constructed (emitted (fn dm)))
      by reflexivity;
    destruct (res (fn dm)) as [v|e] eqn:E; cbn [res final emitted].
  - split; [lia|]. rewrite Hcd'. exact Hcd.
  - split; [lia|]. rewrite Hcd'. exact Hcd.
  - split; [lia|]. rewrite Hcd'. exact Hcd.
  - destruct (IH (wait * 2) (after_failure fn None dm)) as [IH1 IH2].
    rewrite !constructions_app, !attempts_app, !constructed_app, Hcd', Hcd, Hat.
    change (constructions [EvWarn (S retries') wait e; EvSleep wait]) with 0%nat.
    change (attempts [EvWarn (S retries') wait e; EvSleep wait]) with 0%nat.
    change (constructed [EvWarn (S retries') wait e; EvSleep wait]) with 0%nat.
    split; [lia|]. exact IH2.
Qed.
End Constructing.

Lemma construct_frame (contractFile : string) (deployArgs : DeployArgs) (dm : DM) :
  same_registry dm (final (construct ext contractFile deployArgs dm)).
Proof.
  unfold construct, deployOpts, bind, gets, emit, external, ret; simpl.
  destruct (getSigner_frame ext dm) as (Hc & Hn & Hcc & _).
  destruct (getSigner ext dm) as [[s|e] d t]; simpl in *; [|repeat split; auto].
  destruct (Deploy_deploy ext _ _ _ _) as [[c'|e] h']; simpl; repeat split; auto.
Qed.

Lemma construct_quiet (contractFile : string) (deployArgs : DeployArgs) :
  quiet (construct ext contractFile deployArgs).
Proof.
  intros dm. unfold construct, deployOpts, bind, gets, emit, external, ret; simpl.
  destruct (getSigner_frame ext dm) as (_ & _ & _ & Ht).
  destruct (getSigner ext dm) as [[s|e] d t]; simpl in *; subst t; [|reflexivity].
  destruct (Deploy_deploy ext _ _ _ _) as [[c'|e] h']; reflexivity.
Qed.

Lemma construct_resolved (contractFile : string) (deployArgs : DeployArgs) (dm : DM)
    (c : Contract) :
  res (construct ext contractFile deployArgs dm) = Resolved c ->
  emitted (construct ext contractFile deployArgs dm)
  = [EvConstruct contractFile; EvConstructed (address c)].
Proof.
  unfold construct, deployOpts, bind, gets, emit, external, ret; simpl.
  destruct (getSigner_frame ext dm) as (_ & _ & _ & Ht).
  destruct (getSigner ext dm) as [[s|e] d t]; simpl in *; [|discriminate].
  subst t. destruct (Deploy_deploy ext _ _ _ _) as [[c'|e] h']; simpl; [|discriminate].
  intros [= <-]. reflexivity.
Qed.

(** A construction that rejects has constructed nothing, and asked the
    runtime at most once. *)
Lemma construct_rejected (contractFile : string) (deployArgs : DeployArgs) (dm : DM)
    (e : exn) :
  res (construct ext contractFile deployArgs dm) = Rejected e ->
  constructed (emitted (construct ext contractFile deployArgs dm)) = 0%nat /\
  (constructions (emitted (construct ext contractFile deployArgs dm)) <= 1)%nat.
Proof.
  unfold construct, deployOpts, bind, gets, emit, external, ret; simpl.
  destruct (getSigner_frame ext dm) as (_ & _ & _ & Ht).
  destruct (getSigner ext dm) as [[s|e0] d t]; simpl in *; subst t.
  - destruct (Deploy_deploy ext _ _ _ _) as [[c'|e0] h']; simpl; [discriminate|].
    intros _. split; [reflexivity|]. unfold constructions; simpl. lia.
  - intros _. split; [reflexivity|]. unfold constructions; simpl. lia.
Qed.

Lemma contracts_frame_emitted (dm : DM) : emitted (contracts ext dm) = [].
Proof.
  unfold contracts, bind, get; simpl.
  destruct (contractsCache dm) as [m|]; [reflexivity|].
  destruct (getSigner_frame ext dm) as (_ & _ & _ & Ht).
  destruct (getSigner ext dm) as [[s|e] d t]; simpl in *; subst t; reflexivity.
Qed.

Lemma _deploy_unfold (contractFile : string) (deployArgs : DeployArgs)
    (retries : option nat) (dm : DM) :
  let r := retry (construct ext contractFile deployArgs) (default 5%nat retries) None 250 dm in
  _deploy ext contractFile deployArgs retries dm =
  match res r with
  | Resolved c => MkRun (Resolved c) (set_counter (counter (final r) + 1) (final r)) (emitted r)
  | Rejected e => MkRun (Rejected e) (final r) (emitted r)
  end.
Proof.
  cbv zeta. unfold _deploy, retry_call.
  unfold bind at 1. cbn [default].
  destruct (retry (construct ext contractFile deployArgs) _ None 250 dm) as [[v|e] d t];
    cbn [res final emitted]; [|reflexivity].
  unfold bind, modify, ret; simpl. rewrite app_nil_r. reflexivity.
Qed.

(** A [_deploy] that resolves made at least one construction, counted it, and
    left the registry and the handles alone. *)
Lemma _deploy_resolved (contractFile : string) (deployArgs : DeployArgs)
    (retries : option nat) (dm : DM) (c : Contract) :
  res (_deploy ext contractFile deployArgs retries dm) = Resolved c ->
  let dm' := final (_deploy ext contractFile deployArgs retries dm) in
  cache dm' = cache dm /\ counter dm' = counter dm + 1 /\
  contractsCache dm' = contractsCache dm /\
  (1 <= constructions (emitted (_deploy ext contractFile deployArgs retries dm)))%nat.
Proof.
  cbv zeta. rewrite _deploy_unfold; cbv zeta.
  pose proof (retry_frame (construct ext contractFile deployArgs) None
                (construct_frame contractFile deployArgs)
                (default 5%nat retries) 250 dm) as (Hc & Hn & Hcc).
  pose proof (retry_resolved (construct ext contractFile deployArgs) None
                (default 5%nat retries) 250 dm) as Hres.
  destruct (retry _ _ None _ dm) as [[v|e] d t]; cbn [res final emitted] in *;
    [|discriminate].
  intros [= <-]. split; [exact Hc|]. split; [simpl; lia|]. split; [exact Hcc|].
  destruct (Hres v eq_refl) as (d0 & t0 & Hd & ->).
  rewrite constructions_app.
  assert (Hcon : res (construct ext contractFile deployArgs d0) = Resolved v).
  { revert Hd. unfold attempt, asyncCallWithTimeout, bind, emit; simpl.
    destruct (construct ext contractFile deployArgs d0) as [[v'|e'] d' t']; simpl; auto. }
  assert (He : emitted (attempt (construct ext contractFile deployArgs) None d0)
               = EvAttempt :: emitted (construct ext contractFile deployArgs d0)).
  { unfold attempt, asyncCallWithTimeout, bind, emit; simpl.
    destruct (construct ext contractFile deployArgs d0) as [[v'|e'] d' t']; reflexivity. }
  rewrite He, (construct_resolved _ _ _ _ Hcon). unfold constructions; simpl. lia.
Qed.

Lemma construct_counts (contractFile : string) (deployArgs : DeployArgs) (dm : DM) :
  (constructions (emitted (construct ext contractFile deployArgs dm)) <= 1)%nat /\
  constructed (emitted (construct ext contractFile deployArgs dm)) =
  match res (construct ext contractFile deployArgs dm) with
  | Resolved _ => 1%nat
  | Rejected _ => 0%nat
  end.
Proof.
  destruct (res (construct ext contractFile deployArgs dm)) as [c|e] eqn:E.
  - rewrite (construct_resolved _ _ _ _ E). split; [unfold constructions; simpl; lia|reflexivity].
  - destruct (construct_rejected _ _ _ _ E) as [H1 H2]. split; [exact H2|exact H1].
Qed.

(** A [_deploy] asks for at most one construction per try; it has
    constructed exactly one contract when it resolves, and none when it
    rejects. When the first try resolves, that is its only construction. *)
Lemma _deploy_constructs (contractFile : string) (deployArgs : DeployArgs)
    (retries : option nat) (dm : DM) :
  let r := _deploy ext contractFile deployArgs retries dm in
  (constructions (emitted r) <= attempts (emitted r))%nat /\
  constructed (emitted r) = match res r with Resolved _ => 1%nat | Rejected _ => 0%nat end /\
  (forall c, res (construct ext contractFile deployArgs dm) = Resolved c ->
     res r = Resolved c /\
     emitted r = [EvAttempt; EvConstruct contractFile; EvConstructed (address c)]).
Proof.
  cbv zeta. rewrite _deploy_unfold; cbv zeta.
  pose proof (retry_constructs (construct ext contractFile deployArgs)
                (construct_quiet contractFile deployArgs)
                (construct_counts contractFile deployArgs)
                (default 5%nat retries) 250 dm) as Hr. cbv zeta in Hr.
  pose proof (retry_step (construct ext contractFile deployArgs) None
                (default 5%nat retries) 250 dm) as Hs. cbv zeta in Hs.
  rewrite attempt_unlimited in Hs. cbn [res final emitted] in Hs.
  destruct Hr as [Hr1 Hr2].
  split; [|split].
  - destruct (res (retry _ _ None _ dm)); exact Hr1.
  - destruct (res (retry _ _ None _ dm)); exact Hr2.
  - intros c Hc. rewrite Hc in Hs. rewrite Hs. cbn [res final emitted].
    rewrite (construct_resolved _ _ _ _ Hc). split; reflexivity.
Qed.

Lemma contracts_resolved (dm : DM) (m : gmap string Contract) :
  res (contracts ext dm) = Resolved m ->
  contractsCache (final (contracts ext dm)) = Some m /\
  cache (final (contracts ext dm)) = cache dm /\
  counter (final (contracts ext dm)) = counter dm /\
  emitted (contracts ext dm) = [] /\
  (contractsCache dm = None -> m = getContracts (cache dm)) /\
  (forall m0, contractsCache dm = Some m0 -> m = m0).
Proof.
  intros Hm. destruct (contractsCache dm) as [m0|] eqn:Ecc.
  - rewrite (contracts_cached ext dm m0 Ecc) in *. simpl in *.
    injection Hm as <-. repeat split; auto; congruence.
  - destruct (contracts_rebuilds ext dm m Ecc Hm) as (-> & H1 & H2 & H3 & H4).
    repeat split; auto. discriminate.
Qed.

Lemma putAlias_final (alias : Alias) (addr : Address) (dm : DM) :
  final (putAlias alias addr dm) =
  set_contractsCache None (set_cache (Aliases_putAlias (cache dm) alias addr) dm).
Proof. reflexivity. Qed.

(** [deploy], by cases on what [contract(alias)] finds. *)
Lemma deploy_unfold (alias : Alias) (contractFile : string) (deployArgs : DeployArgs)
    (force : bool) (retries : option nat) (dm : DM) :
  let rc := contracts ext dm in
  let fresh :=
    let rd := _deploy ext contractFile deployArgs retries (final rc) in
    match res rd with
    | Resolved c =>
        MkRun (Resolved c) (final (putAlias alias (address c) (final rd)))
              (emitted rc ++ emitted rd)
    | Rejected e => MkRun (Rejected e) (final rd) (emitted rc ++ emitted rd)
    end in
  deploy ext alias contractFile deployArgs force retries dm =
  match res rc with
  | Rejected e => MkRun (Rejected e) (final rc) (emitted rc)
  | Resolved m =>
      match m !! alias with
      | Some existing =>
          if force then fresh else MkRun (Resolved existing) (final rc) (emitted rc)
      | None => fresh
      end
  end.
Proof.
  cbv zeta. unfold deploy, contract.
  generalize (_deploy ext contractFile deployArgs retries). intros D.
  unfold bind, ret, putAlias, modify, invalidateContractsCache.
  destruct (contracts ext dm) as [[m|e] d t]; simpl; [|reflexivity].
  destruct (m !! alias) as [existing|]; [destruct force|]; simpl;
    rewrite ?app_nil_r; try reflexivity;
    destruct (D d) as [[c|e] d' t']; simpl; rewrite ?app_nil_r; reflexivity.
Qed.

(** C5. Two calls of [deploy] for the same alias, without [force], that both
    resolve: the second returns a handle at the address of the first, makes no
    construction (it emits nothing at all), and leaves the counter and the
    registry as the first call left them. When the alias did not resolve
    before the first call (a fresh deploy), the first call made a construction,
    raised the counter by one, stored the alias at the new address and emptied
    the cache of handles, and exactly one construction resolved over both
    calls: the construction was asked of the runtime at most once per try of
    the first call, every request that did not resolve was a try that [retry]
    repeated, and when the first try resolves the two calls together make
    that one request and nothing else. When the alias did resolve, the first
    call returned that handle and constructed nothing. *)
Theorem deploy_twice_constructs_once (alias : Alias) (file file' : string)
    (args args' : DeployArgs) (retries retries' : option nat) (dm : DM)
    (c1 c2 : Contract) :
  let first := deploy ext alias file args false retries dm in
  let second := deploy ext alias file' args' false retries' (final first) in
  res first = Resolved c1 ->
  res second = Resolved c2 ->
  address c2 = address c1 /\
  emitted second = [] /\
  constructions (emitted second) = 0%nat /\
  counter (final second) = counter (final first) /\
  cache (final second) = cache (final first) /\
  (res (contract ext alias dm) = Resolved None ->
     (1 <= constructions (emitted first))%nat /\
     counter (final first) = counter dm + 1 /\
     Aliases_getAliases (cache (final first)) !! alias = Some (address c1) /\
     contractsCache (final first) = None /\
     counter (final second) = counter dm + 1) /\
  (forall c0, res (contract ext alias dm) = Resolved (Some c0) ->
     c1 = c0 /\ emitted first = [] /\ counter (final first) = counter dm) /\
  (res (contract ext alias dm) = Resolved None ->
     constructed (emitted first ++ emitted second) = 1%nat /\
     (constructions (emitted first ++ emitted second) <= attempts (emitted first))%nat /\
     (forall c, res (construct ext file args (final (contracts ext dm))) = Resolved c ->
        constructions (emitted first ++ emitted second) = 1%nat /\
        emitted first ++ emitted second
        = [EvAttempt; EvConstruct file; EvConstructed (address c1)])).
Proof.
  intros first second H1 H2.
  (* a fresh first call is one [_deploy] *)
  assert (Hfresh : res (contract ext alias dm) = Resolved None ->
            res (_deploy ext file args retries (final (contracts ext dm))) = Resolved c1 /\
            emitted first = emitted (_deploy ext file args retries (final (contracts ext dm)))).
  { unfold contract, bind, ret. subst first. revert H1. rewrite deploy_unfold; cbv zeta.
    pose proof (contracts_frame_emitted dm) as Hem.
    destruct (contracts ext dm) as [[m|e] d t]; cbn [res final emitted] in *; [|discriminate].
    subst t. destruct (m !! alias) as [found|]; [intros _; discriminate|].
    destruct (res (_deploy ext file args retries d)) as [c|e]; cbn [res final emitted];
      [|discriminate].
    intros [= <-] _. split; reflexivity. }
  (* what contract(alias) found before the first call *)
  assert (Hlook : forall o, res (contract ext alias dm) = Resolved o ->
                  exists m, res (contracts ext dm) = Resolved m /\ m !! alias = o).
  { intros o. unfold contract, bind, ret.
    destruct (contracts ext dm) as [[m|e] d t]; simpl; [|discriminate].
    intros [= <-]. eauto. }
  (* the state after the first call, and the handle the alias resolves to there *)
  assert (Hfirst :
    (exists m, contractsCache (final first) = Some m /\ m !! alias = Some c1 /\
               emitted first = [] /\ counter (final first) = counter dm /\
               res (contract ext alias dm) = Resolved (Some c1)) \/
    (contractsCache (final first) = None /\
     Aliases_getAliases (cache (final first)) !! alias = Some (address c1) /\
     (1 <= constructions (emitted first))%nat /\
     counter (final first) = counter dm + 1 /\
     res (contract ext alias dm) = Resolved None)).
  { subst first. revert H1. rewrite deploy_unfold; cbv zeta.
    pose proof (contracts_resolved dm) as Hc.
    assert (Hct : forall m, res (contracts ext dm) = Resolved m ->
                  res (contract ext alias dm) = Resolved (m !! alias)).
    { intros m. unfold contract, bind, ret.
      destruct (contracts ext dm) as [[m'|e] d t]; simpl; [|discriminate].
      intros [= <-]. reflexivity. }
    destruct (res (contracts ext dm)) as [m|e] eqn:Erc; [|discriminate].
    destruct (Hc m eq_refl) as (Hcc & Hca & Hcn & Hem & _).
    specialize (Hct m eq_refl).
    destruct (m !! alias) as [existing|] eqn:Elook.
    - cbn [res final emitted]. intros [= <-]. left. exists m. rewrite Hem. auto.
    - pose proof (_deploy_resolved file args retries (final (contracts ext dm))) as Hd.
      destruct (res (_deploy ext file args retries (final (contracts ext dm))))
        as [c|e] eqn:Erd; [|discriminate].
      cbn [res final emitted]. intros [= <-]. right.
      destruct (Hd c eq_refl) as (Hd1 & Hd2 & Hd3 & Hd4).
      rewrite Hem, putAlias_final. cbn [app].
      cbn [counter cache contractsCache set_contractsCache set_cache].
      split; [reflexivity|]. split; [apply lookup_insert_eq|]. split; [exact Hd4|].
      split; [lia|exact Hct]. }
  (* the second call finds the alias *)
  assert (Hsecond : address c2 = address c1 /\ emitted second = [] /\
                    counter (final second) = counter (final first) /\
                    cache (final second) = cache (final first)).
  { subst second. revert H2. rewrite deploy_unfold; cbv zeta.
    pose proof (contracts_resolved (final first)) as Hc.
    destruct (res (contracts ext (final first))) as [m|e] eqn:Erc; [|discriminate].
    destruct (Hc m eq_refl) as (Hcc & Hca & Hcn & Hem & Hnone & Hsome).
    destruct Hfirst as [(m0 & Hm0 & Hl0 & _)|(Hn0 & Hal & _)].
    - rewrite (Hsome m0 Hm0), Hl0. cbn [res final emitted]. intros [= <-].
      repeat split; first [reflexivity|assumption].
    - rewrite (Hnone Hn0).
      assert (Hg : getContracts (cache (final first)) !! alias =
                   Some (MkContract (address c1)
                           (default (address c1)
                              (Proxies_getProxies (cache (final first)) !! address c1)))).
      { unfold getContracts. rewrite lookup_fmap, Hal. reflexivity. }
      rewrite Hg. cbn [res final emitted]. intros [= <-].
      repeat split; first [reflexivity|assumption]. }
  destruct Hsecond as (Ha & He & Hn & Hc).
  split; [exact Ha|]. split; [exact He|]. split; [rewrite He; reflexivity|].
  split; [exact Hn|]. split; [exact Hc|].
  split; [|split].
  - intros Hnone. destruct Hfirst as [(m0 & _ & _ & _ & _ & Hx)|(H3 & H4 & H5 & H6 & _)].
    + congruence.
    + repeat split; auto. lia.
  - intros c0 Hsome. destruct Hfirst as [(m0 & _ & _ & H3 & H4 & Hx)|(_ & _ & _ & _ & Hx)].
    + split; [congruence|auto].
    + congruence.
  - intros Hnone. destruct (Hfresh Hnone) as [Hres Hemit].
    rewrite He, app_nil_r, Hemit.
    pose proof (_deploy_constructs file args retries (final (contracts ext dm))) as Hd.
    cbv zeta in Hd. destruct Hd as (Hd1 & Hd2 & Hd3). rewrite Hres in Hd2.
    split; [exact Hd2|]. split; [exact Hd1|].
    intros c Hcon. destruct (Hd3 c Hcon) as [Hrc Hec].
    assert (c = c1) by congruence. subst c.
    rewrite Hec. split; reflexivity.
Qed.
End DeployFacts.

Section DeployScriptFacts.
Context {Hre Artifact DeployArgs DeploySpec : Type}.
Variable ext : Externals Hre Artifact DeployArgs DeploySpec.

Abbreviation DM := (@DeploymentManager Hre Artifact).

(** A crawl constructs nothing: it emits nothing and leaves the counter. *)
Lemma spider_frame (deployed : gmap string Contract) (dm : DM) :
  emitted (spider ext deployed dm) = [] /\
  counter (final (spider ext deployed dm)) = counter dm.
Proof.
  unfold spider, bind, get, external, modify, invalidateContractsCache, ret; simpl.
  destruct (Spider_spider ext _ _ _ _) as [[crawl|e] h']; simpl; auto.
Qed.

(** [runDeployScript], by cases on how its steps settle. *)
Lemma runDeployScript_unfold (deploySpec : DeploySpec) (dm : DM) :
  let crawl := spider ext ∅ dm in
  let deployScript := Cache_getFilePath ext (cache (final crawl)) "deploy.ts" in
  runDeployScript ext deploySpec dm =
  match res crawl with
  | Rejected e => MkRun (Rejected e) (final crawl) []
  | Resolved oldSpider =>
      match import_module ext deployScript with
      | Rejected e => MkRun (Rejected e) (final crawl) []
      | Resolved (Callable deployFn) =>
          let run := deployFn deploySpec (final crawl) in
          match res run with
          | Rejected e => MkRun (Rejected e) (final run) (EvDeployFn :: emitted run)
          | Resolved deployed =>
              let crawl' := spider ext deployed (final run) in
              match res crawl' with
              | Rejected e => MkRun (Rejected e) (final crawl') (EvDeployFn :: emitted run)
              | Resolved newSpider =>
                  MkRun (Resolved (MkDelta (counter dm, oldSpider)
                                           (counter (final run), newSpider)))
                        (final crawl') (EvDeployFn :: emitted run)
              end
          end
      | Resolved _ =>
          MkRun (Rejected (missingDeployFunction deployScript)) (final crawl) []
      end
  end.
Proof.
  cbv zeta. unfold runDeployScript.
  assert (Hsp : forall d (m : DM), emitted (spider ext d m) = []) by apply spider_frame.
  revert Hsp. generalize (spider ext). intros sp' Hsp.
  unfold bind, gets, throw, emit, ret; simpl.
  pose proof (Hsp ∅ dm) as H0.
  destruct (sp' ∅ dm) as [[oldSpider|e] d0 t0]; simpl in *; subst t0; [|reflexivity].
  destruct (import_module ext _) as [[| |deployFn]|e]; simpl; try reflexivity.
  destruct (deployFn deploySpec d0) as [[deployed|e] d1 t1]; simpl; [|reflexivity].
  pose proof (Hsp deployed d1) as H1.
  destruct (sp' deployed d1) as [[newSpider|e] d2 t2]; simpl in *; subst t2;
    rewrite ?app_nil_r; reflexivity.
Qed.

End DeployScriptFacts.

(** ** Worked examples on the ledger world *)

(** C1. A unit freshly applied during the run is to be verified. The code
    checks [isEnacted] again after the migration Solution has enacted the
    unit: the unit 1000_a, whose [enacted] reads the ledger, is not enacted
    before the run and is applied by the migration Solution ([enact] is
    called once); the verification Solution run next finds it enacted and
    does not call its [verify], although it defines one. *)
Lemma fresh_unit_not_verified :
  let first := migrationSolution ledgerHarness [tracked "1000_a" 7] freshLedger in
  let check := verifySolution (final first) in
  res first = Resolved tt /\ res check = Resolved tt /\
  emitted first = [CPrepare "1000_a" (Some 7); CIsEnacted "1000_a" (Some false);
                   CEnact "1000_a" 7] /\
  is_Some (verify (actions (tracked "1000_a" 7))) /\
  emitted check = [CIsEnacted "1000_a" (Some true)] /\
  count_verify "1000_a" (emitted check) = 0%nat.
Proof. vm_compute. repeat split; eauto. Qed.

(** C2, witness: two tracked units; a second pass calls no [enact] of 1000_a. *)
Lemma enact_at_most_once_witness :
  let l := [tracked "1000_b" 2; tracked "1000_a" 1] in
  let first := migrationSolution ledgerHarness l freshLedger in
  let second := migrationSolution ledgerHarness l (final first) in
  (count_enact "1000_a" (emitted first) <= 1)%nat /\
  count_enact "1000_a" (emitted second) = 0%nat.
Proof.
  intros l first second.
  assert (Hstay : forall (n x : string) (w : Ledger),
             is_applied n w = true ->
             is_applied n (MkLedger (gov_signers w) (x :: applied w)) = true).
  { intros n x w H. unfold is_applied in *; simpl. rewrite H. apply orb_true_r. }
  destruct (enact_at_most_once ledgerHarness l (tracked "1000_a" 1)
              (fun w => (Resolved (is_applied "1000_a" w), w))) with (ctx := freshLedger)
    as (_ & _ & H).
  - reflexivity.
  - intros u [<-|[<-|[]]]; simpl; intros E; [discriminate E|reflexivity].
  - intros a w _. unfold enacted_true; simpl. reflexivity.
  - unfold stable, preserves, enacted_true; simpl.
    repeat split; try (intros; assumption).
    + destruct H as [<-|[<-|[]]]; simpl; intros; assumption.
    + destruct H as [<-|[<-|[]]]; simpl; intros a w Hw;
        injection Hw as Hw; f_equal; apply Hstay, Hw.
    + destruct H as [<-|[<-|[]]]; simpl; intros; assumption.
  - right; left; reflexivity.
  - destruct (H eq_refl) as (H1 & _ & H2). split; [exact H1|exact H2].
Defined.

(** C10, witness: an untracked unit is enacted by both passes and verified. *)
Lemma unit_without_enacted_witness :
  let l := [untracked "1000_a" 1] in
  let first := migrationSolution ledgerHarness l freshLedger in
  let second := migrationSolution ledgerHarness l (final first) in
  let check := verifySolution (final first) in
  (2 <= count_enact "1000_a" (emitted first ++ emitted second))%nat /\
  (1 <= count_verify "1000_a" (emitted check))%nat.
Proof.
  intros l first second check.
  destruct (unit_without_enacted_is_always_enacted ledgerHarness l (untracked "1000_a" 1))
    with (ctx := freshLedger) as (_ & _ & H2 & H3).
  - reflexivity.
  - intros u [<-|[]] _. reflexivity.
  - left; reflexivity.
  - split; [apply H2; reflexivity|].
    apply H3; [eexists; reflexivity|reflexivity|reflexivity].
Defined.


(** C3, counterexample. With WITHOUT_MIGRATIONS unset (the setting that drops
    the empty subset) and an empty pool, [solve] still pushes the Solution of
    the empty subset: one Solution, where 2^0 - 1 is none. *)
Lemma empty_pool_keeps_empty_subset :
  length (solve ledgerHarness None ([] : list (Migration Ledger Z))) = 1%nat /\
  (2 ^ length ([] : list (Migration Ledger Z)) - 1)%nat = 0%nat.
Proof. split; reflexivity. Qed.

(** C3, on a pool of two units: three Solutions by default, four with
    WITHOUT_MIGRATIONS set. *)
Lemma one_solution_per_subset_witness :
  let pool := [tracked "1000_a" 1; tracked "1000_b" 2] in
  length (solve ledgerHarness None pool) = 3%nat /\
  length (solve ledgerHarness (Some "1"%string) pool) = 4%nat /\
  subsets pool = [[tracked "1000_b" 2; tracked "1000_a" 1]; [tracked "1000_a" 1];
                  [tracked "1000_b" 2]; []].
Proof.
  intros pool.
  destruct (one_solution_per_subset ledgerHarness None pool) as (_ & _ & _ & _ & _ & H3).
  destruct (one_solution_per_subset ledgerHarness (Some "1"%string) pool)
    as (_ & _ & _ & _ & _ & H4).
  split; [exact H3|]. split; [exact H4|reflexivity].
Defined.

(** ** Worked examples on the small runtime *)

(** C8, counterexample. The Solution prepares the unit 1000_a (artifact 7)
    and enacts it, and resolves; afterwards the manager has no artifact stored
    under the migration's name. *)
Lemma prepared_artifact_not_stored :
  let r := migrationSolution managerHarness [aliasing "1000_a" 7]
             (MkContext freshManager None) in
  res r = Resolved tt /\
  emitted r = [CPrepare "1000_a" (Some 7); CIsEnacted "1000_a" (Some false);
               CEnact "1000_a" 7] /\
  res (readArtifact (aliasing "1000_a" 7) (world (final r))) = Resolved None /\
  c_artifacts (cache (world (final r))) = ∅.
Proof. vm_compute. repeat split. Qed.

(** C8, witness: the units leave the artifact store alone, and so does the
    Solution. *)
Lemma artifact_handed_to_enact_witness :
  let r := migrationSolution managerHarness [aliasing "1000_a" 7]
             (MkContext freshManager None) in
  c_artifacts (cache (world (final r))) = ∅.
Proof.
  intros r.
  destruct (artifact_handed_to_enact_not_stored managerHarness bareRuntime
              (fun w => c_artifacts (cache w) = ∅) [aliasing "1000_a" 7]
              (MkContext freshManager None)) as (H & _).
  - unfold stable, preserves; simpl. repeat split; try (intros; assumption).
    + destruct H as [<-|[]]; simpl; intros; assumption.
    + destruct H as [<-|[]]; simpl; intros; assumption.
    + destruct H as [<-|[]]; simpl; intros; assumption.
  - reflexivity.
  - exact H.
Defined.

(** C5, witness: on the runtime whose first two constructions fail, the first
    [deploy] of comet constructs it (on the third try) and counts it; the
    second returns the handle at the same address and constructs nothing: one
    contract constructed over both calls. On the runtime that no longer fails,
    the two calls make one construction between them, asked once. *)
Lemma deploy_twice_witness :
  let first := deploy bareRuntime "comet" "Comet.sol" tt false None freshManager in
  let second := deploy bareRuntime "comet" "Comet.sol" tt false None (final first) in
  let steady := deploy bareRuntime "comet" "Comet.sol" tt false None steadyManager in
  let again := deploy bareRuntime "comet" "Comet.sol" tt false None (final steady) in
  (res first = Resolved (MkContract "0xComet.sol" "0xComet.sol") /\
   res second = Resolved (MkContract "0xComet.sol" "0xComet.sol") /\
   constructions (emitted second) = 0%nat /\
   counter (final first) = 1 /\ counter (final second) = 1 /\
   constructed (emitted first ++ emitted second) = 1%nat) /\
  (constructions (emitted steady ++ emitted again) = 1%nat /\
   constructed (emitted steady ++ emitted again) = 1%nat /\
   counter (final again) = 1).
Proof.
  intros first second steady again. split.
  - destruct (deploy_twice_constructs_once bareRuntime "comet" "Comet.sol" "Comet.sol" tt tt
                None None freshManager
                (MkContract "0xComet.sol" "0xComet.sol")
                (MkContract "0xComet.sol" "0xComet.sol"))
      as (_ & _ & Hnone & _ & _ & Hfresh & _ & Hone).
    + reflexivity.
    + reflexivity.
    + destruct (Hfresh eq_refl) as (_ & H1 & _ & _ & H2).
      destruct (Hone eq_refl) as (H3 & _).
      split; [reflexivity|]. split; [reflexivity|]. split; [exact Hnone|].
      split; [exact H1|]. split; [exact H2|exact H3].
  - destruct (deploy_twice_constructs_once bareRuntime "comet" "Comet.sol" "Comet.sol" tt tt
                None None steadyManager
                (MkContract "0xComet.sol" "0xComet.sol")
                (MkContract "0xComet.sol" "0xComet.sol"))
      as (_ & _ & _ & _ & _ & Hfresh & _ & Hone).
    + reflexivity.
    + reflexivity.
    + destruct (Hfresh eq_refl) as (_ & _ & _ & _ & H2).
      destruct (Hone eq_refl) as (H3 & _ & H4).
      destruct (H4 (MkContract "0xComet.sol" "0xComet.sol") eq_refl) as (H5 & _).
      split; [exact H5|]. split; [exact H3|exact H2].
Defined.

(** C6, witness: the construction of Comet.sol fails twice and then succeeds:
    three tries, waits of 250 and 500 ms; and a call that exceeds its time
    limit of 500 ms on the first try is tried again after 250 ms. *)
Lemma retry_backoff_witness :
  let r := retry_call (construct bareRuntime "Comet.sol" tt) None None None freshManager in
  let slow := retry slowOnce 5 (Some 500) 250 freshManager in
  (res r = Resolved (MkContract "0xComet.sol" "0xComet.sol") /\
   attempts (emitted r) = 3%nat /\ sleeps (emitted r) = [250; 500]) /\
  (res slow = Resolved 1 /\ attempts (emitted slow) = 2%nat /\
   sleeps (emitted slow) = [250]).
Proof.
  intros r slow. split.
  - destruct (retry_backoff_and_rethrow (construct bareRuntime "Comet.sol" tt) None
                (construct_quiet bareRuntime "Comet.sol" tt) freshManager)
      as (_ & _ & H & _).
    destruct (H "transient"%string "transient"%string
                (MkContract "0xComet.sol" "0xComet.sol") eq_refl eq_refl eq_refl)
      as (H1 & H2 & H3 & _).
    split; [exact H1|]. split; [exact H2|exact H3].
  - assert (Hq : quiet slowOnce) by (intros dm; reflexivity).
    destruct (retry_backoff_and_rethrow slowOnce (Some 500) Hq freshManager)
      as (_ & _ & _ & H).
    destruct (H 500 4%nat 250 eq_refl) as (_ & H1 & H2 & H3); [reflexivity|].
    unfold slow. split; [rewrite H1; reflexivity|]. split; [rewrite H2; reflexivity|].
    rewrite H3; reflexivity.
Defined.


(** * Further properties of the migration constraints *)

Section CallFacts.
Context {Artifact : Type}.

Lemma checked_app (t1 t2 : list (Call Artifact)) :
  checked (t1 ++ t2) = checked t1 ++ checked t2.
Proof. unfold checked. apply omap_app. Qed.

Lemma pass_trace_enacts (t : list (Call Artifact)) :
  pass_trace t ->
  enacts t = unenacted t /\ sublist (enacts t) (prepared t) /\ verified t = [] /\
  sublist (checked t) (prepared t).
Proof.
  induction 1 as [| | | n a t Ht (IH1 & IH2 & IH3 & IH4) | n a t Ht (IH1 & IH2 & IH3 & IH4)];
    cbn; repeat split; try constructor; try apply sublist_nil_l; auto.
  f_equal. exact IH1.
Qed.

Lemma verify_trace_reading (t : list (Call Artifact)) :
  verify_trace t ->
  prepared t = [] /\ enacts t = [] /\ verified t = unenacted t /\
  sublist (verified t) (checked t).
Proof.
  induction 1 as [| | n t Ht (IH1 & IH2 & IH3 & IH4) | n t Ht (IH1 & IH2 & IH3 & IH4)];
    cbn; repeat split; try constructor; auto.
  f_equal. exact IH3.
Qed.
Lemma pass_trace_length (t : list (Call Artifact)) :
  pass_trace t -> checked t = prepared t ->
  length t = (2 * length (prepared t) + length (enacts t))%nat.
Proof.
  induction 1 as [| | | n a t Ht IH | n a t Ht IH]; cbn; intros Hc.
  - reflexivity.
  - discriminate.
  - reflexivity.
  - apply (f_equal tail) in Hc. cbn in Hc. specialize (IH Hc). unfold prepared, enacts in IH. lia.
  - apply (f_equal tail) in Hc. cbn in Hc. specialize (IH Hc). unfold prepared, enacts in IH. lia.
Qed.
End CallFacts.

Section WalkFacts.
Context {World Artifact : Type} (h : Harness World).

Abbreviation Unit := (Migration World Artifact).
Abbreviation Ctx := (@Context World Artifact).

(** A walk that resolves has checked every unit it prepared. *)
Lemma walk_checked (ls : list Unit) (ctx : Ctx) :
  let r := for_of ls runMigration ctx in
  res r = Resolved tt -> checked (emitted r) = map name ls.
Proof.
  cbv zeta. revert ctx; induction ls as [|m ls IH]; intros ctx; [reflexivity|].
  rewrite for_of_cons.
  pose proof (runMigration_cases m ctx) as Hc; simpl in Hc.
  destruct (prepare (actions m) (world ctx)) as [[a|e] w1]; simpl in Hc.
  2:{ rewrite Hc; simpl. discriminate. }
  destruct (isEnacted (actions m) w1) as [[[|]|e] w2]; simpl in Hc.
  - rewrite Hc; simpl. intros Hr. rewrite (IH _ Hr). reflexivity.
  - destruct (enact (actions m) a w2) as [[[]|e] w3]; rewrite Hc; simpl.
    + intros Hr. rewrite (IH _ Hr). reflexivity.
    + discriminate.
  - rewrite Hc; simpl. discriminate.
Qed.

(** The walk changes a reading of the world that its units keep in no way. *)
Lemma walk_keeps {B} (view : World -> B) (ls : list Unit) :
  (forall u, In u ls ->
     keeps view (prepare (actions u)) /\
     (forall a, keeps view (enact (actions u) a)) /\
     keeps view (isEnacted (actions u))) ->
  forall ctx : Ctx, view (world (final (for_of ls runMigration ctx))) = view (world ctx).
Proof.
  induction ls as [|u ls IH]; intros Hunits ctx; [reflexivity|].
  assert (Hls : forall u0, In u0 ls ->
            keeps view (prepare (actions u0)) /\
            (forall a, keeps view (enact (actions u0) a)) /\
            keeps view (isEnacted (actions u0)))
    by (intros; apply Hunits; right; assumption).
  specialize (IH Hls).
  destruct (Hunits u (or_introl eq_refl)) as (Hprep & Henact & Hcheck).
  rewrite for_of_cons.
  pose proof (runMigration_cases u ctx) as Hc; simpl in Hc.
  pose proof (Hprep (world ctx)) as H1.
  destruct (prepare (actions u) (world ctx)) as [[a|e] w1]; simpl in Hc, H1.
  2:{ rewrite Hc; exact H1. }
  pose proof (Hcheck w1) as H2.
  destruct (isEnacted (actions u) w1) as [[[|]|e] w2]; simpl in Hc, H2.
  - rewrite Hc; simpl. rewrite IH; simpl. congruence.
  - pose proof (Henact a w2) as H3.
    destruct (enact (actions u) a w2) as [[[]|e] w3]; rewrite Hc; simpl in *.
    + rewrite IH; simpl. congruence.
    + congruence.
  - rewrite Hc; simpl. congruence.
Qed.

(** X12. The proposer is put in front of the governance manager's signers
    before the walk and taken off after it, but only when the walk resolves.
    Provided the units' [prepare], [enacted] and [enact] leave those signers
    alone, and counting from the signers as the impersonation of the proposer
    left them: a migration Solution that resolves leaves exactly those
    signers, and one that rejects during the walk leaves the proposer in front
    of them, with the sorted list recorded on the context. Those are the
    signers from before the Solution only if [getCompWhales] and
    [impersonateAddress] added none: a signer that the impersonation adds to
    the manager stays after the Solution. When the whales or the
    impersonation reject, nothing is prepared and the recorded migrations are
    as before. *)
Theorem proposer_stays_after_rejection (sig : World -> list Signer) (l : list Unit)
    (ctx : Ctx) :
  reads_signers h sig l ->
  let r := migrationSolution h l ctx in
  let base := sig (after_setup h ctx) in
  match walk_start h l ctx with
  | inl (e, ctx') =>
      r = MkRun (Rejected e) ctx' [] /\ migrations ctx' = migrations ctx
  | inr ctx0 =>
      exists proposer,
        sig (world ctx0) = proposer :: base /\
        (res r = Resolved tt -> sig (world (final r)) = base) /\
        (forall e, res r = Rejected e ->
           sig (world (final r)) = proposer :: base /\
           head (sig (world (final r))) = Some proposer /\
           migrations (final r) = Some (Array_sort (compareNames h) l)) /\
        (keeps sig (getCompWhales h) -> (forall a, keeps sig (impersonateAddress h a)) ->
         base = sig (world ctx)) /\
        (forall added, base = sig (world ctx) ++ added -> res r = Resolved tt ->
           sig (world (final r)) = sig (world ctx) ++ added)
  end.
Proof.
  intros (Hun & Hsh & Hunits) r base. subst r base.
  rewrite migrationSolution_unfold.
  assert (Hsorted : forall u, In u (Array_sort (compareNames h) l) ->
            keeps sig (prepare (actions u)) /\
            (forall a, keeps sig (enact (actions u) a)) /\
            keeps sig (isEnacted (actions u)))
    by (intros u Hu; apply Hunits; apply Array_sort_In in Hu; exact Hu).
  pose proof (walk_keeps sig _ Hsorted) as Hwalk.
  pose proof (walk_keeps_migrations (Array_sort (compareNames h) l)) as Hmig.
  unfold walk_start, after_setup.
  assert (Hg : keeps sig (getCompWhales h) ->
               sig (snd (getCompWhales h (world ctx))) = sig (world ctx))
    by (intros H; apply H).
  destruct (getCompWhales h (world ctx)) as [[whales|e] w1]; simpl in *; [|auto].
  assert (Hi : (forall a, keeps sig (impersonateAddress h a)) ->
               sig (snd (impersonateAddress h (head whales) w1)) = sig w1)
    by (intros H; apply H).
  destruct (impersonateAddress h (head whales) w1) as [[proposer|e] w2]; simpl in *.
  2:{ split; reflexivity. }
  exists proposer.
  set (ctx0 := MkContext (signers_unshift h proposer w2) _).
  specialize (Hwalk ctx0). specialize (Hmig ctx0).
  assert (H0 : sig (world ctx0) = proposer :: sig w2)
    by (subst ctx0; simpl; apply Hun).
  split; [exact H0|].
  assert (Hkept : keeps sig (getCompWhales h) -> (forall a, keeps sig (impersonateAddress h a)) ->
                  sig w2 = sig (world ctx))
    by (intros Hk1 Hk2; rewrite (Hi Hk2); apply Hg, Hk1).
  destruct (for_of _ runMigration ctx0) as [[[]|e] c t]; simpl in *.
  - assert (Hres : sig (signers_shift h (world c)) = sig w2)
      by (rewrite Hsh, Hwalk, H0; reflexivity).
    split; [intros _; exact Hres|]. split; [discriminate|]. split; [exact Hkept|].
    intros added Hadd _. rewrite Hres. exact Hadd.
  - split; [discriminate|]. split.
    + intros e0 _. rewrite Hwalk, H0.
      split; [reflexivity|]. split; [reflexivity|exact Hmig].
    + split; [exact Hkept|]. intros added _. discriminate.
Qed.

(** X14. Whatever the comparator, a migration Solution that resolves has
    prepared and checked every unit of its subset exactly once: the names
    prepared are the names of the subset, rearranged, and the names checked
    are the names prepared. In every run, [enact] is called for exactly the
    units whose check said "not enacted", in that order, [verify] is never
    called, and no unit is checked or enacted without being prepared. *)
Theorem solution_prepares_each_unit_once (l : list Unit) (ctx : Ctx) :
  let t := emitted (migrationSolution h l ctx) in
  enacts t = unenacted t /\
  sublist (enacts t) (prepared t) /\
  sublist (checked t) (prepared t) /\
  verified t = [] /\
  (length (prepared t) <= length l)%nat /\
  (res (migrationSolution h l ctx) = Resolved tt ->
     Permutation (prepared t) (map name l) /\
     checked t = prepared t /\
     length t = (2 * length l + length (enacts t))%nat).
Proof.
  intros t.
  destruct (pass_trace_enacts t (migrationSolution_pass_trace h l ctx))
    as (H1 & H2 & H3 & H4).
  split; [exact H1|]. split; [exact H2|]. split; [exact H4|]. split; [exact H3|].
  subst t. rewrite migrationSolution_unfold.
  destruct (walk_start h l ctx) as [[e c]|c0]; cbn [res emitted].
  { split; [simpl; lia|discriminate]. }
  pose proof (walk_prepared (Array_sort (compareNames h) l) c0) as Hp.
  pose proof (walk_checked (Array_sort (compareNames h) l) c0) as Hc.
  pose proof (walk_pass_trace (Array_sort (compareNames h) l) c0) as Ht.
  cbv zeta in Hp, Hc. destruct Hp as ((rest & Hpre) & Hall).
  assert (Hlen : length (map name (Array_sort (compareNames h) l)) = length l)
    by (rewrite length_map; apply Permutation_length, Array_sort_perm).
  assert (Hle : (length (prepared (emitted (for_of (Array_sort (compareNames h) l)
                                             runMigration c0))) <= length l)%nat).
  { rewrite <- Hlen, Hpre, length_app. lia. }
  destruct (for_of _ runMigration c0) as [[[]|e] c t]; cbn [res final emitted] in *.
  - split; [exact Hle|]. intros _. rewrite (Hall eq_refl), (Hc eq_refl).
    split; [apply Permutation_map, Array_sort_perm|]. split; [reflexivity|].
    specialize (Hall eq_refl). specialize (Hc eq_refl). rewrite <- Hlen, <- Hall.
    apply pass_trace_length; [exact Ht|congruence].
  - split; [exact Hle|discriminate].
Qed.

Lemma walk_verify_checked (ls : list Unit) (ctx : Ctx) :
  let r := for_of ls verifyMigration ctx in
  (exists rest, map name (List.filter has_verify ls) = checked (emitted r) ++ rest) /\
  (res r = Resolved tt -> checked (emitted r) = map name (List.filter has_verify ls)) /\
  migrations (final r) = migrations ctx.
Proof.
  cbv zeta. revert ctx; induction ls as [|m ls IH]; intros ctx.
  { split; [exists []; reflexivity|]. split; reflexivity. }
  rewrite for_of_cons.
  pose proof (verifyMigration_cases m ctx) as Hc; simpl in Hc.
  cbn [List.filter].
  assert (Hv : has_verify m = match verify (actions m) with Some _ => true | None => false end)
    by reflexivity.
  destruct (verify (actions m)) as [verify_fn|]; rewrite Hv; clear Hv.
  2:{ rewrite Hc; simpl. apply IH. }
  destruct (isEnacted (actions m) (world ctx)) as [[[|]|e] w1]; simpl in Hc.
  - rewrite Hc; cbn [res final emitted]. rewrite checked_app.
    destruct (IH (set_world w1 ctx)) as ((rest & Hpre) & Hall & Hm).
    split; [exists rest; cbn; rewrite Hpre; reflexivity|].
    split; [intros Hr; cbn; rewrite (Hall Hr); reflexivity|exact Hm].
  - destruct (verify_fn w1) as [[[]|e] w2]; rewrite Hc; cbn [res final emitted fst snd].
    + rewrite checked_app.
      destruct (IH (set_world w2 (set_world w1 ctx))) as ((rest & Hpre) & Hall & Hm).
      split; [exists rest; cbn; rewrite Hpre; reflexivity|].
      split; [intros Hr; cbn; rewrite (Hall Hr); reflexivity|exact Hm].
    + split; [eexists; cbn; reflexivity|]. split; [discriminate|reflexivity].
  - rewrite Hc; cbn [res final emitted].
    split; [eexists; cbn; reflexivity|]. split; [discriminate|reflexivity].
Qed.

(** X13. The verification Solution only checks and verifies. On a context
    with no recorded migrations it does nothing. Otherwise it walks the
    recorded list and checks [isEnacted] only for the units that define
    [verify], in the recorded order, stopping at the first rejection: when it
    resolves, it checked every such unit once. It prepares and enacts
    nothing, calls [verify] for exactly the units whose check said "not
    enacted", and leaves the recorded list as it was. *)
Theorem verifySolution_checks_only_verifiable (ctx : Ctx) :
  let r := @verifySolution World Artifact ctx in
  (migrations ctx = None -> r = MkRun (Resolved tt) ctx []) /\
  migrations (final r) = migrations ctx /\
  prepared (emitted r) = [] /\ enacts (emitted r) = [] /\
  verified (emitted r) = unenacted (emitted r) /\
  sublist (verified (emitted r)) (checked (emitted r)) /\
  (forall recorded, migrations ctx = Some recorded ->
     (exists rest,
        map name (List.filter has_verify recorded) = checked (emitted r) ++ rest) /\
     (res r = Resolved tt ->
        checked (emitted r) = map name (List.filter has_verify recorded))).
Proof.
  intros r.
  destruct (verify_trace_reading (emitted r) (verifySolution_trace ctx))
    as (H1 & H2 & H3 & H4).
  split; [|split; [|split; [exact H1|split; [exact H2|split; [exact H3|split; [exact H4|]]]]]].
  - intros Hn. subst r. unfold verifySolution, bind, get, ret; simpl. rewrite Hn. reflexivity.
  - subst r. unfold verifySolution, bind, get; simpl.
    destruct (migrations ctx) as [recorded|] eqn:Em; [|simpl; congruence].
    destruct (walk_verify_checked recorded ctx) as (_ & _ & Hm).
    destruct (for_of recorded verifyMigration ctx) as [[[]|e] c t]; simpl in *; congruence.
  - intros recorded Hrec. subst r. unfold verifySolution, bind, get; simpl. rewrite Hrec.
    destruct (walk_verify_checked recorded ctx) as (Hpre & Hall & _).
    destruct (for_of recorded verifyMigration ctx) as [[[]|e] c t]; simpl in *;
      rewrite ?app_nil_r; split; auto.
Qed.
End WalkFacts.

(** * Further properties of the deployment manager *)

Section DeployMore.
Context {Hre Artifact DeployArgs DeploySpec : Type}.
Variable ext : Externals Hre Artifact DeployArgs DeploySpec.

Abbreviation DM := (@DeploymentManager Hre Artifact).

(** [contracts()] never touches the registry or the counter and emits
    nothing, however it settles. *)
Lemma contracts_frame (dm : DM) :
  cache (final (contracts ext dm)) = cache dm /\
  counter (final (contracts ext dm)) = counter dm /\
  emitted (contracts ext dm) = [].
Proof.
  unfold contracts, bind, get; simpl.
  destruct (contractsCache dm) as [m|]; [repeat split|].
  destruct (getSigner_frame ext dm) as (Hc & Hn & _ & Ht).
  destruct (getSigner ext dm) as [[s|e] d t]; simpl in *; subst t; auto.
Qed.

(** A [_deploy] that rejects has counted nothing. *)
Lemma _deploy_rejected (contractFile : string) (deployArgs : DeployArgs)
    (retries : option nat) (dm : DM) (e : exn) :
  res (_deploy ext contractFile deployArgs retries dm) = Rejected e ->
  same_registry dm (final (_deploy ext contractFile deployArgs retries dm)).
Proof.
  rewrite _deploy_unfold; cbv zeta.
  pose proof (retry_frame (construct ext contractFile deployArgs) None
                (construct_frame ext contractFile deployArgs)
                (default 5%nat retries) 250 dm) as Hf.
  destruct (retry _ _ None _ dm) as [[v|e'] d t]; cbn [res final emitted] in *;
    [discriminate|]. intros _. exact Hf.
Qed.

(** X1. [deploy] with [force] constructs anew whether or not the alias
    resolves: when it resolves to [c], at least one construction was made, the
    counter went up by one, the alias now maps to the address of [c] (the
    other aliases are as before), the cache of handles is empty, and
    [contract(alias)] afterwards finds a handle at that address. *)
Theorem deploy_force_redeploys (alias : Alias) (file : string) (args : DeployArgs)
    (retries : option nat) (dm : DM) (c : Contract) :
  let r := deploy ext alias file args true retries dm in
  res r = Resolved c ->
  (1 <= constructions (emitted r))%nat /\
  counter (final r) = counter dm + 1 /\
  Aliases_getAliases (cache (final r)) !! alias = Some (address c) /\
  (forall other, other <> alias ->
     Aliases_getAliases (cache (final r)) !! other = Aliases_getAliases (cache dm) !! other) /\
  contractsCache (final r) = None /\
  (forall found, res (contract ext alias (final r)) = Resolved found ->
     address <$> found = Some (address c)).
Proof.
  intros r. subst r. rewrite deploy_unfold; cbv zeta.
  destruct (contracts_frame dm) as (Hcc & Hcn & Hem).
  destruct (res (contracts ext dm)) as [m|e]; [|discriminate].
  assert (Hsame : (match m !! alias with
                   | Some _ | None =>
                       match res (_deploy ext file args retries (final (contracts ext dm))) with
                       | Resolved c0 =>
                           MkRun (Resolved c0)
                             (final (putAlias alias (address c0)
                                       (final (_deploy ext file args retries
                                                 (final (contracts ext dm))))))
                             (emitted (contracts ext dm) ++
                              emitted (_deploy ext file args retries
                                         (final (contracts ext dm))))
                       | Rejected e =>
                           MkRun (Rejected e)
                             (final (_deploy ext file args retries (final (contracts ext dm))))
                             (emitted (contracts ext dm) ++
                              emitted (_deploy ext file args retries
                                         (final (contracts ext dm))))
                       end
                   end) =
                  match res (_deploy ext file args retries (final (contracts ext dm))) with
                  | Resolved c0 =>
                      MkRun (Resolved c0)
                        (final (putAlias alias (address c0)
                                  (final (_deploy ext file args retries
                                            (final (contracts ext dm))))))
                        (emitted (contracts ext dm) ++
                         emitted (_deploy ext file args retries (final (contracts ext dm))))
                  | Rejected e =>
                      MkRun (Rejected e)
                        (final (_deploy ext file args retries (final (contracts ext dm))))
                        (emitted (contracts ext dm) ++
                         emitted (_deploy ext file args retries (final (contracts ext dm))))
                  end) by (destruct (m !! alias); reflexivity).
  rewrite Hsame. clear Hsame.
  pose proof (_deploy_resolved ext file args retries (final (contracts ext dm))) as Hd.
  destruct (res (_deploy ext file args retries (final (contracts ext dm)))) as [c0|e];
    [|discriminate].
  cbn [res final emitted]. intros [= ->].
  destruct (Hd c eq_refl) as (Hd1 & Hd2 & Hd3 & Hd4).
  rewrite Hem, putAlias_final. cbn [app].
  cbn [counter cache contractsCache set_contractsCache set_cache].
  split; [exact Hd4|]. split; [lia|].
  split; [apply lookup_insert_eq|].
  split.
  { intros other Hne. unfold Aliases_getAliases, Aliases_putAlias; cbn [c_aliases].
    rewrite lookup_insert_ne by congruence. rewrite Hd1, Hcc. reflexivity. }
  split; [reflexivity|].
  intros found. unfold contract, bind, ret.
  set (dm' := set_contractsCache None _).
  pose proof (contracts_rebuilds ext dm') as Hr.
  destruct (contracts ext dm') as [[m'|e'] d' t']; cbn [res final emitted] in *;
    [|discriminate].
  intros [= <-]. destruct (Hr m' eq_refl eq_refl) as (-> & _).
  unfold getContracts. rewrite lookup_fmap. subst dm'.
  cbn [cache set_contractsCache set_cache].
  unfold Aliases_getAliases, Aliases_putAlias; cbn [c_aliases].
  rewrite lookup_insert_eq. reflexivity.
Qed.

(** X2. A [deploy] that rejects has stored nothing: the registry and the
    counter are as before the call, so the alias resolves (or not) as it
    did. *)
Theorem deploy_rejected_stores_nothing (alias : Alias) (file : string) (args : DeployArgs)
    (force : bool) (retries : option nat) (dm : DM) (e : exn) :
  let r := deploy ext alias file args force retries dm in
  res r = Rejected e ->
  cache (final r) = cache dm /\ counter (final r) = counter dm /\
  getContracts (cache (final r)) !! alias = getContracts (cache dm) !! alias.
Proof.
  intros r. subst r. rewrite deploy_unfold; cbv zeta.
  destruct (contracts_frame dm) as (Hcc & Hcn & Hem).
  assert (Hgoal : forall d : DM, cache d = cache dm -> counter d = counter dm ->
            cache d = cache dm /\ counter d = counter dm /\
            getContracts (cache d) !! alias = getContracts (cache dm) !! alias).
  { intros d -> ->. auto. }
  destruct (res (contracts ext dm)) as [m|e0]; cbn [res final emitted].
  2:{ intros _. apply Hgoal; assumption. }
  pose proof (_deploy_rejected file args retries (final (contracts ext dm))) as Hrej.
  destruct (m !! alias) as [found|]; [destruct force|]; cbn [res final emitted];
    try discriminate;
    destruct (res (_deploy ext file args retries (final (contracts ext dm)))) as [c0|e1];
    cbn [res final emitted]; try discriminate; intros _;
    destruct (Hrej e1 eq_refl) as (H1 & H2 & _); apply Hgoal; congruence.
Qed.


(** X4. [getSigners()] asks the runtime for signers only while the manager
    has none: once it resolved to a non-empty list, the next call resolves to
    the same list without touching the manager or the runtime; while the
    runtime lists no signer, nothing is kept and every call asks again. *)
Theorem getSigners_asks_until_some (dm : DM) (l : list Signer) :
  res (getSigners ext dm) = Resolved l ->
  let dm1 := final (getSigners ext dm) in
  _signers dm1 = l /\
  (l <> [] -> getSigners ext dm1 = MkRun (Resolved l) dm1 []) /\
  (l = [] ->
     res (getSigners ext dm1) =
     match fst (ethers_getSigners ext (hre dm1)) with
     | Resolved raw => Resolved (map getManagedSigner raw)
     | Rejected e => Rejected e
     end).
Proof.
  unfold getSigners at 1 2. unfold bind, get, external, modify, gets; simpl.
  destruct (bool_decide (0 < length (_signers dm))%nat) eqn:Eb; simpl.
  - intros [= <-]. split; [reflexivity|]. split.
    + intros _. unfold getSigners, bind, get, ret; simpl. rewrite Eb. reflexivity.
    + intros E. rewrite E in Eb. discriminate.
  - destruct (ethers_getSigners ext (hre dm)) as [[raw|e] h'] eqn:Er; simpl; [|discriminate].
    intros [= <-]. split; [reflexivity|]. split.
    + intros Hne. unfold getSigners, bind, get, ret; simpl.
      destruct (map getManagedSigner raw) as [|s rest] eqn:El; [congruence|]. reflexivity.
    + intros E. unfold getSigners, bind, get, external, modify, gets; simpl. rewrite E; simpl.
      destruct (ethers_getSigners ext h') as [[raw'|e'] h'']; reflexivity.
Qed.
End DeployMore.

Section SignerFacts.
Context {Hre Artifact DeployArgs DeploySpec BuildFile : Type}.
Variable ext : Externals Hre Artifact DeployArgs DeploySpec.
Variable imp : Imports Hre Artifact DeployArgs BuildFile.

Abbreviation DM := (@DeploymentManager Hre Artifact).

Lemma getSignerAt_address (a : Address) (dm : DM) :
  a <> ""%string ->
  getSignerAt ext imp (Some a) dm =
  match find (same_address imp a) (_signers dm) with
  | Some signer => MkRun (Resolved (Some signer)) dm []
  | None =>
      match fst (ethers_getSigner imp a (hre dm)) with
      | Resolved raw =>
          MkRun (Resolved (Some (getManagedSigner raw)))
                (set_signers (_signers dm ++ [getManagedSigner raw])
                   (set_hre (snd (ethers_getSigner imp a (hre dm))) dm))
                []
      | Rejected e =>
          MkRun (Rejected e) (set_hre (snd (ethers_getSigner imp a (hre dm))) dm) []
      end
  end.
Proof.
  intros Ha. destruct a as [|ch a]; [congruence|].
  unfold getSignerAt, bind, get, external, modify, ret; simpl.
  destruct (find _ (_signers dm)); [reflexivity|].
  destruct (ethers_getSigner imp _ (hre dm)) as [[raw|e] h']; reflexivity.
Qed.

(** X5. [getSigner(address)] returns the managed signer whose address matches
    up to letter case, without touching the manager or the runtime; when none
    matches it asks the runtime, appends the new managed signer at the end of
    the signers (the signers before it keep their place, and the registry,
    the counter and the handles are untouched), and a rejection of the
    runtime leaves the signers as they were. With no address, or the empty
    string, it is [getSigner()]. *)
Theorem getSigner_reuses_or_appends (a : Address) (dm : DM) :
  a <> ""%string ->
  let r := getSignerAt ext imp (Some a) dm in
  (forall s, find (same_address imp a) (_signers dm) = Some s ->
     r = MkRun (Resolved (Some s)) dm [] /\ In s (_signers dm) /\
     String_toLowerCase imp (signerAddress s) = String_toLowerCase imp a) /\
  (find (same_address imp a) (_signers dm) = None ->
     match fst (ethers_getSigner imp a (hre dm)) with
     | Resolved raw =>
         res r = Resolved (Some (getManagedSigner raw)) /\
         _signers (final r) = _signers dm ++ [getManagedSigner raw] /\
         (_signers dm <> [] -> head (_signers (final r)) = head (_signers dm)) /\
         same_registry dm (final r)
     | Rejected e =>
         res r = Rejected e /\ _signers (final r) = _signers dm /\
         same_registry dm (final r)
     end) /\
  getSignerAt ext imp None dm = getSigner ext dm /\
  getSignerAt ext imp (Some ""%string) dm = getSigner ext dm.
Proof.
  intros Ha r. subst r. rewrite (getSignerAt_address a dm Ha).
  split; [|split; [|split; reflexivity]].
  - intros s Hs. rewrite Hs. split; [reflexivity|].
    apply find_some in Hs as [Hin Heq]. split; [exact Hin|].
    apply String.eqb_eq. exact Heq.
  - intros Hnone. rewrite Hnone.
    destruct (ethers_getSigner imp a (hre dm)) as [[raw|e] h']; simpl.
    + repeat split. intros Hne. destruct (_signers dm); [congruence|reflexivity].
    + repeat split.
Qed.

(** X6. On a manager without signers, [getSigner(address)] makes the signer
    of that address the only one: [getSigners()] afterwards resolves to it
    alone, and [getSigner()] to it, without asking the runtime for its
    signers. A second [getSigner(address)] returns the same signer and adds
    none, when the runtime reports the address up to letter case. *)
Theorem getSigner_by_address_first (a : Address) (raw : Address) (dm : DM) :
  a <> ""%string ->
  _signers dm = [] ->
  fst (ethers_getSigner imp a (hre dm)) = Resolved raw ->
  let dm1 := final (getSignerAt ext imp (Some a) dm) in
  getSigners ext dm1 = MkRun (Resolved [getManagedSigner raw]) dm1 [] /\
  getSigner ext dm1 = MkRun (Resolved (Some (getManagedSigner raw))) dm1 [] /\
  (String_toLowerCase imp raw = String_toLowerCase imp a ->
   getSignerAt ext imp (Some a) dm1 = MkRun (Resolved (Some (getManagedSigner raw))) dm1 []).
Proof.
  intros Ha Hempty Hraw dm1. subst dm1.
  rewrite (getSignerAt_address a dm Ha), Hempty. cbn [find]. rewrite Hraw.
  cbn [final app].
  set (dm1 := set_signers _ _).
  assert (Hs : _signers dm1 = [getManagedSigner raw]) by reflexivity.
  assert (H1 : getSigners ext dm1 = MkRun (Resolved [getManagedSigner raw]) dm1 []).
  { unfold getSigners, bind, get, ret; simpl. reflexivity. }
  split; [exact H1|]. split.
  - unfold getSigner, bind, ret. rewrite H1. reflexivity.
  - intros Hcase. rewrite (getSignerAt_address a dm1 Ha), Hs. cbn [find].
    unfold same_address; cbn [signerAddress getManagedSigner].
    rewrite Hcase, String.eqb_refl. reflexivity.
Qed.
End SignerFacts.

Section CloneFacts.
Context {Hre Artifact DeployArgs DeploySpec BuildFile : Type}.
Variable ext : Externals Hre Artifact DeployArgs DeploySpec.
Variable imp : Imports Hre Artifact DeployArgs BuildFile.
Variable config : ImportConfig.

Abbreviation DM := (@DeploymentManager Hre Artifact).

Lemma import_frame (addr : Address) (network' : option string) (dm : DM) :
  same_registry dm (final (import imp config addr network' dm)) /\
  emitted (import imp config addr network' dm) = [] /\
  _signers (final (import imp config addr network' dm)) = _signers dm.
Proof. unfold import, bind, get, external; simpl. repeat split. Qed.

Lemma constructBuild_frame (buildFile : BuildFile) (deployArgs : DeployArgs) (dm : DM) :
  same_registry dm (final (constructBuild ext imp buildFile deployArgs dm)).
Proof.
  unfold constructBuild, deployOpts, bind, gets, emit, external, ret; simpl.
  destruct (getSigner_frame ext dm) as (Hc & Hn & Hcc & _).
  destruct (getSigner ext dm) as [[s|e] d t]; simpl in *; [|repeat split; auto].
  destruct (Deploy_deployBuild imp _ _ _ _) as [[c'|e] h']; simpl; repeat split; auto.
Qed.

Lemma _deployBuild_unfold (buildFile : BuildFile) (deployArgs : DeployArgs)
    (retries : option nat) (dm : DM) :
  let r := retry (constructBuild ext imp buildFile deployArgs) (default 5%nat retries)
             None 250 dm in
  _deployBuild ext imp buildFile deployArgs retries dm =
  match res r with
  | Resolved c => MkRun (Resolved c) (set_counter (counter (final r) + 1) (final r)) (emitted r)
  | Rejected e => MkRun (Rejected e) (final r) (emitted r)
  end.
Proof.
  cbv zeta. unfold _deployBuild, retry_call. unfold bind at 1. cbn [default].
  destruct (retry (constructBuild ext imp buildFile deployArgs) _ None 250 dm)
    as [[v|e] d t]; cbn [res final emitted]; [|reflexivity].
  unfold bind, modify, ret; simpl. rewrite app_nil_r. reflexivity.
Qed.

Lemma _deployBuild_frame (buildFile : BuildFile) (deployArgs : DeployArgs)
    (retries : option nat) (dm : DM) :
  let r := _deployBuild ext imp buildFile deployArgs retries dm in
  cache (final r) = cache dm /\ contractsCache (final r) = contractsCache dm /\
  counter (final r) = match res r with
                      | Resolved _ => counter dm + 1
                      | Rejected _ => counter dm
                      end.
Proof.
  cbv zeta. rewrite _deployBuild_unfold; cbv zeta.
  pose proof (retry_frame (constructBuild ext imp buildFile deployArgs) None
                (constructBuild_frame buildFile deployArgs)
                (default 5%nat retries) 250 dm) as (Hc & Hn & Hcc).
  destruct (retry _ _ None _ dm) as [[v|e] d t]; cbn [res final emitted] in *;
    repeat split; auto. simpl. lia.
Qed.

(** [clone], by cases on what [contract(alias)] finds and how the import and
    the construction settle. *)
Lemma clone_unfold (alias : Alias) (addr : Address) (deployArgs : DeployArgs)
    (fromNetwork : option string) (force : bool) (retries : option nat) (dm : DM) :
  let rc := contracts ext dm in
  let fresh :=
    let ri := import imp config addr fromNetwork (final rc) in
    match res ri with
    | Rejected e => MkRun (Rejected e) (final ri) (emitted rc)
    | Resolved buildFile =>
        let rd := _deployBuild ext imp buildFile deployArgs retries (final ri) in
        match res rd with
        | Resolved c =>
            MkRun (Resolved c) (final (putAlias alias (address c) (final rd)))
                  (emitted rc ++ emitted rd)
        | Rejected e => MkRun (Rejected e) (final rd) (emitted rc ++ emitted rd)
        end
    end in
  clone ext imp config alias addr deployArgs fromNetwork force retries dm =
  match res rc with
  | Rejected e => MkRun (Rejected e) (final rc) (emitted rc)
  | Resolved m =>
      match m !! alias with
      | Some found => if force then fresh else MkRun (Resolved found) (final rc) (emitted rc)
      | None => fresh
      end
  end.
Proof.
  cbv zeta. unfold clone, contract.
  generalize (_deployBuild ext imp). intros D.
  pose proof (import_frame addr fromNetwork) as Hi. revert Hi.
  generalize (import imp config addr fromNetwork). intros I Hi.
  unfold bind, ret, putAlias, modify, invalidateContractsCache.
  destruct (contracts ext dm) as [[m|e] d t]; simpl; [|reflexivity].
  destruct (Hi d) as (_ & Hie & _).
  destruct (m !! alias) as [found|]; [destruct force|]; simpl;
    rewrite ?app_nil_r; try reflexivity;
    destruct (I d) as [[b|e] d' t']; simpl in *; subst t'; rewrite ?app_nil_r;
    try reflexivity;
    destruct (D b deployArgs retries d') as [[c|e] d'' t'']; simpl; rewrite ?app_nil_r;
    reflexivity.
Qed.

(** X7. [clone] without [force] of an alias that resolves returns the handle
    found and does nothing else: no import, no construction, the registry and
    the counter untouched. Otherwise it imports first: when the import
    rejects, the rejection is passed on with no construction tried, nothing
    stored and the counter as it was; when [clone] resolves to [c], the
    counter went up by one and the alias maps to the address of [c]. *)
Theorem clone_imports_then_deploys (alias : Alias) (addr : Address) (deployArgs : DeployArgs)
    (fromNetwork : option string) (force : bool) (retries : option nat) (dm : DM)
    (m : gmap string Contract) :
  res (contracts ext dm) = Resolved m ->
  let dm0 := final (contracts ext dm) in
  let r := clone ext imp config alias addr deployArgs fromNetwork force retries dm in
  (forall found, m !! alias = Some found -> force = false ->
     r = MkRun (Resolved found) dm0 [] /\ cache dm0 = cache dm /\ counter dm0 = counter dm) /\
  (m !! alias = None \/ force = true ->
     (forall e, res (import imp config addr fromNetwork dm0) = Rejected e ->
        res r = Rejected e /\ emitted r = [] /\
        cache (final r) = cache dm /\ counter (final r) = counter dm) /\
     (forall e, res r = Rejected e ->
        cache (final r) = cache dm /\ counter (final r) = counter dm) /\
     (forall c, res r = Resolved c ->
        counter (final r) = counter dm + 1 /\
        Aliases_getAliases (cache (final r)) !! alias = Some (address c) /\
        contractsCache (final r) = None)).
Proof.
  intros Hm dm0 r. subst r. rewrite clone_unfold; cbv zeta. fold dm0.
  destruct (contracts_frame ext dm) as (Hcc & Hcn & Hem). fold dm0 in Hcc, Hcn.
  rewrite Hm, Hem. cbn [app].
  destruct (import_frame addr fromNetwork dm0) as ((Hic & Hin & _) & _ & _).
  split.
  - intros found Hf ->. rewrite Hf. auto.
  - intros Hfresh.
    assert (Hsel : forall X (fresh : X) (other : Contract -> X),
              (match m !! alias with
               | Some found => if force then fresh else other found
               | None => fresh
               end) = fresh).
    { intros X fresh other. destruct (m !! alias); [|reflexivity].
      destruct Hfresh as [?| ->]; [discriminate|reflexivity]. }
    rewrite (Hsel _ _ (fun found => MkRun (Resolved found) dm0 [])). clear Hsel.
    destruct (res (import imp config addr fromNetwork dm0)) as [b|e0] eqn:Ei.
    + pose proof (_deployBuild_frame b deployArgs retries
                    (final (import imp config addr fromNetwork dm0))) as Hd.
      cbv zeta in Hd. destruct Hd as (Hd1 & Hd2 & Hd3).
      destruct (res (_deployBuild ext imp b deployArgs retries _)) as [c0|e1];
        cbn [res final emitted].
      * split; [intros e; discriminate|]. split; [intros e; discriminate|].
        intros c [= <-]. rewrite putAlias_final.
        cbn [counter cache contractsCache set_contractsCache set_cache].
        split; [lia|]. split; [apply lookup_insert_eq|reflexivity].
      * split; [intros e; discriminate|]. split; [|intros c; discriminate].
        intros e _. split; congruence.
    + cbn [res final emitted]. split; [|split; [|intros c; discriminate]].
      * intros e [= <-]. repeat split; congruence.
      * intros e _. split; congruence.
Qed.

Lemma existing_unfold (alias : Alias) (addr : Address) (dm : DM) :
  let rc := contracts ext dm in
  existing ext imp config alias addr dm =
  match res rc with
  | Rejected e => MkRun (Rejected e) (final rc) (emitted rc)
  | Resolved m =>
      match m !! alias with
      | Some found => MkRun (Resolved found) (final rc) (emitted rc)
      | None =>
          let ri := import imp config addr None (final rc) in
          match res ri with
          | Rejected e => MkRun (Rejected e) (final ri) (emitted rc)
          | Resolved _ =>
              MkRun (Resolved (MkContract addr addr))
                    (final (putAlias alias addr (final ri))) (emitted rc)
          end
      end
  end.
Proof.
  cbv zeta. unfold existing, contract.
  pose proof (import_frame addr None) as Hi. revert Hi.
  generalize (import imp config addr None). intros I Hi.
  unfold bind, ret, putAlias, modify, invalidateContractsCache.
  destruct (contracts ext dm) as [[m|e] d t]; simpl; [|reflexivity].
  destruct (Hi d) as (_ & Hie & _).
  destruct (m !! alias) as [found|]; simpl; rewrite ?app_nil_r; try reflexivity.
  destruct (I d) as [[b|e] d' t']; simpl in *; subst t'; rewrite ?app_nil_r; reflexivity.
Qed.

(** X8. [existing(alias, address)] of an alias that resolves returns the
    handle found, whatever [address] is given, and stores nothing. For an
    alias that does not resolve it imports the contract at [address], stores
    the alias at [address] and returns a handle at [address]; that is no
    deployment: nothing is constructed and the counter stays. *)
Theorem existing_registers_without_deploying (alias : Alias) (addr : Address) (dm : DM)
    (m : gmap string Contract) :
  res (contracts ext dm) = Resolved m ->
  let r := existing ext imp config alias addr dm in
  emitted r = [] /\ counter (final r) = counter dm /\
  (forall found, m !! alias = Some found ->
     res r = Resolved found /\ cache (final r) = cache dm) /\
  (m !! alias = None ->
     forall c, res r = Resolved c ->
       c = MkContract addr addr /\
       Aliases_getAliases (cache (final r)) !! alias = Some addr /\
       contractsCache (final r) = None) /\
  (m !! alias = None ->
     forall e, res r = Rejected e -> cache (final r) = cache dm).
Proof.
  intros Hm r. subst r. rewrite existing_unfold; cbv zeta.
  destruct (contracts_frame ext dm) as (Hcc & Hcn & Hem).
  rewrite Hm, Hem.
  destruct (import_frame addr None (final (contracts ext dm))) as ((Hic & Hin & _) & _ & _).
  destruct (m !! alias) as [found|] eqn:El.
  - cbn [res final emitted].
    split; [reflexivity|]. split; [exact Hcn|]. split; [|split; discriminate].
    intros f [= <-]. split; [reflexivity|exact Hcc].
  - destruct (res (import imp config addr None (final (contracts ext dm)))) as [b|e0];
      cbn [res final emitted]; rewrite ?putAlias_final;
      cbn [counter cache contractsCache set_contractsCache set_cache].
    + split; [reflexivity|]. split; [congruence|]. split; [discriminate|].
      split; [|discriminate].
      intros _ c [= <-]. split; [reflexivity|]. split; [apply lookup_insert_eq|reflexivity].
    + split; [reflexivity|]. split; [congruence|]. split; [discriminate|].
      split; [discriminate|]. intros _ e _. congruence.
Qed.
End CloneFacts.

Lemma warnings_app (t1 t2 : list Event) : warnings (t1 ++ t2) = warnings t1 ++ warnings t2.
Proof. unfold warnings. apply omap_app. Qed.

Lemma countdown_succ (retries k : nat) :
  countdown (S retries) (S k) = S retries :: countdown retries k.
Proof.
  unfold countdown. simpl. f_equal. rewrite <- seq_shift, map_map. reflexivity.
Qed.

Lemma total_doubling (wait : Z) (k : nat) :
  total (doubling wait k) = wait * (2 ^ Z.of_nat k - 1).
Proof.
  revert wait. induction k as [|k IH]; intros wait.
  - simpl. lia.
  - rewrite doubling_succ. cbn [total fold_right]. fold (total (doubling (wait * 2) k)).
    rewrite IH, Nat2Z.inj_succ, Z.pow_succ_r by lia. lia.
Qed.

Section RetryTotals.
Context {Hre Artifact A : Type}.
Variable fn : M Hre Artifact A.
Variable timeLimit : option Z.
Hypothesis fn_quiet : quiet fn.

Abbreviation DM := (@DeploymentManager Hre Artifact).

Lemma attempt_warnings (dm : DM) : warnings (emitted (attempt fn timeLimit dm)) = [].
Proof.
  assert (Hq : forall t, forallb (fun e => negb (is_retry_event e)) t = true ->
                         warnings t = []).
  { induction t as [|e t IH]; [auto|]. simpl. intros H.
    apply andb_true_iff in H as [He Ht]. unfold warnings in *.
    destruct e; simpl in *; try discriminate; auto. }
  assert (He : emitted (attempt fn timeLimit dm) = EvAttempt :: emitted (fn dm)).
  { unfold attempt, asyncCallWithTimeout, bind, emit; simpl.
    destruct timeLimit as [limit|]; [destruct (_ <? _)|]; destruct (fn dm) as [[v|e] d t];
      reflexivity. }
  rewrite He. apply (Hq _ (fn_quiet dm)).
Qed.

(** Every run of [retry] warns once per failed try that is retried, counting
    the retries left down from [retries]. *)
Lemma retry_warnings (retries : nat) :
  forall (wait : Z) (dm : DM),
  let r := retry fn retries timeLimit wait dm in
  exists k, (k <= retries)%nat /\
    sleeps (emitted r) = doubling wait k /\
    attempts (emitted r) = S k /\
    warnings (emitted r) = countdown retries k /\
    (forall e, res r = Rejected e -> k = retries).
Proof.
  induction retries as [|retries' IH]; intros wait dm; cbv zeta; rewrite retry_step;
    cbv zeta; destruct (attempt_counts fn timeLimit fn_quiet dm) as [Ha Hs];
    pose proof (attempt_warnings dm) as Hw;
    destruct (res (attempt fn timeLimit dm)) as [v|e] eqn:E.
  - exists 0%nat. rewrite Ha, Hs, Hw. repeat split; try lia; intros; congruence.
  - exists 0%nat. cbn [res emitted]. rewrite Ha, Hs, Hw. repeat split; try lia.
  - exists 0%nat. rewrite Ha, Hs, Hw. repeat split; try lia; intros; congruence.
  - destruct (IH (wait * 2) (after_failure fn timeLimit dm)) as (k & Hk & Hsl & Hat & Hwa & Hrej).
    exists (S k). cbn [res emitted].
    rewrite !sleeps_app, !attempts_app, !warnings_app, Hs, Ha, Hw, Hsl, Hat, Hwa,
      doubling_succ, countdown_succ.
    split; [lia|]. split; [reflexivity|]. split; [reflexivity|]. split; [reflexivity|].
    intros e' He'. rewrite (Hrej e' He'). reflexivity.
Qed.

(** X9. A [retry] that rejects has spent its whole budget: it tried
    [retries + 1] times, warned [retries] times with the retries left counting
    down from [retries] to 1, and waited [wait (2^retries - 1)] ms in all
    between the tries. With the defaults (5 retries from 250 ms) that is 6
    tries and 7750 ms of waiting. *)
Theorem retry_exhausted_totals (retries : nat) (wait : Z) (dm : DM) (e : exn) :
  let r := retry fn retries timeLimit wait dm in
  res r = Rejected e ->
  attempts (emitted r) = S retries /\
  warnings (emitted r) = countdown retries retries /\
  last (warnings (emitted r)) = match retries with O => None | S _ => Some 1%nat end /\
  total (sleeps (emitted r)) = wait * (2 ^ Z.of_nat retries - 1) /\
  (retries = 5%nat -> wait = 250 ->
   attempts (emitted r) = 6%nat /\ total (sleeps (emitted r)) = 7750).
Proof.
  intros r Hr. subst r.
  destruct (retry_warnings retries wait dm) as (k & _ & Hsl & Hat & Hwa & Hrej).
  specialize (Hrej e Hr). subst k.
  rewrite Hat, Hwa, Hsl, total_doubling.
  split; [reflexivity|]. split; [reflexivity|]. split.
  - destruct retries as [|n]; [reflexivity|].
    unfold countdown. rewrite seq_S, map_app. cbn [map]. rewrite last_snoc. f_equal. lia.
  - split; [reflexivity|]. intros -> ->. split; reflexivity.
Qed.
End RetryTotals.

Section CrawlFacts.
Context {Hre Artifact DeployArgs DeploySpec : Type}.
Variable ext : Externals Hre Artifact DeployArgs DeploySpec.

Abbreviation DM := (@DeploymentManager Hre Artifact).

(** The roots handed to the crawl: the stored roots, overridden by the
    addresses of [deployed]. *)
Lemma spider_unfold (deployed : gmap string Contract) (dm : DM) :
  let roots := (address <$> deployed) ∪ Roots_getRoots (cache dm) in
  let crawl := Spider_spider ext (cache dm) (network dm) roots (hre dm) in
  spider ext deployed dm =
  match fst crawl with
  | Resolved found =>
      MkRun (Resolved found)
            (set_contractsCache None
               (set_cache
                  (Proxies_storeProxies
                     (Aliases_storeAliases (Roots_putRoots (cache dm) roots)
                        (crawl_aliases found))
                     (crawl_proxies found))
                  (set_hre (snd crawl) dm)))
            []
  | Rejected e => MkRun (Rejected e) (set_hre (snd crawl) dm) []
  end.
Proof.
  cbv zeta. unfold spider, bind, get, external, modify, invalidateContractsCache, ret; simpl.
  destruct (Spider_spider ext _ _ _ _) as [[crawl|e] h']; simpl; reflexivity.
Qed.

(** What a crawl leaves of the registry: as it was when the crawl rejects,
    with the cache of handles emptied when it resolves. *)
Lemma spider_outcome (deployed : gmap string Contract) (dm : DM) :
  let r := spider ext deployed dm in
  (forall e, res r = Rejected e -> cache (final r) = cache dm) /\
  (forall found, res r = Resolved found -> contractsCache (final r) = None).
Proof.
  cbv zeta. rewrite spider_unfold; cbv zeta.
  destruct (Spider_spider ext _ _ _ _) as [[found|e] h']; cbn [fst snd res final];
    split; try discriminate; reflexivity.
Qed.

(** X10. [spider(deployed)] crawls from the stored roots overridden by the
    addresses of [deployed]. When the crawl rejects, the registry and the
    cache of handles are as before. When it resolves, the roots stored are
    the ones crawled from (a deployed alias at its new address, any other
    root as it was), the aliases and proxies are replaced by the crawl's, the
    artifacts are kept, the cache of handles is emptied, and [contracts()]
    afterwards has exactly the aliases the crawl found. The counter and the
    signers never change. *)
Theorem spider_replaces_registry (deployed : gmap string Contract) (dm : DM) :
  let roots := (address <$> deployed) ∪ Roots_getRoots (cache dm) in
  let r := spider ext deployed dm in
  res r = fst (Spider_spider ext (cache dm) (network dm) roots (hre dm)) /\
  counter (final r) = counter dm /\ _signers (final r) = _signers dm /\
  (forall e, res r = Rejected e ->
     cache (final r) = cache dm /\ contractsCache (final r) = contractsCache dm) /\
  (forall found, res r = Resolved found ->
     Roots_getRoots (cache (final r)) = roots /\
     (forall alias c, deployed !! alias = Some c ->
        Roots_getRoots (cache (final r)) !! alias = Some (address c)) /\
     (forall alias, deployed !! alias = None ->
        Roots_getRoots (cache (final r)) !! alias = Roots_getRoots (cache dm) !! alias) /\
     Aliases_getAliases (cache (final r)) = crawl_aliases found /\
     Proxies_getProxies (cache (final r)) = crawl_proxies found /\
     c_artifacts (cache (final r)) = c_artifacts (cache dm) /\
     contractsCache (final r) = None /\
     (forall m, res (contracts ext (final r)) = Resolved m ->
        dom m = dom (crawl_aliases found))).
Proof.
  intros roots r. subst r. rewrite spider_unfold; cbv zeta. fold roots.
  destruct (Spider_spider ext (cache dm) (network dm) roots (hre dm)) as [[found|e] h'];
    cbn [fst snd res final].
  - split; [reflexivity|]. split; [reflexivity|]. split; [reflexivity|].
    split; [discriminate|]. intros f [= <-].
    cbn [cache set_contractsCache set_cache contractsCache].
    split; [reflexivity|]. split.
    { intros alias c Hc. unfold Roots_getRoots; cbn [c_roots]. subst roots.
      apply lookup_union_Some_l. rewrite lookup_fmap, Hc. reflexivity. }
    split.
    { intros alias Hc. unfold Roots_getRoots; cbn [c_roots]. subst roots.
      apply lookup_union_r. rewrite lookup_fmap, Hc. reflexivity. }
    split; [reflexivity|]. split; [reflexivity|]. split; [reflexivity|].
    split; [reflexivity|].
    intros m Hm. set (dm' := set_contractsCache None _) in Hm.
    destruct (contracts_resolved ext dm' m Hm) as (_ & _ & _ & _ & Hnone & _).
    rewrite (Hnone eq_refl). unfold getContracts. rewrite dom_fmap_L. reflexivity.
  - split; [reflexivity|]. split; [reflexivity|]. split; [reflexivity|].
    split; [|discriminate]. intros e0 _. split; reflexivity.
Qed.

(** X11. [runDeployScript] stops at the first step that rejects, and passes
    the rejection on. When the crawl before rejects, the deploy script is not
    run and the registry is untouched. When the script's module cannot be
    loaded, the deploy function is not run. When the deploy function rejects,
    there is no crawl after it: the manager is left as the function left
    it. Whenever the call resolves, the deploy function ran exactly at the
    head of the trace. *)
Theorem runDeployScript_stops_at_failure (deploySpec : DeploySpec) (dm : DM) (e : exn) :
  let crawl := spider ext ∅ dm in
  let deployScript := Cache_getFilePath ext (cache (final crawl)) "deploy.ts" in
  let r := runDeployScript ext deploySpec dm in
  (res crawl = Rejected e ->
     r = MkRun (Rejected e) (final crawl) [] /\ cache (final r) = cache dm /\
     counter (final r) = counter dm) /\
  (forall oldSpider, res crawl = Resolved oldSpider ->
     import_module ext deployScript = Rejected e ->
     r = MkRun (Rejected e) (final crawl) []) /\
  (forall oldSpider deployFn, res crawl = Resolved oldSpider ->
     import_module ext deployScript = Resolved (Callable deployFn) ->
     res (deployFn deploySpec (final crawl)) = Rejected e ->
     r = MkRun (Rejected e) (final (deployFn deploySpec (final crawl)))
               (EvDeployFn :: emitted (deployFn deploySpec (final crawl)))) /\
  (forall delta, res r = Resolved delta ->
     head (emitted r) = Some EvDeployFn /\ fst (delta_old delta) = counter dm /\
     contractsCache (final r) = None).
Proof.
  intros crawl deployScript r. subst r.
  rewrite runDeployScript_unfold; cbv zeta. fold crawl. fold deployScript.
  split; [|split; [|split]].
  - intros Hc. rewrite Hc. split; [reflexivity|]. cbn [final].
    pose proof (spider_outcome ∅ dm) as Hs. cbv zeta in Hs.
    destruct Hs as (Hrej & _). fold crawl in Hrej.
    split; [exact (Hrej e Hc)|apply spider_frame].
  - intros oldSpider Hc Hi. rewrite Hc, Hi. reflexivity.
  - intros oldSpider deployFn Hc Hi Hrun. rewrite Hc, Hi, Hrun. reflexivity.
  - intros delta. destruct (res crawl) as [oldSpider|e0]; [|discriminate].
    destruct (import_module ext deployScript) as [[| |deployFn]|e0]; try discriminate.
    destruct (res (deployFn deploySpec (final crawl))) as [deployed|e0] eqn:Erun;
      [|discriminate].
    pose proof (spider_outcome deployed (final (deployFn deploySpec (final crawl))))
      as Hs. cbv zeta in Hs. destruct Hs as (_ & Hres).
    destruct (res (spider ext deployed _)) as [newSpider|e0] eqn:Ec; [|discriminate].
    cbn [res final emitted]. intros [= <-].
    split; [reflexivity|]. split; [reflexivity|exact (Hres newSpider eq_refl)].
Qed.
End CrawlFacts.

(** ** Further worked examples on the small runtime *)

(** X1, witness: comet is deployed, and deployed again with [force]: the
    second call constructs, counts a second deployment and empties the cache
    of handles. *)
Lemma deploy_force_redeploys_witness :
  let first := deploy bareRuntime "comet" "Comet.sol" tt false None freshManager in
  let r := deploy bareRuntime "comet" "Comet.sol" tt true None (final first) in
  res r = Resolved (MkContract "0xComet.sol" "0xComet.sol") /\
  (1 <= constructions (emitted r))%nat /\
  counter (final r) = counter (final first) + 1 /\
  contractsCache (final r) = None.
Proof.
  intros first r.
  assert (Hr : res r = Resolved (MkContract "0xComet.sol" "0xComet.sol"))
    by (vm_compute; reflexivity).
  destruct (deploy_force_redeploys bareRuntime "comet" "Comet.sol" tt None (final first)
              (MkContract "0xComet.sol" "0xComet.sol") Hr)
    as (H1 & H2 & _ & _ & H3 & _).
  split; [exact Hr|]. split; [exact H1|]. split; [exact H2|exact H3].
Defined.

(** X2, witness: with no retry left the first construction fails, the
    [deploy] rejects and the manager has stored and counted nothing. *)
Lemma deploy_rejected_witness :
  let r := deploy bareRuntime "comet" "Comet.sol" tt false (Some 0%nat) freshManager in
  res r = Rejected "transient"%string /\
  cache (final r) = cache freshManager /\ counter (final r) = counter freshManager.
Proof.
  intros r.
  assert (Hr : res r = Rejected "transient"%string) by (vm_compute; reflexivity).
  destruct (deploy_rejected_stores_nothing bareRuntime "comet" "Comet.sol" tt false
              (Some 0%nat) freshManager "transient"%string Hr) as (H1 & H2 & _).
  split; [exact Hr|]. split; [exact H1|exact H2].
Defined.


(** X4, witness: the runtime lists one signer; the manager keeps it. *)
Lemma getSigners_witness :
  let dm1 := final (getSigners bareRuntime freshManager) in
  res (getSigners bareRuntime freshManager) = Resolved [MkSigner "0xsigner" 0] /\
  _signers dm1 = [MkSigner "0xsigner" 0].
Proof.
  intros dm1.
  assert (Hr : res (getSigners bareRuntime freshManager) = Resolved [MkSigner "0xsigner" 0])
    by reflexivity.
  destruct (getSigners_asks_until_some bareRuntime freshManager _ Hr) as (H1 & _).
  split; [exact Hr|exact H1].
Defined.

(** X5, witness: the fresh manager has no signer for 0xABC; asking for it
    appends the managed signer the runtime reports. *)
Lemma getSigner_by_address_witness :
  let r := getSignerAt bareRuntime demoImports (Some "0xABC"%string) freshManager in
  String.eqb "0xABC" "" = false /\
  res r = Resolved (Some (MkSigner "0xabc" 0)) /\
  _signers (final r) = [MkSigner "0xabc" 0].
Proof.
  intros r.
  assert (Ha : "0xABC"%string <> ""%string) by discriminate.
  destruct (getSigner_reuses_or_appends bareRuntime demoImports "0xABC"%string freshManager Ha)
    as (_ & H & _).
  specialize (H eq_refl). cbn [fst demoImports ethers_getSigner] in H.
  destruct H as (H1 & H2 & _).
  split; [reflexivity|]. split; [exact H1|exact H2].
Defined.

(** X6, witness: after asking for the signer of 0xABC on the fresh manager,
    that signer is the default one, and asking again adds none. *)
Lemma getSigner_first_witness :
  let dm1 := final (getSignerAt bareRuntime demoImports (Some "0xABC"%string) freshManager) in
  getSigner bareRuntime dm1 = MkRun (Resolved (Some (MkSigner "0xabc" 0))) dm1 [] /\
  getSignerAt bareRuntime demoImports (Some "0xABC"%string) dm1
  = MkRun (Resolved (Some (MkSigner "0xabc" 0))) dm1 [].
Proof.
  intros dm1.
  assert (Ha : "0xABC"%string <> ""%string) by discriminate.
  destruct (getSigner_by_address_first bareRuntime demoImports "0xABC"%string
              "0xabc"%string freshManager Ha eq_refl eq_refl) as (_ & H1 & H2).
  split; [exact H1|]. apply H2. reflexivity.
Defined.

(** X7, witness: the clone of 0xabc under the alias cUSDC is imported from
    mainnet, constructed on the second try and stored; the clone of an
    address Etherscan does not know rejects and stores nothing. *)
Lemma clone_witness :
  let r := clone bareRuntime demoImports demoConfig "cUSDC" "0xabc" tt None false None
             freshManager in
  let bad := clone bareRuntime demoImports demoConfig "cUSDC" "0xunknown" tt None false None
               freshManager in
  (res r = Resolved (MkContract "0xclone" "mainnet:0xabc") /\
   counter (final r) = counter freshManager + 1 /\
   Aliases_getAliases (cache (final r)) !! "cUSDC"%string = Some "0xclone"%string) /\
  (res bad = Rejected "not verified"%string /\ emitted bad = [] /\
   cache (final bad) = cache freshManager).
Proof.
  intros r bad.
  assert (Hc : res (contracts bareRuntime freshManager) = Resolved ∅)
    by (vm_compute; reflexivity).
  split.
  - destruct (clone_imports_then_deploys bareRuntime demoImports demoConfig "cUSDC" "0xabc"
                tt None false None freshManager ∅ Hc) as (_ & H).
    destruct (H (or_introl eq_refl)) as (_ & _ & H3).
    assert (Hr : res r = Resolved (MkContract "0xclone" "mainnet:0xabc"))
      by (vm_compute; reflexivity).
    destruct (H3 _ Hr) as (H4 & H5 & _).
    split; [exact Hr|]. split; [exact H4|exact H5].
  - destruct (clone_imports_then_deploys bareRuntime demoImports demoConfig "cUSDC"
                "0xunknown" tt None false None freshManager ∅ Hc) as (_ & H).
    destruct (H (or_introl eq_refl)) as (H1 & _).
    destruct (H1 "not verified"%string eq_refl) as (H2 & H3 & H4 & _).
    split; [exact H2|]. split; [exact H3|exact H4].
Defined.

(** X8, witness: [existing] registers 0xabc under the alias cUSDC without
    deploying. *)
Lemma existing_witness :
  let r := existing bareRuntime demoImports demoConfig "cUSDC" "0xabc" freshManager in
  res r = Resolved (MkContract "0xabc" "0xabc") /\
  emitted r = [] /\ counter (final r) = counter freshManager /\
  Aliases_getAliases (cache (final r)) !! "cUSDC"%string = Some "0xabc"%string.
Proof.
  intros r.
  assert (Hc : res (contracts bareRuntime freshManager) = Resolved ∅)
    by (vm_compute; reflexivity).
  destruct (existing_registers_without_deploying bareRuntime demoImports demoConfig "cUSDC"
              "0xabc" freshManager ∅ Hc) as (H1 & H2 & _ & H3 & _).
  assert (Hr : res r = Resolved (MkContract "0xabc" "0xabc")) by (vm_compute; reflexivity).
  destruct (H3 eq_refl _ Hr) as (_ & H4 & _).
  split; [exact Hr|]. split; [exact H1|]. split; [exact H2|exact H4].
Defined.

(** X9, witness: with one retry the construction of Comet.sol fails twice:
    two tries, one warning with one retry left, 250 ms of waiting. *)
Lemma retry_exhausted_witness :
  let r := retry (construct bareRuntime "Comet.sol" tt) 1 None 250 freshManager in
  res r = Rejected "transient"%string /\
  attempts (emitted r) = 2%nat /\ warnings (emitted r) = [1%nat] /\
  total (sleeps (emitted r)) = 250.
Proof.
  intros r.
  assert (Hr : res r = Rejected "transient"%string) by (vm_compute; reflexivity).
  destruct (retry_exhausted_totals (construct bareRuntime "Comet.sol" tt) None
              (construct_quiet bareRuntime "Comet.sol" tt) 1 250 freshManager
              "transient"%string Hr) as (H1 & H2 & _ & H3 & _).
  split; [exact Hr|]. split; [exact H1|]. split; [exact H2|exact H3].
Defined.

(** ** Further worked examples on the ledger world *)

Lemma ledger_reads_signers (l : list (Migration Ledger Z)) :
  (forall u, In u l -> exists n a, u = failing n a \/ u = tracked n a) ->
  reads_signers ledgerHarness gov_signers l.
Proof.
  intros Hl. unfold reads_signers, keeps.
  repeat split; try (destruct (Hl u H) as (n & a & [-> | ->])); intros; reflexivity.
Qed.

Lemma manager_reads_signers (n : string) (a : Z) :
  reads_signers impersonatingHarness _signers [aliasing n a].
Proof.
  unfold reads_signers, keeps.
  repeat split; try (destruct H as [<- | []]); intros; reflexivity.
Qed.

(** X12, witness: the unit m1 fails in [enact]: the Solution rejects and the
    proposer is still the first signer of the ledger's governance manager;
    with the unit m2, which applies, the signers are as before. On the manager
    whose impersonation helper asks the manager for the whale's signer, the
    Solution that resolves leaves that signer behind. *)
Lemma proposer_stays_witness :
  let bad := migrationSolution ledgerHarness [failing "m1" 1] freshLedger in
  let good := migrationSolution ledgerHarness [tracked "m2" 2] freshLedger in
  let kept := migrationSolution impersonatingHarness [aliasing "m3" 3]
                (MkContext freshManager None) in
  (res bad = Rejected "proposal failed"%string /\
   gov_signers (world (final bad)) = [MkSigner "0xwhale" 0]) /\
  (res good = Resolved tt /\ gov_signers (world (final good)) = []) /\
  (res kept = Resolved tt /\ _signers freshManager = [] /\
   _signers (world (final kept)) = [MkSigner "0xwhale" 0]).
Proof.
  intros bad good kept. split; [|split].
  - assert (Hs : reads_signers ledgerHarness gov_signers [failing "m1" 1]).
    { apply ledger_reads_signers. intros u [<- | []]. exists "m1"%string, 1. left; reflexivity. }
    pose proof (proposer_stays_after_rejection ledgerHarness gov_signers [failing "m1" 1]
                  freshLedger Hs) as H.
    cbv zeta in H. cbn [walk_start ledgerHarness getCompWhales impersonateAddress fst snd] in H.
    destruct H as (proposer & H0 & _ & H & _).
    destruct (H "proposal failed"%string eq_refl) as (H1 & _).
    split; [reflexivity|]. unfold bad. rewrite H1, <- H0. reflexivity.
  - assert (Hs : reads_signers ledgerHarness gov_signers [tracked "m2" 2]).
    { apply ledger_reads_signers. intros u [<- | []]. exists "m2"%string, 2. right; reflexivity. }
    pose proof (proposer_stays_after_rejection ledgerHarness gov_signers [tracked "m2" 2]
                  freshLedger Hs) as H.
    cbv zeta in H. cbn [walk_start ledgerHarness getCompWhales impersonateAddress fst snd] in H.
    destruct H as (proposer & _ & H & _).
    split; [reflexivity|]. exact (H eq_refl).
  - pose proof (proposer_stays_after_rejection impersonatingHarness _signers
                  [aliasing "m3" 3] (MkContext freshManager None)
                  (manager_reads_signers "m3" 3)) as H.
    cbv zeta in H.
    assert (Hstart : exists ctx0,
              walk_start impersonatingHarness [aliasing "m3" 3] (MkContext freshManager None)
              = inr ctx0) by (eexists; vm_compute; reflexivity).
    destruct Hstart as (ctx0 & Hstart). rewrite Hstart in H.
    destruct H as (proposer & _ & _ & _ & _ & H).
    assert (Hr : res kept = Resolved tt) by (vm_compute; reflexivity).
    split; [exact Hr|]. split; [reflexivity|].
    apply (H [MkSigner "0xwhale" 0]); [vm_compute; reflexivity|exact Hr].
Defined.

(** * Properties of CometRewards.sol *)

Lemma FACTOR_SCALE_pos : 0 < FACTOR_SCALE.
Proof. reflexivity. Qed.

Section RewardsFacts.
Context {Ext : Type}.
Variable c : Contracts Ext.

Ltac tx_unfold H :=
  unfold tx_bind, sload, sstore, emit_log, call, staticcall, abi_uint, checked_mul,
    checked_div, checked_sub, checked_pow, safe64, tx_ret, revert in H.

(** When [setRewardConfigWithMultiplier] returns: the sender is the governor,
    the instance had no reward token, the accrual scale [a] and the decimals
    [d] decoded, and the configuration stored is one of the four the source
    computes. *)
Lemma setRewardConfigWithMultiplier_returned (sender comet tok m : Z) (w w' : EVM Ext) :
  setRewardConfigWithMultiplier c sender comet tok m w = Returned tt w' ->
  exists a w1 d w2 rf up,
    sender = governor (storage w) /\
    token (rewardConfigOf (storage w) comet) = 0 /\
    Comet_baseAccrualScale c comet w = Some (a, w1) /\ 0 <= a <= UINT64_MAX /\
    ERC20_decimals c tok w1 = Some (d, w2) /\ 0 <= d < 256 /\ 10 ^ d <= UINT64_MAX /\
    w' = MkEVM (set_rewardConfig comet (MkRewardConfig tok rf up) (storage w2))
               (others w2) (logs w2) /\
    rf <= UINT64_MAX /\ m <> 0 /\
    ((10 ^ d < a /\
      ((a / 10 ^ d * FACTOR_SCALE < m /\ up = true /\
        rf = m / (a / 10 ^ d) / FACTOR_SCALE) \/
       (m <= a / 10 ^ d * FACTOR_SCALE /\ up = false /\
        rf = a / 10 ^ d * FACTOR_SCALE / m))) \/
     (a <= 10 ^ d /\ a <> 0 /\
      ((10 ^ d / a < FACTOR_SCALE / m /\ up = false /\
        rf = FACTOR_SCALE / m / (10 ^ d / a)) \/
       (FACTOR_SCALE / m <= 10 ^ d / a /\ up = true /\
        rf = 10 ^ d / a * m / FACTOR_SCALE)))).
Proof.
  intros H. unfold setRewardConfigWithMultiplier in H. tx_unfold H.
  destruct (sender =? governor (storage w)) eqn:Es; [|discriminate H]. cbn [negb] in H.
  destruct (token (rewardConfigOf (storage w) comet) =? 0) eqn:Et; [|discriminate H].
  cbn [negb] in H.
  destruct (Comet_baseAccrualScale c comet w) as [[a w1]|] eqn:Ea; [|discriminate H].
  destruct ((0 <=? a) && (a <? 2 ^ 64)) eqn:Ra; [|discriminate H].
  destruct (ERC20_decimals c tok w1) as [[d w2]|] eqn:Ed; [|discriminate H].
  destruct ((0 <=? d) && (d <? 2 ^ 8)) eqn:Rd; [|discriminate H].
  destruct (10 ^ d <=? UINT256_MAX) eqn:Ep; [|discriminate H].
  destruct (UINT64_MAX <? 10 ^ d) eqn:E64; [discriminate H|].
  apply Z.eqb_eq in Es, Et. apply andb_true_iff in Ra as [Ra1 Ra2], Rd as [Rd1 Rd2].
  apply Z.leb_le in Ra1, Rd1. apply Z.ltb_lt in Ra2, Rd2. apply Z.ltb_ge in E64.
  assert (Hpow : 0 < 10 ^ d) by (apply Z.pow_pos_nonneg; lia).
  assert (HF := FACTOR_SCALE_pos).
  assert (Ha64 : a <= UINT64_MAX) by (unfold UINT64_MAX; lia).
  assert (Hd256 : d < 256) by (change (2 ^ 8) with 256 in Rd2; exact Rd2).
  exists a, w1, d, w2.
  destruct (10 ^ d <? a) eqn:Ebr.
  - apply Z.ltb_lt in Ebr.
    destruct (10 ^ d =? 0) eqn:Ez; [discriminate H|].
    destruct (a / 10 ^ d * FACTOR_SCALE <=? UINT256_MAX) eqn:Em; [|discriminate H].
    assert (Hr0 : 0 < a / 10 ^ d) by (apply Z.div_str_pos; lia).
    destruct (a / 10 ^ d * FACTOR_SCALE <? m) eqn:Efl.
    + apply Z.ltb_lt in Efl.
      destruct (a / 10 ^ d =? 0) eqn:Ez2; [discriminate H|].
      destruct (FACTOR_SCALE =? 0) eqn:Ez3; [discriminate H|].
      destruct (UINT64_MAX <? m / (a / 10 ^ d) / FACTOR_SCALE) eqn:Es64; [discriminate H|].
      apply Z.ltb_ge in Es64. injection H as <-.
      eexists _, true. repeat split; try eassumption; try lia;
        left; (split; [exact Ebr|]); left; auto.
    + apply Z.ltb_ge in Efl.
      destruct (m =? 0) eqn:Ez2; [discriminate H|].
      destruct (UINT64_MAX <? a / 10 ^ d * FACTOR_SCALE / m) eqn:Es64; [discriminate H|].
      apply Z.ltb_ge in Es64. apply Z.eqb_neq in Ez2. injection H as <-.
      eexists _, false. repeat split; try eassumption; try lia;
        left; (split; [exact Ebr|]); right; auto.
  - apply Z.ltb_ge in Ebr.
    destruct (a =? 0) eqn:Ez; [discriminate H|]. apply Z.eqb_neq in Ez.
    destruct (m =? 0) eqn:Ez2; [discriminate H|]. apply Z.eqb_neq in Ez2.
    destruct (10 ^ d / a <? FACTOR_SCALE / m) eqn:Efl.
    + apply Z.ltb_lt in Efl.
      destruct (10 ^ d / a =? 0) eqn:Ez3; [discriminate H|].
      destruct (UINT64_MAX <? FACTOR_SCALE / m / (10 ^ d / a)) eqn:Es64; [discriminate H|].
      apply Z.ltb_ge in Es64. injection H as <-.
      eexists _, false. repeat split; try eassumption; try lia;
        right; (split; [exact Ebr|]); (split; [exact Ez|]); left; auto.
    + apply Z.ltb_ge in Efl.
      destruct (10 ^ d / a * m <=? UINT256_MAX) eqn:Em; [|discriminate H].
      destruct (FACTOR_SCALE =? 0) eqn:Ez3; [discriminate H|].
      destruct (UINT64_MAX <? 10 ^ d / a * m / FACTOR_SCALE) eqn:Es64; [discriminate H|].
      apply Z.ltb_ge in Es64. injection H as <-.
      eexists _, true. repeat split; try eassumption; try lia;
        right; (split; [exact Ebr|]); (split; [exact Ez|]); right; auto.
Qed.

Lemma rewardConfigOf_set (comet comet' : Z) (config : RewardConfig) (s : Storage) :
  rewardConfigOf (set_rewardConfig comet config s) comet' =
  if comet' =? comet then config else rewardConfigOf s comet'.
Proof.
  unfold rewardConfigOf, set_rewardConfig; cbn [rewardConfig].
  destruct (Z.eqb_spec comet' comet) as [->|Hne].
  - rewrite lookup_insert_eq. reflexivity.
  - rewrite lookup_insert_ne by congruence. reflexivity.
Qed.

Lemma rewardsClaimedOf_set (comet src amount comet' src' : Z) (s : Storage) :
  rewardsClaimedOf (set_rewardsClaimed comet src amount s) comet' src' =
  if (comet' =? comet) && (src' =? src) then amount else rewardsClaimedOf s comet' src'.
Proof.
  unfold rewardsClaimedOf, set_rewardsClaimed; cbn [rewardsClaimed].
  destruct (Z.eqb_spec comet' comet) as [->|Hne]; [destruct (Z.eqb_spec src' src) as [->|Hne]|];
    cbn [andb].
  - rewrite lookup_insert_eq. reflexivity.
  - rewrite lookup_insert_ne by congruence. reflexivity.
  - rewrite lookup_insert_ne by congruence. reflexivity.
Qed.

Lemma not_governor (sender : Z) (w : EVM Ext) :
  sender <> governor (storage w) -> negb (sender =? governor (storage w)) = true.
Proof. intros H. apply Z.eqb_neq in H. rewrite H. reflexivity. Qed.

(** X15. Only the governor configures rewards, withdraws tokens and names a
    new governor: from any other sender each of these reverts with
    [NotPermitted(sender)], before any other contract is called. When the
    governor names a new one, only the governor changes and the transfer is
    logged; from then on the old governor is refused, and the new one is
    obeyed. A withdrawal by the governor is one transfer of the token, and
    reverts with [TransferOutFailed] when the token refuses. *)
Theorem transferGovernor_hands_over (sender newGovernor : Z) (w : EVM Ext) :
  (sender <> governor (storage w) ->
     transferGovernor sender newGovernor w = Reverted (NotPermitted sender) /\
     (forall comet tok m,
        setRewardConfigWithMultiplier c sender comet tok m w = Reverted (NotPermitted sender)) /\
     (forall comet tok,
        setRewardConfig c sender comet tok w = Reverted (NotPermitted sender)) /\
     (forall tok to amount,
        withdrawToken c sender tok to amount w = Reverted (NotPermitted sender))) /\
  (sender = governor (storage w) ->
     let w' := MkEVM (set_governor newGovernor (storage w)) (others w)
                     (logs w ++ [GovernorTransferred sender newGovernor]) in
     transferGovernor sender newGovernor w = Returned tt w' /\
     rewardConfig (storage w') = rewardConfig (storage w) /\
     rewardsClaimed (storage w') = rewardsClaimed (storage w) /\
     (sender <> newGovernor ->
        transferGovernor sender sender w' = Reverted (NotPermitted sender) /\
        (forall comet tok m,
           setRewardConfigWithMultiplier c sender comet tok m w'
           = Reverted (NotPermitted sender)) /\
        (forall tok to amount,
           withdrawToken c sender tok to amount w' = Reverted (NotPermitted sender))) /\
     (forall next,
        transferGovernor newGovernor next w' =
        Returned tt (MkEVM (set_governor next (storage w')) (others w')
                           (logs w' ++ [GovernorTransferred newGovernor next]))) /\
     (forall tok to amount,
        withdrawToken c sender tok to amount w =
        match ERC20_transfer c tok to amount w with
        | Some (true, paid) => Returned tt paid
        | Some (false, _) => Reverted (TransferOutFailed to amount)
        | None => Reverted CallFailed
        end)).
Proof.
  assert (Hno : forall (s : Z) (w0 : EVM Ext), s <> governor (storage w0) ->
            (forall g, transferGovernor s g w0 = Reverted (NotPermitted s)) /\
            (forall comet tok m,
               setRewardConfigWithMultiplier c s comet tok m w0 = Reverted (NotPermitted s)) /\
            (forall tok to amount,
               withdrawToken c s tok to amount w0 = Reverted (NotPermitted s))).
  { intros s w0 Hs. apply not_governor in Hs.
    repeat split; intros;
      unfold transferGovernor, setRewardConfigWithMultiplier, withdrawToken, tx_bind, sload;
      rewrite Hs; reflexivity. }
  assert (Hyes : forall (s g : Z) (w0 : EVM Ext), s = governor (storage w0) ->
            transferGovernor s g w0 =
            Returned tt (MkEVM (set_governor g (storage w0)) (others w0)
                               (logs w0 ++ [GovernorTransferred s g]))).
  { intros s g w0 ->. unfold transferGovernor, tx_bind, sload, sstore, emit_log.
    rewrite Z.eqb_refl. reflexivity. }
  split.
  - intros Hs. destruct (Hno sender w Hs) as (H1 & H2 & H3).
    split; [apply H1|]. split; [exact H2|]. split; [|exact H3].
    intros comet tok. apply H2.
  - intros Hs w'. split; [apply Hyes; exact Hs|]. split; [reflexivity|].
    split; [reflexivity|]. split.
    + intros Hne. destruct (Hno sender w') as (H1 & H2 & H3); [exact Hne|].
      split; [apply H1|]. split; [exact H2|exact H3].
    + split; [intros next; apply Hyes; reflexivity|].
      intros tok to amount. unfold withdrawToken, doTransferOut, tx_bind, sload, call.
      rewrite Hs, Z.eqb_refl. cbn [negb].
      destruct (ERC20_transfer c tok to amount w) as [[[|] paid]|]; reflexivity.
Qed.

(** X16. The reward token of a Comet instance is set once: when
    [setRewardConfigWithMultiplier] returns, the sender was the governor, the
    instance had no token, and it now has the token given; if that token is
    not [address(0)], every later configuration of the instance reverts, with
    [AlreadyConfigured] for the governor and [NotPermitted] for anyone else.
    With the token [address(0)] the instance stays unsupported: owed rewards
    and claims revert with [NotSupported], as for any instance that has no
    token. *)
Theorem reward_config_is_written_once (sender comet tok m : Z) (w w' : EVM Ext) :
  setRewardConfigWithMultiplier c sender comet tok m w = Returned tt w' ->
  sender = governor (storage w) /\
  token (rewardConfigOf (storage w) comet) = 0 /\
  token (rewardConfigOf (storage w') comet) = tok /\
  (tok <> 0 -> forall sender' tok' m',
     setRewardConfigWithMultiplier c sender' comet tok' m' w' =
     Reverted (if sender' =? governor (storage w') then AlreadyConfigured comet
               else NotPermitted sender')) /\
  (forall (w0 : EVM Ext) account to shouldAccrue,
     token (rewardConfigOf (storage w0) comet) = 0 ->
     getRewardOwed c comet account w0 = Reverted (NotSupported comet) /\
     claim c comet account shouldAccrue w0 = Reverted (NotSupported comet) /\
     claimInternal c comet account to shouldAccrue w0 = Reverted (NotSupported comet)) /\
  (tok = 0 -> forall account shouldAccrue,
     getRewardOwed c comet account w' = Reverted (NotSupported comet) /\
     claim c comet account shouldAccrue w' = Reverted (NotSupported comet)).
Proof.
  intros H.
  destruct (setRewardConfigWithMultiplier_returned _ _ _ _ _ _ H)
    as (a & w1 & d & w2 & rf & up & Hs & Ht & _ & _ & _ & _ & _ & -> & _).
  assert (Hcfg : token (rewardConfigOf
                   (storage (MkEVM (set_rewardConfig comet (MkRewardConfig tok rf up)
                                      (storage w2)) (others w2) (logs w2))) comet) = tok).
  { cbn [storage]. rewrite rewardConfigOf_set, Z.eqb_refl. reflexivity. }
  assert (Hunsupported : forall (w0 : EVM Ext) account to shouldAccrue,
            token (rewardConfigOf (storage w0) comet) = 0 ->
            getRewardOwed c comet account w0 = Reverted (NotSupported comet) /\
            claim c comet account shouldAccrue w0 = Reverted (NotSupported comet) /\
            claimInternal c comet account to shouldAccrue w0 = Reverted (NotSupported comet)).
  { intros w0 account to b H0.
    unfold getRewardOwed, claim, claimInternal, tx_bind, sload. rewrite H0. auto. }
  split; [exact Hs|]. split; [exact Ht|]. split; [exact Hcfg|]. split; [|split].
  - intros Hne sender' tok' m'.
    unfold setRewardConfigWithMultiplier, tx_bind, sload. rewrite Hcfg.
    apply Z.eqb_neq in Hne. rewrite Hne.
    destruct (sender' =? governor _); reflexivity.
  - exact Hunsupported.
  - intros -> account b.
    destruct (Hunsupported _ account 0 b Hcfg) as (H1 & H2 & _). auto.
Qed.

(** X17. The factor stored fits 64 bits and is never negative, and a factor to
    divide by is at least 1: a configuration that downscales never makes
    [getRewardAccrued] divide by zero. A multiplier of zero is never
    accepted. *)
Theorem stored_factor_is_sound (sender comet tok m : Z) (w w' : EVM Ext) :
  0 <= m ->
  setRewardConfigWithMultiplier c sender comet tok m w = Returned tt w' ->
  let config := rewardConfigOf (storage w') comet in
  0 < m /\
  0 <= rescaleFactor config <= UINT64_MAX /\
  (shouldUpscale config = false -> 1 <= rescaleFactor config) /\
  (forall comet' account w0 f,
     getRewardAccrued c comet' account config w0 = Reverted f ->
     f = CallFailed \/ (f = Panic 0x11 /\ shouldUpscale config = true)).
Proof.
  intros Hm H config.
  destruct (setRewardConfigWithMultiplier_returned _ _ _ _ _ _ H)
    as (a & w1 & d & w2 & rf & up & _ & _ & _ & Ha & _ & Hd & Hd64 & -> & Hrf & Hm0 & Hcase).
  assert (Hcfg : config = MkRewardConfig tok rf up).
  { subst config. cbn [storage]. rewrite rewardConfigOf_set, Z.eqb_refl. reflexivity. }
  rewrite Hcfg. cbn [rescaleFactor shouldUpscale]. clear Hcfg config.
  assert (Hpow : 0 < 10 ^ d) by (apply Z.pow_pos_nonneg; lia).
  assert (HF := FACTOR_SCALE_pos).
  assert (Hbounds : 0 <= rf /\ (up = false -> 1 <= rf)).
  { destruct Hcase as [(Hbr & [(Hfl & -> & ->) | (Hfl & -> & ->)])
                      | (Hbr & Ha0 & [(Hfl & -> & ->) | (Hfl & -> & ->)])].
    - assert (0 < a / 10 ^ d) by (apply Z.div_str_pos; lia).
      split; [|discriminate]. apply Z.div_pos; [|lia]. apply Z.div_pos; lia.
    - assert (0 < a / 10 ^ d) by (apply Z.div_str_pos; lia).
      assert (0 < a / 10 ^ d * FACTOR_SCALE / m) by (apply Z.div_str_pos; lia).
      split; [lia|]. intros _. lia.
    - assert (0 < 10 ^ d / a) by (apply Z.div_str_pos; lia).
      assert (0 < FACTOR_SCALE / m / (10 ^ d / a)) by (apply Z.div_str_pos; lia).
      split; [lia|]. intros _. lia.
    - assert (0 < 10 ^ d / a) by (apply Z.div_str_pos; lia).
      split; [|discriminate]. apply Z.div_pos; [|lia]. apply Z.mul_nonneg_nonneg; lia. }
  destruct Hbounds as [H0 H1].
  split; [lia|]. split; [lia|]. split; [exact H1|].
  intros comet' account w0 f.
  unfold getRewardAccrued, tx_bind, staticcall, abi_uint, checked_mul, checked_div,
    tx_ret, revert; cbn [rescaleFactor shouldUpscale].
  destruct (Comet_baseTrackingAccrued c comet' account w0) as [raw|]; [|intros [= <-]; auto].
  destruct ((0 <=? raw) && (raw <? 2 ^ 256)); [|intros [= <-]; auto].
  destruct up.
  - destruct (raw * rf <=? UINT256_MAX); [discriminate|]. intros [= <-]. auto.
  - specialize (H1 eq_refl). destruct (Z.eqb_spec rf 0) as [Hz|_]; [lia|discriminate].
Qed.

Lemma pow10_bounds (d : Z) :
  0 <= d ->
  (d < 20 -> 0 < 10 ^ d <= UINT64_MAX) /\
  (20 <= d -> UINT64_MAX < 10 ^ d) /\
  (d < 78 -> 10 ^ d <= UINT256_MAX) /\
  (78 <= d -> UINT256_MAX < 10 ^ d).
Proof.
  intros Hd.
  assert (H19 : 10 ^ 19 <= UINT64_MAX) by (vm_compute; discriminate).
  assert (H20 : UINT64_MAX < 10 ^ 20) by reflexivity.
  assert (H77 : 10 ^ 77 <= UINT256_MAX) by (vm_compute; discriminate).
  assert (H78 : UINT256_MAX < 10 ^ 78) by reflexivity.
  repeat split.
  - apply Z.pow_pos_nonneg; lia.
  - intros. etransitivity; [|exact H19]. apply Z.pow_le_mono_r; lia.
  - intros. eapply Z.lt_le_trans; [exact H20|]. apply Z.pow_le_mono_r; lia.
  - intros. etransitivity; [|exact H77]. apply Z.pow_le_mono_r; lia.
  - intros. eapply Z.lt_le_trans; [exact H78|]. apply Z.pow_le_mono_r; lia.
Qed.

Lemma scaled_fits (r : Z) : 0 <= r <= UINT64_MAX -> r * FACTOR_SCALE <= UINT256_MAX.
Proof.
  intros Hr. etransitivity; [apply Z.mul_le_mono_nonneg_r; [vm_compute; discriminate|apply Hr]|].
  vm_compute; discriminate.
Qed.

(** X18. [setRewardConfig], by the governor for an instance without a token,
    on the accrual scale [a] and the decimals [d] that the instance and the
    token report: tokens of 20 decimals or more cannot be configured (the
    scale does not fit 64 bits, or overflows from 78 decimals on), nor an
    instance whose accrual scale is zero; otherwise the plain ratio of the two
    scales is stored, to divide by when the accrual scale is the larger and to
    multiply by when it is not. *)
Theorem setRewardConfig_stores_plain_ratio (sender comet tok a d : Z) (w w1 w2 : EVM Ext) :
  sender = governor (storage w) ->
  token (rewardConfigOf (storage w) comet) = 0 ->
  Comet_baseAccrualScale c comet w = Some (a, w1) -> 0 <= a <= UINT64_MAX ->
  ERC20_decimals c tok w1 = Some (d, w2) -> 0 <= d <= 255 ->
  setRewardConfig c sender comet tok w =
  if 78 <=? d then Reverted (Panic 0x11)
  else if 20 <=? d then Reverted (InvalidUInt64 (10 ^ d))
  else if a =? 0 then Reverted (Panic 0x12)
  else Returned tt
         (MkEVM (set_rewardConfig comet
                   (if 10 ^ d <? a then MkRewardConfig tok (a / 10 ^ d) false
                    else MkRewardConfig tok (10 ^ d / a) true)
                   (storage w2))
                (others w2) (logs w2)).
Proof.
  intros -> Ht Ea Ha Ed Hd.
  destruct (pow10_bounds d (proj1 Hd)) as (P1 & P2 & P3 & P4).
  assert (HF := FACTOR_SCALE_pos).
  assert (EF : (FACTOR_SCALE =? 0) = false) by (apply Z.eqb_neq; lia).
  assert (Ra : (0 <=? a) && (a <? 2 ^ 64) = true).
  { apply andb_true_iff. split; [apply Z.leb_le; lia|apply Z.ltb_lt].
    unfold UINT64_MAX in Ha. lia. }
  assert (Rd : (0 <=? d) && (d <? 2 ^ 8) = true).
  { apply andb_true_iff. split; [apply Z.leb_le; lia|apply Z.ltb_lt].
    change (2 ^ 8) with 256. lia. }
  unfold setRewardConfig, setRewardConfigWithMultiplier, tx_bind, sload, call, abi_uint,
    checked_pow, checked_div, checked_mul, safe64, sstore, tx_ret, revert.
  cbv beta iota. rewrite Z.eqb_refl, Ht. cbn [negb Z.eqb]. rewrite Ea, Ra, Ed, Rd.
  destruct (Z.leb_spec 78 d) as [H78|H78].
  { specialize (P4 H78). apply Z.leb_gt in P4. rewrite P4. reflexivity. }
  specialize (P3 H78). apply Z.leb_le in P3. rewrite P3.
  destruct (Z.leb_spec 20 d) as [H20|H20].
  { specialize (P2 H20). apply Z.ltb_lt in P2. rewrite P2. reflexivity. }
  destruct (P1 H20) as [Hpos H64]. clear P1 P2.
  assert (E64 : (UINT64_MAX <? 10 ^ d) = false) by (apply Z.ltb_ge; exact H64).
  rewrite E64.
  destruct (Z.eqb_spec a 0) as [->|Ha0].
  { assert (E0 : (10 ^ d <? 0) = false) by (apply Z.ltb_ge; lia).
    rewrite E0. reflexivity. }
  assert (Ez0 : (a =? 0) = false) by (apply Z.eqb_neq; exact Ha0).
  destruct (Z.ltb_spec (10 ^ d) a) as [Hbr|Hbr].
  - assert (Ez : (10 ^ d =? 0) = false) by (apply Z.eqb_neq; lia). rewrite Ez.
    assert (Hr0 : 0 < a / 10 ^ d <= UINT64_MAX).
    { split; [apply Z.div_str_pos; lia|].
      etransitivity; [apply Z.div_le_upper_bound with (q := a); [lia|nia]|lia]. }
    pose proof (scaled_fits (a / 10 ^ d)) as Hfit.
    assert (Em : (a / 10 ^ d * FACTOR_SCALE <=? UINT256_MAX) = true)
      by (apply Z.leb_le, Hfit; lia).
    rewrite Em.
    assert (Efl : (a / 10 ^ d * FACTOR_SCALE <? FACTOR_SCALE) = false)
      by (apply Z.ltb_ge; nia).
    rewrite Efl, EF, Z.div_mul by lia.
    assert (Es : (UINT64_MAX <? a / 10 ^ d) = false) by (apply Z.ltb_ge; lia).
    rewrite Es. reflexivity.
  - rewrite EF, Z_div_same_full by lia.
    assert (Hr0 : 0 < 10 ^ d / a <= UINT64_MAX).
    { split; [apply Z.div_str_pos; lia|].
      etransitivity; [apply Z.div_le_upper_bound with (q := 10 ^ d); [lia|nia]|lia]. }
    assert (Efl : (10 ^ d / a <? 1) = false) by (apply Z.ltb_ge; lia).
    rewrite Efl.
    pose proof (scaled_fits (10 ^ d / a)) as Hfit.
    assert (Em : (10 ^ d / a * FACTOR_SCALE <=? UINT256_MAX) = true)
      by (apply Z.leb_le, Hfit; lia).
    rewrite Em, Z.div_mul by lia.
    assert (Es : (UINT64_MAX <? 10 ^ d / a) = false) by (apply Z.ltb_ge; lia).
    rewrite Es. reflexivity.
Qed.

(** [getRewardAccrued] only reads: it returns in the state it was called in,
    with the tracking accrued rescaled. *)
Lemma getRewardAccrued_returned (comet account accrued : Z) (config : RewardConfig)
    (w w' : EVM Ext) :
  getRewardAccrued c comet account config w = Returned accrued w' ->
  w' = w /\
  exists raw, Comet_baseTrackingAccrued c comet account w = Some raw /\
    0 <= raw <= UINT256_MAX /\ accrued = rescaled config raw /\
    (shouldUpscale config = false -> rescaleFactor config <> 0).
Proof.
  unfold getRewardAccrued, tx_bind, staticcall, abi_uint, checked_mul, checked_div, tx_ret,
    revert, rescaled.
  destruct (Comet_baseTrackingAccrued c comet account w) as [raw|]; [|discriminate].
  destruct ((0 <=? raw) && (raw <? 2 ^ 256)) eqn:Er; [|discriminate].
  apply andb_true_iff in Er as [Er1 Er2]. apply Z.leb_le in Er1. apply Z.ltb_lt in Er2.
  assert (Hraw : 0 <= raw <= UINT256_MAX) by (unfold UINT256_MAX; lia).
  destruct (shouldUpscale config).
  - destruct (raw * rescaleFactor config <=? UINT256_MAX); [|discriminate].
    intros [= <- <-]. split; [reflexivity|]. exists raw. repeat split; try lia; discriminate.
  - destruct (Z.eqb_spec (rescaleFactor config) 0) as [|Hne]; [discriminate|].
    intros [= <- <-]. split; [reflexivity|]. exists raw. repeat split; try lia; auto.
Qed.

Lemma getRewardAccrued_same_view (comet account : Z) (config : RewardConfig) (w w' : EVM Ext)
    (accrued : Z) :
  Comet_baseTrackingAccrued c comet account w' = Comet_baseTrackingAccrued c comet account w ->
  getRewardAccrued c comet account config w = Returned accrued w ->
  getRewardAccrued c comet account config w' = Returned accrued w'.
Proof.
  unfold getRewardAccrued, tx_bind, staticcall, abi_uint, checked_mul, checked_div, tx_ret,
    revert. intros ->.
  destruct (Comet_baseTrackingAccrued c comet account w) as [raw|]; [|discriminate].
  destruct ((0 <=? raw) && (raw <? 2 ^ 256)); [|discriminate].
  destruct (shouldUpscale config).
  - destruct (raw * rescaleFactor config <=? UINT256_MAX); [|discriminate].
    intros [= <-]. reflexivity.
  - destruct (rescaleFactor config =? 0); [discriminate|]. intros [= <-]. reflexivity.
Qed.

(** [claimInternal], from the accrual on: what it does once the tracking
    accrued is read. *)
Lemma claimInternal_unfold (comet src to : Z) (shouldAccrue : bool) (w : EVM Ext) :
  let config := rewardConfigOf (storage w) comet in
  claimInternal c comet src to shouldAccrue w =
  if token config =? 0 then Reverted (NotSupported comet)
  else
    match (if shouldAccrue then Comet_accrueAccount c comet src w else Some (tt, w)) with
    | None => Reverted CallFailed
    | Some (_, w1) =>
        let claimed := rewardsClaimedOf (storage w1) comet src in
        match getRewardAccrued c comet src config w1 with
        | Reverted f => Reverted f
        | Returned accrued w2 =>
            if claimed <? accrued then
              match ERC20_transfer c (token config) to (accrued - claimed)
                      (recorded comet src accrued w2) with
              | Some (true, w3) =>
                  Returned tt (logged (RewardClaimed src to (token config) (accrued - claimed)) w3)
              | Some (false, _) => Reverted (TransferOutFailed to (accrued - claimed))
              | None => Reverted CallFailed
              end
            else Returned tt w2
        end
    end.
Proof.
  cbv zeta. unfold claimInternal, tx_bind, sload.
  destruct (token (rewardConfigOf (storage w) comet) =? 0); [reflexivity|].
  assert (Hacc : (if shouldAccrue then call (Comet_accrueAccount c comet src) else tx_ret tt) w =
                 match (if shouldAccrue then Comet_accrueAccount c comet src w
                        else Some (tt, w)) with
                 | Some (u, w1) => Returned u w1
                 | None => Reverted CallFailed
                 end).
  { destruct shouldAccrue; [|reflexivity]. unfold call.
    destruct (Comet_accrueAccount c comet src w) as [[u w1]|]; reflexivity. }
  rewrite Hacc. clear Hacc.
  destruct (if shouldAccrue then Comet_accrueAccount c comet src w else Some (tt, w))
    as [[u w1]|]; [|reflexivity].
  destruct (getRewardAccrued c comet src (rewardConfigOf (storage w) comet) w1)
    as [f|accrued w2] eqn:Eacc; [reflexivity|].
  destruct (rewardsClaimedOf (storage w1) comet src <? accrued) eqn:Elt; [|reflexivity].
  apply Z.ltb_lt in Elt.
  unfold checked_sub, sstore, doTransferOut, tx_bind, call, emit_log, tx_ret, revert.
  assert (Ele : (rewardsClaimedOf (storage w1) comet src <=? accrued) = true)
    by (apply Z.leb_le; lia).
  rewrite Ele. unfold recorded, logged.
  destruct (ERC20_transfer c _ to _ _) as [[[|] w3]|]; reflexivity.
Qed.

(** The accounting of [claimInternal] when the Comet instance and the token do
    not call back. *)
Lemma claimInternal_accounting (comet src to : Z) (shouldAccrue : bool) (w w' : EVM Ext) :
  no_callback c ->
  claimInternal c comet src to shouldAccrue w = Returned tt w' ->
  let config := rewardConfigOf (storage w) comet in
  let read := accrued_in c comet src shouldAccrue w in
  let before := rewardsClaimedOf (storage w) comet src in
  let after := rewardsClaimedOf (storage w') comet src in
  before <= after /\
  (exists raw, Comet_baseTrackingAccrued c comet src read = Some raw /\
     after = Z.max before (rescaled config raw)) /\
  governor (storage w') = governor (storage w) /\
  rewardConfig (storage w') = rewardConfig (storage w) /\
  (forall comet' src', (comet' =? comet) && (src' =? src) = false ->
     rewardsClaimedOf (storage w') comet' src' = rewardsClaimedOf (storage w) comet' src') /\
  logs w' = (if before <? after
             then logs w ++ [RewardClaimed src to (token config) (after - before)]
             else logs w) /\
  (Comet_baseTrackingAccrued c comet src w' = Comet_baseTrackingAccrued c comet src read ->
   claimInternal c comet src to false w' = Returned tt w').
Proof.
  intros [Hacc Htr] H. cbv zeta.
  pose proof (claimInternal_unfold comet src to shouldAccrue w) as Hu. cbv zeta in Hu.
  rewrite Hu in H. clear Hu.
  destruct (token (rewardConfigOf (storage w) comet) =? 0) eqn:Etok; [discriminate|].
  assert (Hread : exists u, (if shouldAccrue then Comet_accrueAccount c comet src w
                             else Some (tt, w))
                            = Some (u, accrued_in c comet src shouldAccrue w) /\
                  storage (accrued_in c comet src shouldAccrue w) = storage w /\
                  logs (accrued_in c comet src shouldAccrue w) = logs w).
  { unfold accrued_in. destruct shouldAccrue; [|exists tt; auto].
    destruct (Comet_accrueAccount c comet src w) as [[[] w1]|] eqn:Ea; [|discriminate].
    exists tt. destruct (Hacc _ _ _ _ Ea). auto. }
  destruct Hread as (u & Hread & Hst & Hlg). rewrite Hread in H.
  set (read := accrued_in c comet src shouldAccrue w) in *.
  set (config := rewardConfigOf (storage w) comet) in *.
  destruct (getRewardAccrued c comet src config read) as [f|accrued w2] eqn:Eacc;
    [discriminate|].
  destruct (getRewardAccrued_returned _ _ _ _ _ _ Eacc) as (-> & raw & Hraw & _ & Hval & _).
  rewrite Hst in H.
  set (before := rewardsClaimedOf (storage w) comet src) in *.
  assert (Hagain : forall w0 : EVM Ext,
            storage w0 = set_rewardsClaimed comet src (Z.max before accrued) (storage w) \/
            (storage w0 = storage w /\ accrued <= before) ->
            Comet_baseTrackingAccrued c comet src w0 = Comet_baseTrackingAccrued c comet src read ->
            claimInternal c comet src to false w0 = Returned tt w0).
  { intros w0 Hw0 Hview.
    pose proof (claimInternal_unfold comet src to false w0) as Hu. cbv zeta in Hu.
    rewrite Hu. clear Hu.
    assert (Hc0 : rewardConfigOf (storage w0) comet = config).
    { destruct Hw0 as [-> | [-> _]]; reflexivity. }
    rewrite Hc0. fold config. rewrite Etok.
    rewrite (getRewardAccrued_same_view comet src config read w0 accrued Hview Eacc).
    assert (Hcl : accrued <= rewardsClaimedOf (storage w0) comet src).
    { destruct Hw0 as [-> | [-> Hle]].
      - rewrite rewardsClaimedOf_set, !Z.eqb_refl. cbn [andb]. lia.
      - exact Hle. }
    apply Z.ltb_ge in Hcl. rewrite Hcl. reflexivity. }
  destruct (before <? accrued) eqn:Elt.
  - apply Z.ltb_lt in Elt.
    destruct (ERC20_transfer c (token config) to (accrued - before)
                (recorded comet src accrued read)) as [[[|] w3]|] eqn:Et; try discriminate.
    injection H as <-. destruct (Htr _ _ _ _ _ _ Et) as [Hs3 Hl3].
    unfold logged; cbn [storage logs]. rewrite Hs3, Hl3. unfold recorded; cbn [storage logs].
    rewrite Hst, Hlg. rewrite rewardsClaimedOf_set, !Z.eqb_refl. cbn [andb]. fold before.
    assert (Elt' : (before <? accrued) = true) by (apply Z.ltb_lt; exact Elt).
    rewrite Elt'.
    split; [lia|]. split; [exists raw; split; [exact Hraw|lia]|].
    split; [reflexivity|]. split; [reflexivity|]. split.
    { intros comet' src' Hne. rewrite rewardsClaimedOf_set, Hne. reflexivity. }
    split; [reflexivity|].
    intros Hview. apply Hagain; [|exact Hview].
    left. cbn [storage]. f_equal. lia.
  - apply Z.ltb_ge in Elt. injection H as <-. rewrite Hst, Hlg. fold before.
    rewrite Z.ltb_irrefl.
    split; [lia|]. split; [exists raw; split; [exact Hraw|lia]|].
    split; [reflexivity|]. split; [reflexivity|]. split; [reflexivity|].
    split; [reflexivity|].
    intros Hview. apply Hagain; [|exact Hview]. right. split; [exact Hst|exact Elt].
Qed.

(** X19. When the Comet instance and the token do not call back, a [claim]
    that returns has raised what the account has claimed to what it accrued,
    or left it when nothing more accrued: the amount claimed never goes down,
    the other accounts, the configurations and the governor are untouched,
    and the claim is logged with exactly the increase, paid to the account
    itself whoever sent the call. Claiming again without accruing, while the
    tracking accrued reads the same, pays nothing and changes nothing. *)
Theorem claim_pays_the_increase (comet src : Z) (shouldAccrue : bool) (w w' : EVM Ext) :
  no_callback c ->
  claim c comet src shouldAccrue w = Returned tt w' ->
  let config := rewardConfigOf (storage w) comet in
  let read := accrued_in c comet src shouldAccrue w in
  let before := rewardsClaimedOf (storage w) comet src in
  let after := rewardsClaimedOf (storage w') comet src in
  before <= after /\
  (exists raw, Comet_baseTrackingAccrued c comet src read = Some raw /\
     after = Z.max before (rescaled config raw)) /\
  governor (storage w') = governor (storage w) /\
  rewardConfig (storage w') = rewardConfig (storage w) /\
  (forall comet' src', (comet' =? comet) && (src' =? src) = false ->
     rewardsClaimedOf (storage w') comet' src' = rewardsClaimedOf (storage w) comet' src') /\
  logs w' = (if before <? after
             then logs w ++ [RewardClaimed src src (token config) (after - before)]
             else logs w) /\
  (Comet_baseTrackingAccrued c comet src w' = Comet_baseTrackingAccrued c comet src read ->
   claim c comet src false w' = Returned tt w').
Proof.
  intros Hno H. exact (claimInternal_accounting comet src src shouldAccrue w w' Hno H).
Qed.

(** X21. [claimTo] pays only with the permission of the account: it reverts
    with [NotPermitted(sender)] when the Comet instance says the sender has
    none, before anything is accrued or paid. When it returns, the
    permission was given, and from the state the permission check left the
    accounting is that of a claim paid to [to]: the amount claimed by the
    account never goes down, what the recipient and the sender have claimed
    themselves is untouched, and the payment is logged with the account as
    source and [to] as recipient. *)
Theorem claimTo_pays_with_permission (sender comet src to : Z) (shouldAccrue : bool)
    (w w' : EVM Ext) :
  no_callback c ->
  (forall w0, Comet_hasPermission c comet src sender w = Some (false, w0) ->
     claimTo c sender comet src to shouldAccrue w = Reverted (NotPermitted sender)) /\
  (claimTo c sender comet src to shouldAccrue w = Returned tt w' ->
   exists w0,
     Comet_hasPermission c comet src sender w = Some (true, w0) /\
     claimInternal c comet src to shouldAccrue w0 = Returned tt w' /\
     let before := rewardsClaimedOf (storage w0) comet src in
     let after := rewardsClaimedOf (storage w') comet src in
     before <= after /\
     (forall other, other <> src ->
        rewardsClaimedOf (storage w') comet other = rewardsClaimedOf (storage w0) comet other) /\
     logs w' = (if before <? after
                then logs w0 ++ [RewardClaimed src to (token (rewardConfigOf (storage w0) comet))
                                   (after - before)]
                else logs w0)).
Proof.
  intros Hno. split.
  - intros w0 Hp. unfold claimTo, tx_bind, call. rewrite Hp. reflexivity.
  - unfold claimTo, tx_bind, call.
    destruct (Comet_hasPermission c comet src sender w) as [[[|] w0]|]; try discriminate.
    cbn [negb]. intros H. exists w0. split; [reflexivity|]. split; [exact H|].
    destruct (claimInternal_accounting comet src to shouldAccrue w0 w' Hno H)
      as (H1 & _ & _ & _ & H2 & H3 & _).
    cbv zeta. split; [exact H1|]. split; [|exact H3].
    intros other Hne. apply H2. apply Z.eqb_neq in Hne. rewrite Hne.
    apply andb_false_r.
Qed.

(** X20. The amount [getRewardOwed] reports is the amount a claim with
    accrual pays: when it returns, the accrual returned, the amount is what
    accrued beyond what was claimed (zero when nothing did), and a claim from
    the same state accrues to the same state and then, if the amount is not
    zero, records it as claimed and asks the token to transfer exactly that
    amount, reverting when the token refuses. *)
Theorem owed_is_what_claim_pays (comet account to : Z) (w w1 : EVM Ext) (ro : RewardOwed) :
  getRewardOwed c comet account w = Returned ro w1 ->
  let claimed := rewardsClaimedOf (storage w1) comet account in
  owed_token ro = token (rewardConfigOf (storage w) comet) /\
  owed_token ro <> 0 /\
  Comet_accrueAccount c comet account w = Some (tt, w1) /\
  (exists accrued,
     getRewardAccrued c comet account (rewardConfigOf (storage w) comet) w1
     = Returned accrued w1 /\
     owed ro = Z.max 0 (accrued - claimed)) /\
  claimInternal c comet account to true w =
  (if owed ro =? 0 then Returned tt w1
   else
     match ERC20_transfer c (owed_token ro) to (owed ro)
             (recorded comet account (claimed + owed ro) w1) with
     | Some (true, w3) =>
         Returned tt (logged (RewardClaimed account to (owed_token ro) (owed ro)) w3)
     | Some (false, _) => Reverted (TransferOutFailed to (owed ro))
     | None => Reverted CallFailed
     end).
Proof.
  intros H. cbv zeta.
  pose proof (claimInternal_unfold comet account to true w) as Hu. cbv zeta in Hu.
  rewrite Hu. clear Hu.
  unfold getRewardOwed, tx_bind, sload, call in H.
  destruct (token (rewardConfigOf (storage w) comet) =? 0) eqn:Etok; [discriminate|].
  apply Z.eqb_neq in Etok.
  destruct (Comet_accrueAccount c comet account w) as [[[] w0]|] eqn:Ea; [|discriminate].
  destruct (getRewardAccrued c comet account (rewardConfigOf (storage w) comet) w0)
    as [f|accrued w2] eqn:Eacc; [discriminate|].
  destruct (getRewardAccrued_returned _ _ _ _ _ _ Eacc) as (-> & _).
  destruct (rewardsClaimedOf (storage w0) comet account <? accrued) eqn:Elt.
  - apply Z.ltb_lt in Elt. unfold checked_sub, tx_ret in H.
    assert (Ele : (rewardsClaimedOf (storage w0) comet account <=? accrued) = true)
      by (apply Z.leb_le; lia).
    rewrite Ele in H. injection H as <- <-. cbn [owed owed_token].
    assert (Enz : (accrued - rewardsClaimedOf (storage w0) comet account =? 0) = false)
      by (apply Z.eqb_neq; lia).
    rewrite Enz.
    replace (rewardsClaimedOf (storage w0) comet account
             + (accrued - rewardsClaimedOf (storage w0) comet account)) with accrued by lia.
    split; [reflexivity|]. split; [exact Etok|]. split; [reflexivity|].
    split; [|reflexivity]. exists accrued. split; [exact Eacc|lia].
  - apply Z.ltb_ge in Elt. unfold tx_ret in H. injection H as <- <-. cbn [owed owed_token].
    split; [reflexivity|]. split; [exact Etok|]. split; [reflexivity|].
    split; [|reflexivity]. exists accrued. split; [exact Eacc|lia].
Qed.
End RewardsFacts.

(** ** Worked examples on the small chain *)

Lemma demoChain_no_callback : no_callback demoChain.
Proof.
  split.
  - intros comet account w w' H. injection H as <-. auto.
  - intros tok to amount w b w' H. injection H as _ <-. auto.
Qed.

(** X16, witness: the governor sets token 18 for the instance 100; setting it
    again reverts. *)
Lemma reward_config_witness :
  setRewardConfigWithMultiplier demoChain 1 100 18 FACTOR_SCALE genesis
  = Returned tt configured /\
  token (rewardConfigOf (storage configured) 100) = 18 /\
  setRewardConfigWithMultiplier demoChain 1 100 6 FACTOR_SCALE configured
  = Reverted (AlreadyConfigured 100).
Proof.
  assert (H : setRewardConfigWithMultiplier demoChain 1 100 18 FACTOR_SCALE genesis
              = Returned tt configured) by (vm_compute; reflexivity).
  destruct (reward_config_is_written_once demoChain 1 100 18 FACTOR_SCALE genesis configured H)
    as (_ & _ & H1 & H2 & _).
  split; [exact H|]. split; [exact H1|]. apply H2. discriminate.
Defined.

(** X17, witness: the factor stored for the instance 100 is [1e12]. *)
Lemma stored_factor_witness :
  0 <= rescaleFactor (rewardConfigOf (storage configured) 100) <= UINT64_MAX.
Proof.
  assert (H : setRewardConfigWithMultiplier demoChain 1 100 18 FACTOR_SCALE genesis
              = Returned tt configured) by (vm_compute; reflexivity).
  assert (Hm : 0 <= FACTOR_SCALE) by (vm_compute; discriminate).
  destruct (stored_factor_is_sound demoChain 1 100 18 FACTOR_SCALE genesis configured Hm H)
    as (_ & H1 & _).
  exact H1.
Defined.

(** X18, witness: the accrual scale is [1e6] and token 18 has 18 decimals:
    the ratio [1e12] is stored, to multiply by; token 30 has too many
    decimals. *)
Lemma plain_ratio_witness :
  setRewardConfig demoChain 1 100 18 genesis = Returned tt configured /\
  setRewardConfig demoChain 1 100 30 genesis = Reverted (InvalidUInt64 (10 ^ 30)).
Proof.
  assert (Ha : 0 <= 10 ^ 6 <= UINT64_MAX) by (split; vm_compute; discriminate).
  split.
  - rewrite (setRewardConfig_stores_plain_ratio demoChain 1 100 18 (10 ^ 6) 18
               genesis genesis genesis eq_refl eq_refl eq_refl Ha eq_refl);
      [reflexivity|lia].
  - rewrite (setRewardConfig_stores_plain_ratio demoChain 1 100 30 (10 ^ 6) 30
               genesis genesis genesis eq_refl eq_refl eq_refl Ha eq_refl);
      [reflexivity|lia].
Defined.

(** X19, witness: the account 7 accrued 5 units: its claim pays [5e12] of
    token 18, and a second claim pays nothing. *)
Lemma claim_witness :
  claim demoChain 100 7 true configured = Returned tt claimed7 /\
  rewardsClaimedOf (storage configured) 100 7 <= rewardsClaimedOf (storage claimed7) 100 7 /\
  claim demoChain 100 7 false claimed7 = Returned tt claimed7.
Proof.
  assert (H : claim demoChain 100 7 true configured = Returned tt claimed7)
    by (vm_compute; reflexivity).
  destruct (claim_pays_the_increase demoChain 100 7 true configured claimed7
              demoChain_no_callback H) as (H1 & _ & _ & _ & _ & _ & H2).
  split; [exact H|]. split; [exact H1|]. apply H2. reflexivity.
Defined.

(** X21, witness: the account 8 may not claim for the account 7; the account
    7 may, and is paid. *)
Lemma claimTo_witness :
  claimTo demoChain 8 100 7 8 true configured = Reverted (NotPermitted 8) /\
  (exists w0, Comet_hasPermission demoChain 100 7 7 configured = Some (true, w0) /\
              claimInternal demoChain 100 7 7 true w0 = Returned tt claimed7).
Proof.
  destruct (claimTo_pays_with_permission demoChain 8 100 7 8 true configured configured
              demoChain_no_callback) as (H1 & _).
  destruct (claimTo_pays_with_permission demoChain 7 100 7 7 true configured claimed7
              demoChain_no_callback) as (_ & H2).
  assert (H : claimTo demoChain 7 100 7 7 true configured = Returned tt claimed7)
    by (vm_compute; reflexivity).
  destruct (H2 H) as (w0 & H3 & H4 & _).
  split; [apply (H1 configured); reflexivity|].
  exists w0. split; [exact H3|exact H4].
Defined.

(** X20, witness: before the claim the account 7 is owed [5e12] of token
    18. *)
Lemma owed_witness :
  getRewardOwed demoChain 100 7 configured
  = Returned (MkRewardOwed 18 (5 * 10 ^ 12)) configured /\
  claimInternal demoChain 100 7 7 true configured = Returned tt claimed7.
Proof.
  assert (H : getRewardOwed demoChain 100 7 configured
              = Returned (MkRewardOwed 18 (5 * 10 ^ 12)) configured)
    by (vm_compute; reflexivity).
  destruct (owed_is_what_claim_pays demoChain 100 7 7 configured configured _ H)
    as (_ & _ & _ & _ & H1).
  split; [exact H|]. rewrite H1. vm_compute. reflexivity.
Defined.
